(** * Sparse data-flow analysis (mlir/lib/Analysis/DataFlow/SparseAnalysis.cpp)

    A shallow embedding of the forward and backward sparse data-flow
    drivers and of [AbstractSparseLattice::onUpdate].

    The drivers never branch on a lattice value: their control flow reads
    only the IR, the [Executable] states and the [PredecessorState]s.  Each
    visit is therefore embedded as the sequence of commands it issues to the
    solver, the lattice elements and the analysis hooks, in source order
    (type [Run]); [step] gives the effect of a command on the solver state.
    An assertion that fails ends the run where it stands.

    - The IR, the operation interfaces and the states of the dead-code
      analysis are what SparseAnalysis.cpp reads them through: records of
      accessors ([IR], [DeadCodeStates]).  A failed [dyn_cast] is a [false]
      answer, a null pointer is [None].
    - [assert] stops the run unless [NDEBUG] is set; a failed [cast<>], a
      [dyn_cast] of a null pointer, [PointerUnion::get] of the wrong member
      and a [slice] or [drop_front] past the end of its range (assertions of
      the support library, undefined behaviour without them) stop it in
      either build.
    - Within their bounds [slice], [drop_front] and the indexing of an
      [OperandRange] are [take], [drop] and list lookup.  An [OperandRange]
      is taken to lie within the operands of its owner, as it does by
      construction, so the slices of [getOpOperands] by such a range are
      within bounds; the slices and the [drop_front] of the forward
      [visitRegionSuccessors], whose bounds come from the successor inputs
      of a [PredecessorState], are checked.
    - Where C++ leaves the order of evaluation of two arguments open, the
      left one comes first; both orders fetch the same elements.
    - [initialize] and [initializeRecursively] walk the operations nested
      under an operation: the nesting is given as a tree ([Nesting]). *)

From stdpp Require Import gmap list strings.

(** ** The IR, as the drivers observe it *)

Definition Op := nat.
Definition Block := nat.
Definition Region := nat.
Definition AnalysisId := nat.

(** A [Value] is an operation result or a block argument. *)
Inductive Value :=
| OpResult (owner : Op) (resultNumber : nat)
| BlockArgument (owner : Block) (argNumber : nat).

#[global] Instance Value_eq_dec : EqDecision Value.
Proof. solve_decision. Defined.

#[global] Instance Value_countable : Countable Value.
Proof.
  refine (inj_countable'
    (λ v, match v with
          | OpResult o n => inl (o, n)
          | BlockArgument b n => inr (b, n)
          end)
    (λ x, match x with
          | inl (o, n) => OpResult o n
          | inr (b, n) => BlockArgument b n
          end) _).
  by intros [].
Defined.

(** [ProgramPoint]: a pointer union of operation, block, value and generic
    point ([CFGEdge]); a point built from a null pointer is [PPNull]. *)
Inductive ProgramPoint :=
| PPOperation (op : Op)
| PPBlock (block : Block)
| PPValue (value : Value)
| PPCFGEdge (from to : Block)
| PPNull.

#[global] Instance ProgramPoint_eq_dec : EqDecision ProgramPoint.
Proof. solve_decision. Defined.

Definition WorkItem := (ProgramPoint * AnalysisId)%type.

(** An [OpOperand]: the operand slot [operandNumber] of [owner]. *)
Record OpOperand := { operandOwner : Op; operandNumber : nat }.

#[global] Instance OpOperand_eq_dec : EqDecision OpOperand.
Proof. solve_decision. Defined.

(** An [OperandRange] is a window of its owner's operand list. *)
Record OperandRange := { beginOperandIndex : nat; rangeSize : nat }.

Record SuccessorOperands :=
  { producedOperandCount : nat; forwardedOperands : OperandRange }.

(** [successorRegion = None] is the parent operation itself. *)
Record RegionSuccessor :=
  { successorRegion : option Region; successorInputs : list Value }.

#[global] Instance OperandRange_eq_dec : EqDecision OperandRange.
Proof. solve_decision. Defined.
#[global] Instance SuccessorOperands_eq_dec : EqDecision SuccessorOperands.
Proof. solve_decision. Defined.
#[global] Instance RegionSuccessor_eq_dec : EqDecision RegionSuccessor.
Proof. solve_decision. Defined.

(** The accessors of the IR and of the operation interfaces the drivers
    call.  The answer of an interface accessor is only consulted once the
    matching [dyn_cast] succeeded.  [getUsers] lists the user of every use of
    a value, so an operation holding the value in two operands comes twice.
    [getBranchSuccessorArgument] is [detail::getBranchSuccessorArgument] of
    ControlFlowInterfaces.cpp, taken as the IR gives it. *)
Record IR := {
  (* Operation *)
  getNumResults : Op → nat;
  getOperands : Op → list Value;
  getBlock : Op → option Block;
  getParentOp : Op → option Op;
  getSuccessors : Op → list Block;
  hasReturnLikeTrait : Op → bool;
  (* dyn_cast<...Interface>(op) *)
  isRegionBranchOp : Op → bool;
  isCallOp : Op → bool;
  isBranchOp : Op → bool;
  isRegionBranchTerminatorOp : Op → bool;
  isCallableOp : Op → bool;
  (* RegionBranchOpInterface *)
  getEntrySuccessorOperands : Op → option nat → OperandRange;
  getEntrySuccessorRegions : Op → list RegionSuccessor;
  (* RegionBranchTerminatorOpInterface *)
  getTerminatorSuccessorOperands : Op → option nat → OperandRange;
  getTerminatorSuccessorRegions : Op → list RegionSuccessor;
  (* CallOpInterface *)
  getArgOperands : Op → list Value;
  resolveCallable : Op → option Op;
  (* CallableOpInterface *)
  getCallableRegion : Op → option Region;
  (* BranchOpInterface *)
  getSuccessorOperands : Op → nat → SuccessorOperands;
  getBranchSuccessorArgument : SuccessorOperands → nat → Block → option Value;
  (* Value *)
  getUsers : Value → list Op;
  (* Block *)
  getNumArguments : Block → nat;
  isEntryBlock : Block → bool;
  blockParentOp : Block → Op;
  blockParent : Block → Region;
  getPredecessors : Block → list (Block * nat);
  getTerminator : Block → Op;
  (* Region *)
  getRegionNumber : Region → nat;
  regionFront : Region → option Block
}.

(** The states owned by the dead-code analysis, read-only here:
    [Executable] (per block and per CFG edge) and [PredecessorState]. *)
Record DeadCodeStates := {
  isLive : ProgramPoint → bool;
  allPredecessorsKnown : ProgramPoint → bool;
  getKnownPredecessors : ProgramPoint → list Op;
  getSuccessorInputs : ProgramPoint → Op → list Value
}.

(** ** Commands and runs *)

Inductive Action :=
| GetExecutable (point : ProgramPoint)
| BlockContentSubscribe (point : ProgramPoint)
| GetPredecessorStateFor (dependent point : ProgramPoint)
| GetLatticeElement (value : Value)
| AddDependency (value : Value) (dependent : ProgramPoint)
| UseDefSubscribe (value : Value)
| Join (lhs rhs : Value)
| Meet (lhs rhs : Value)
| SetToEntryState (lattice : Value)
| SetToExitState (lattice : Value)
| VisitOperationImpl (op : Op) (operandLattices resultLattices : list Value)
| VisitNonControlFlowArgumentsImpl (op : Op) (successor : RegionSuccessor)
    (argLattices : list Value) (firstIndex : nat)
| VisitBranchOperand (operand : OpOperand)
| BackwardVisitOperationImpl (op : Op)
    (operandLattices resultLattices : list Value).

#[global] Instance Action_eq_dec : EqDecision Action.
Proof. solve_decision. Defined.

(** The commands that only fetch, create or subscribe: they write no
    lattice value. *)
Definition bookkeeping (a : Action) : bool :=
  match a with
  | GetExecutable _ | BlockContentSubscribe _ | GetPredecessorStateFor _ _
  | GetLatticeElement _ | AddDependency _ _ | UseDefSubscribe _ => true
  | _ => false
  end.

Inductive Outcome :=
| Finished
| AssertionFailed (message : string).

#[global] Instance Outcome_eq_dec : EqDecision Outcome.
Proof. solve_decision. Defined.

Definition Run := (list Action * Outcome)%type.

Definition finished : Run := ([], Finished).
Definition emit (actions : list Action) : Run := (actions, Finished).
Definition abort (message : string) : Run := ([], AssertionFailed message).

Definition andThen (first second : Run) : Run :=
  match first.2 with
  | Finished => (first.1 ++ second.1, second.2)
  | AssertionFailed _ => first
  end.

Infix ">>>" := andThen (at level 60, right associativity).

Definition forEach {A} (body : A → Run) (items : list A) : Run :=
  foldr (λ item rest, body item >>> rest) finished items.

Definition trace (r : Run) : list Action := r.1.
Definition outcome (r : Run) : Outcome := r.2.

Definition LogicalResult := bool.
Definition success : LogicalResult := true.
Definition failure : LogicalResult := false.

Section Accessors.

Context (ir : IR) (dc : DeadCodeStates).
(** [NDEBUG]: the build compiles [assert] out. *)
Context (NDEBUG : bool).

Definition assert (condition : bool) (message : string) : Run :=
  if NDEBUG || condition then finished else abort message.

Definition getResults (op : Op) : list Value :=
  OpResult op <$> seq 0 (getNumResults ir op).

Definition getArguments (block : Block) : list Value :=
  BlockArgument block <$> seq 0 (getNumArguments ir block).

Definition regionArguments (region : Region) : list Value :=
  match regionFront ir region with
  | Some front => getArguments front
  | None => []
  end.

(** The values an [OperandRange] of [owner] denotes. *)
Definition rangeValues (owner : Op) (range : OperandRange) : list Value :=
  take (rangeSize range) (drop (beginOperandIndex range) (getOperands ir owner)).

Definition slice {A} (first count : nat) (l : list A) : list A :=
  take count (drop first l).

Definition blockPoint (block : option Block) : ProgramPoint :=
  match block with
  | Some b => PPBlock b
  | None => PPNull
  end.

(** [getLatticeElementFor(point, value)]: the same in both drivers. *)
Definition getLatticeElementFor (point : ProgramPoint) (value : Value)
  : list Action :=
  [GetLatticeElement value; AddDependency value point].

(** Modelled from the spec: [SuccessorOperands::operator[]], declared in
    ControlFlowInterfaces.h: an index below the produced operand count has no
    operand (the argument is produced by the branch itself), the others
    index the forwarded operands.  The outer [None] is an index past them. *)
Definition successorOperandAt (owner : Op) (operands : SuccessorOperands)
    (index : nat) : option (option Value) :=
  if decide (index < producedOperandCount operands) then Some None
  else
    Some <$> (rangeValues owner (forwardedOperands operands)
                !! (index - producedOperandCount operands)).

(** [op->getOpOperands()]: the operand slots with the values they hold. *)
Definition getOpOperands (op : Op) : list (OpOperand * Value) :=
  imap (λ index value,
          ({| operandOwner := op; operandNumber := index |}, value))
       (getOperands ir op).

(** The operand slots an [OperandRange] of [owner] denotes
    ([operandsToOpOperands], and [getOpOperands().slice] in the branch
    case). *)
Definition rangeOpOperands (owner : Op) (range : OperandRange)
  : list (OpOperand * Value) :=
  slice (beginOperandIndex range) (rangeSize range) (getOpOperands owner).

End Accessors.

(** [llvm::BitVector] *)
Abbreviation BitVector := (list bool).
Definition bitVector (size : nat) (value : bool) : BitVector :=
  replicate size value.
Definition reset (index : nat) (bits : BitVector) : BitVector :=
  <[index := false]> bits.
Definition set_bits (bits : BitVector) : list nat :=
  filter (λ index, bits !! index = Some true) (seq 0 (length bits)).

(** The successor inputs recorded for a predecessor of [point] are results
    when [point] is an operation and block arguments when it is a block:
    what [cast<OpResult>] and [cast<BlockArgument>] rely on at lines 247 and
    255. *)
Definition inputsBelongTo (point : ProgramPoint) (inputs : list Value) : Prop :=
  match point, inputs with
  | PPOperation _, [] | PPOperation _, OpResult _ _ :: _ => True
  | PPBlock _, [] | PPBlock _, BlockArgument _ _ :: _ => True
  | _, _ => False
  end.

(** Lines 243-256: where the successor inputs start in the lattices of the
    point, when they are not all of them. *)
Definition firstIndexOf (inputs lattices : list Value) : nat :=
  if decide (length inputs = length lattices) then 0
  else
    match inputs with
    | [] => 0
    | OpResult _ firstIndex :: _ | BlockArgument _ firstIndex :: _ => firstIndex
    end.

(** The range lines 251 and 259 take a slice of: the results of [branch]
    when [point] is an operation, the arguments of the region of the block
    when it is a block. *)
Definition successorInputRange (ir : IR) (point : ProgramPoint) (branch : Op)
  : list Value :=
  match point with
  | PPOperation _ => getResults ir branch
  | PPBlock block => regionArguments ir (blockParent ir block)
  | _ => []
  end.

(** The bounds [slice] (lines 251 and 259) and [drop_front] (line 265) rely
    on: the window of the successor inputs lies within the range it is cut
    from, and starts within the lattices. *)
Definition windowFits (ir : IR) (point : ProgramPoint) (branch : Op)
    (inputs lattices : list Value) : Prop :=
  firstIndexOf inputs lattices + length inputs
    ≤ length (successorInputRange ir point branch) ∧
  firstIndexOf inputs lattices ≤ length lattices.

(** ** AbstractSparseForwardDataFlowAnalysis *)

Module Forward.
Section Driver.

Context (ir : IR) (dc : DeadCodeStates) (NDEBUG : bool).

#[local] Abbreviation assert := (assert NDEBUG).
#[local] Abbreviation getResults := (getResults ir).
#[local] Abbreviation getArguments := (getArguments ir).
#[local] Abbreviation regionArguments := (regionArguments ir).
#[local] Abbreviation rangeValues := (rangeValues ir).

(** Lines 278-282. *)
Definition setAllToEntryStates (lattices : list Value) : Run :=
  emit (SetToEntryState <$> lattices).

(** [join(lhs, *getLatticeElementFor(point, value))], lines 284-287 and
    270-276. *)
Definition joinFrom (point : ProgramPoint) (lhs value : Value) : list Action :=
  getLatticeElementFor point value ++ [Join lhs value].

(** The incoming successor operands of [op] as a predecessor of a successor
    of [branch], lines 223-232. *)
Definition incomingSuccessorOperands (branch : Op)
    (successorIndex : option nat) (op : Op) : option (list Value) :=
  if decide (op = branch) then
    Some (rangeValues branch (getEntrySuccessorOperands ir branch successorIndex))
  else if isRegionBranchTerminatorOp ir op then
    Some (rangeValues op (getTerminatorSuccessorOperands ir op successorIndex))
  else None.

(** Modelled from the spec: [ResultRange::slice] and
    [MutableArrayRef::slice] of the support library (not in this file)
    assert that the window [first, first + count) lies within the range. *)
Definition sliceChecked {A} (first count : nat) (l : list A) (message : string)
  : list A + string :=
  if decide (first + count ≤ length l) then inl (slice first count l)
  else inr message.

(** Lines 243-263: the offset of the successor inputs in [lattices], and the
    call of the hook when the inputs are not all of the lattices. *)
Definition alignSuccessorInputs (point : ProgramPoint) (branch : Op)
    (inputs lattices : list Value) : option (nat * list Action) + string :=
  if decide (length inputs = length lattices) then inl None
  else
    match point with
    | PPOperation _ =>
        match inputs with
        | [] =>
            match sliceChecked 0 (length inputs) (getResults branch)
                    "invalid size specifiers" with
            | inl successorInputs =>
                inl (Some (0, [VisitNonControlFlowArgumentsImpl branch
                  {| successorRegion := None;
                     successorInputs := successorInputs |}
                  lattices 0]))
            | inr message => inr message
            end
        | OpResult _ firstIndex :: _ =>
            match sliceChecked firstIndex (length inputs) (getResults branch)
                    "invalid size specifiers" with
            | inl successorInputs =>
                inl (Some (firstIndex, [VisitNonControlFlowArgumentsImpl branch
                  {| successorRegion := None;
                     successorInputs := successorInputs |}
                  lattices firstIndex]))
            | inr message => inr message
            end
        | BlockArgument _ _ :: _ => inr "cast<OpResult>"%string
        end
    | PPBlock block =>
        let region := blockParent ir block in
        match inputs with
        | [] =>
            match sliceChecked 0 (length inputs) (regionArguments region)
                    "Invalid specifier" with
            | inl successorInputs =>
                inl (Some (0, [VisitNonControlFlowArgumentsImpl branch
                  {| successorRegion := Some region;
                     successorInputs := successorInputs |}
                  lattices 0]))
            | inr message => inr message
            end
        | BlockArgument _ firstIndex :: _ =>
            match sliceChecked firstIndex (length inputs) (regionArguments region)
                    "Invalid specifier" with
            | inl successorInputs =>
                inl (Some (firstIndex, [VisitNonControlFlowArgumentsImpl branch
                  {| successorRegion := Some region;
                     successorInputs := successorInputs |}
                  lattices firstIndex]))
            | inr message => inr message
            end
        | OpResult _ _ :: _ => inr "cast<BlockArgument>"%string
        end
    | _ => inr "point.get<Block *>()"%string
    end.

(** Lines 221-267: the loop over the known predecessors. *)
Fixpoint visitRegionSuccessorsLoop (point : ProgramPoint) (branch : Op)
    (successorIndex : option nat) (lattices : list Value)
    (predecessors : list Op) : Run :=
  match predecessors with
  | [] => finished
  | op :: rest =>
      match incomingSuccessorOperands branch successorIndex op with
      | None =>
          (* We can't reason about the data-flow. *)
          setAllToEntryStates lattices
      | Some operands =>
          let inputs := getSuccessorInputs dc point op in
          assert (bool_decide (length inputs = length operands))
            "expected the same number of successor inputs as operands" >>>
          match alignSuccessorInputs point branch inputs lattices with
          | inr message => abort message
          | inl aligned =>
              let firstIndex := from_option fst 0 aligned in
              emit (from_option snd [] aligned) >>>
              (* [lattices.drop_front(firstIndex)] *)
              (if decide (firstIndex ≤ length lattices) then finished
               else abort "Dropping more elements than exist") >>>
              emit (it ← zip operands (drop firstIndex lattices);
                    joinFrom point it.2 it.1) >>>
              visitRegionSuccessorsLoop point branch successorIndex lattices rest
          end
      end
  end.

(** What the loop relies on for a predecessor [p] whose successor operands
    it resolves: as many successor inputs as operands (line 240, unless
    compiled out), and, when the inputs are not all of the lattices, inputs
    of the kind of [point] (the casts of lines 247 and 255) whose window
    lies within the range it is cut from and starts within the lattices
    (lines 251, 259 and 265). *)
Definition passes (point : ProgramPoint) (branch : Op)
    (successorIndex : option nat) (lattices : list Value) (p : Op) : Prop :=
  ∀ operands, incomingSuccessorOperands branch successorIndex p = Some operands →
    (NDEBUG = true ∨ length (getSuccessorInputs dc point p) = length operands) ∧
    (length (getSuccessorInputs dc point p) = length lattices
     ∨ (inputsBelongTo point (getSuccessorInputs dc point p) ∧
        windowFits ir point branch (getSuccessorInputs dc point p) lattices)).

(** Lines 213-268. *)
Definition visitRegionSuccessors (point : ProgramPoint) (branch : Op)
    (successorIndex : option nat) (lattices : list Value) : Run :=
  emit [GetPredecessorStateFor point point] >>>
  assert (allPredecessorsKnown dc point)
    "unexpected unresolved region successors" >>>
  visitRegionSuccessorsLoop point branch successorIndex lattices
    (getKnownPredecessors dc point).

(** Lines 82-130. *)
Definition visitOperation (op : Op) : Run :=
  (* Exit early on operations with no results. *)
  if decide (getNumResults ir op = 0) then finished
  else
    emit [GetExecutable (blockPoint (getBlock ir op))] >>>
    (* If the containing block is not executable, bail out. *)
    if negb (isLive dc (blockPoint (getBlock ir op))) then finished
    else
      let resultLattices := getResults op in
      emit (GetLatticeElement <$> resultLattices) >>>
      if isRegionBranchOp ir op then
        visitRegionSuccessors (PPOperation op) op None resultLattices
      else if isCallOp ir op then
        emit [GetPredecessorStateFor (PPOperation op) (PPOperation op)] >>>
        if negb (allPredecessorsKnown dc (PPOperation op)) then
          setAllToEntryStates resultLattices
        else
          emit (predecessor ← getKnownPredecessors dc (PPOperation op);
                it ← zip (getOperands ir predecessor) resultLattices;
                joinFrom (PPOperation op) it.2 it.1)
      else
        emit (operand ← getOperands ir op;
              [GetLatticeElement operand; UseDefSubscribe operand]) >>>
        emit [VisitOperationImpl op (getOperands ir op) resultLattices].

(** Lines 160-164: the call sites of a callable entry block. *)
Definition visitCallSite (block : Block) (argLattices : list Value)
    (callsite : Op) : Run :=
  if isCallOp ir callsite then
    emit (it ← zip (getArgOperands ir callsite) argLattices;
          joinFrom (PPBlock block) it.2 it.1)
  else abort "cast<CallOpInterface>".

(** Lines 196-206: one live predecessor edge whose terminator is a branch. *)
Definition visitBranchPredecessor (block : Block) (argLattices : list Value)
    (terminator : Op) (operands : SuccessorOperands) : Run :=
  forEach
    (λ it : nat * Value,
       match successorOperandAt ir terminator operands it.1 with
       | Some (Some operand) => emit (joinFrom (PPBlock block) it.2 operand)
       | Some None =>
           (* Conservatively consider internally produced arguments as entry
              points. *)
           setAllToEntryStates [it.2]
       | None => abort "Invalid index!"
       end)
    (imap pair argLattices).

(** Lines 181-210: the loop over the predecessors of a non-entry block. *)
Fixpoint visitPredecessors (block : Block) (argLattices : list Value)
    (predecessors : list (Block * nat)) : Run :=
  match predecessors with
  | [] => finished
  | (predecessor, successorIndex) :: rest =>
      emit [GetExecutable (PPCFGEdge predecessor block);
            BlockContentSubscribe (PPCFGEdge predecessor block)] >>>
      if negb (isLive dc (PPCFGEdge predecessor block)) then
        visitPredecessors block argLattices rest
      else if isBranchOp ir (getTerminator ir predecessor) then
        visitBranchPredecessor block argLattices (getTerminator ir predecessor)
          (getSuccessorOperands ir (getTerminator ir predecessor) successorIndex) >>>
        visitPredecessors block argLattices rest
      else setAllToEntryStates argLattices
  end.

(** A live edge from [predecessor] whose branch forwards or produces each
    of the arguments of [block], its successor number [successorIndex]: no
    index of [argLattices] lies past the successor operands. *)
Definition coversArguments (block : Block) (argLattices : list Value)
    (predecessor : Block * nat) : Prop :=
  isLive dc (PPCFGEdge predecessor.1 block) = true →
  isBranchOp ir (getTerminator ir predecessor.1) = true →
  ∀ index, index < length argLattices →
    is_Some (successorOperandAt ir (getTerminator ir predecessor.1)
               (getSuccessorOperands ir (getTerminator ir predecessor.1)
                  predecessor.2)
               index).

(** Lines 132-211. *)
Definition visitBlock (block : Block) : Run :=
  (* Exit early on blocks with no arguments. *)
  if decide (getNumArguments ir block = 0) then finished
  else
    emit [GetExecutable (PPBlock block)] >>>
    (* If the block is not executable, bail out. *)
    if negb (isLive dc (PPBlock block)) then finished
    else
      let argLattices := getArguments block in
      emit (GetLatticeElement <$> argLattices) >>>
      if isEntryBlock ir block then
        let parentOp := blockParentOp ir block in
        if isCallableOp ir parentOp &&
           bool_decide (getCallableRegion ir parentOp = Some (blockParent ir block))
        then
          emit [GetPredecessorStateFor (PPBlock block) (PPOperation parentOp)] >>>
          if negb (allPredecessorsKnown dc (PPOperation parentOp)) then
            setAllToEntryStates argLattices
          else
            forEach (visitCallSite block argLattices)
              (getKnownPredecessors dc (PPOperation parentOp))
        else if isRegionBranchOp ir parentOp then
          visitRegionSuccessors (PPBlock block) parentOp
            (Some (getRegionNumber ir (blockParent ir block))) argLattices
        else
          (* Otherwise, we can't reason about the data-flow. *)
          emit [VisitNonControlFlowArgumentsImpl parentOp
                  {| successorRegion := Some (blockParent ir block);
                     successorInputs := [] |}
                  argLattices 0]
      else visitPredecessors block argLattices (getPredecessors ir block).

(** Lines 72-80. *)
Definition visit (point : ProgramPoint) : LogicalResult * Run :=
  match point with
  | PPOperation op => (success, visitOperation op)
  | PPBlock block => (success, visitBlock block)
  | _ => (failure, finished)
  end.

End Driver.
End Forward.

(** ** AbstractSparseBackwardDataFlowAnalysis *)

Module Backward.
Section Driver.

Context (ir : IR) (dc : DeadCodeStates) (NDEBUG : bool).

#[local] Abbreviation assert := (assert NDEBUG).
#[local] Abbreviation getResults := (getResults ir).
#[local] Abbreviation getArguments := (getArguments ir).
#[local] Abbreviation rangeOpOperands := (rangeOpOperands ir).

(** Lines 336-345. *)
Definition getLatticeElements (values : list Value) : list Action :=
  GetLatticeElement <$> values.

(** Lines 347-358. *)
Definition getLatticeElementsFor (point : ProgramPoint) (values : list Value)
  : list Action :=
  values ≫= getLatticeElementFor point.

(** Lines 551-555. *)
Definition setAllToExitStates (lattices : list Value) : Run :=
  emit (SetToExitState <$> lattices).

(** [meet(getLatticeElement(operand.get()), *getLatticeElementFor(point, value))];
    the operand's element is fetched first. *)
Definition meetOperand (point : ProgramPoint) (operand value : Value)
  : list Action :=
  GetLatticeElement operand :: getLatticeElementFor point value
    ++ [Meet operand value].

(** [meet(lattice, *getLatticeElementFor(point, value))] *)
Definition meetFrom (point : ProgramPoint) (lattice value : Value)
  : list Action :=
  getLatticeElementFor point value ++ [Meet lattice value].

(** Lines 408-411 (and 502-504, 538-540): the operands still unaccounted
    go to [visitBranchOperand], in increasing order. *)
Definition visitUnaccounted (op : Op) (unaccounted : BitVector) : list Action :=
  (λ index, VisitBranchOperand {| operandOwner := op; operandNumber := index |})
    <$> set_bits unaccounted.

(** Lines 395-403: one forwarded operand of one successor. *)
Definition visitForwardedOperand (op : Op) (successorOperands : SuccessorOperands)
    (block : Block) (state : BitVector * list Action)
    (operand : OpOperand * Value) : BitVector * list Action :=
  let unaccounted := reset (operandNumber operand.1) state.1 in
  match getBranchSuccessorArgument ir successorOperands
          (operandNumber operand.1) block with
  | Some blockArg =>
      (unaccounted, state.2 ++ meetOperand (PPOperation op) operand.2 blockArg)
  | None => (unaccounted, state.2)
  end.

(** Lines 389-405: one successor block of a branch operation. *)
Definition visitSuccessor (op : Op) (state : BitVector * list Action)
    (successor : nat * Block) : BitVector * list Action :=
  let successorOperands := getSuccessorOperands ir op successor.1 in
  let forwarded := forwardedOperands successorOperands in
  if decide (rangeSize forwarded = 0) then state
  else
    foldl (visitForwardedOperand op successorOperands successor.2) state
      (rangeOpOperands op forwarded).

(** Lines 387-405: the operands not forwarded to any block, and the meets
    issued for the forwarded ones. *)
Definition forwardToSuccessors (op : Op) : BitVector * list Action :=
  let unaccounted := bitVector (length (getOperands ir op)) true in
  foldl (visitSuccessor op) (unaccounted, []) (imap pair (getSuccessors ir op)).

(** The operand slots forwarded to a successor, and the meets lines 397-402
    issue for them. *)
Definition successorSlots (op : Op) (successor : nat * Block)
  : list (OpOperand * Value) :=
  rangeOpOperands op (forwardedOperands (getSuccessorOperands ir op successor.1)).

Definition successorMeets (op : Op) (successor : nat * Block) : list Action :=
  slot ← successorSlots op successor;
  match getBranchSuccessorArgument ir (getSuccessorOperands ir op successor.1)
          (operandNumber slot.1) successor.2 with
  | Some blockArg => meetOperand (PPOperation op) slot.2 blockArg
  | None => []
  end.

(** The operand numbers the branch case clears, successor by successor. *)
Definition clearedNumbers (op : Op) : list nat :=
  successor ← imap pair (getSuccessors ir op);
  (λ slot : OpOperand * Value, operandNumber slot.1) <$> successorSlots op successor.

(** Lines 381-413. *)
Definition visitBranch (op : Op) : Run :=
  let state := forwardToSuccessors op in
  emit state.2 >>> emit (visitUnaccounted op state.1).

(** The operand slot [index] of [op] lies in the operands forwarded to its
    successor number [successor]. *)
Definition forwardedTo (op : Op) (index successor : nat) : Prop :=
  let forwarded := forwardedOperands (getSuccessorOperands ir op successor) in
  successor < length (getSuccessors ir op) ∧
  beginOperandIndex forwarded ≤ index
    < beginOperandIndex forwarded + rangeSize forwarded.

(** One region successor, lines 488-499 and 524-535: [point] is the
    operation the dependencies are registered for, [operands] the operand
    slots forwarded to the successor. *)
Definition visitSuccessorInputs (point : Op) (operands : list (OpOperand * Value))
    (inputs : list Value) (state : BitVector * list Action)
  : BitVector * list Action :=
  foldl (λ (st : BitVector * list Action) (it : (OpOperand * Value) * Value),
           (reset (operandNumber it.1.1) st.1,
            st.2 ++ meetOperand (PPOperation point) it.1.2 it.2))
        state (zip operands inputs).

(** Lines 476-505. *)
Definition visitRegionSuccessors (branch : Op) (operandLattices : list Value)
  : Run :=
  let successors := getEntrySuccessorRegions ir branch in
  let unaccounted := bitVector (length (getOperands ir branch)) true in
  let state :=
    foldl (λ st (successor : RegionSuccessor),
             let operands :=
               match successorRegion successor with
               | Some region =>
                   getEntrySuccessorOperands ir branch
                     (Some (getRegionNumber ir region))
               | None => getEntrySuccessorOperands ir branch None
               end in
             visitSuccessorInputs branch (rangeOpOperands branch operands)
               (successorInputs successor) st)
          (unaccounted, []) successors in
  emit state.2 >>> emit (visitUnaccounted branch state.1).

(** Lines 507-541. *)
Definition visitRegionSuccessorsFromTerminator (terminator branch : Op) : Run :=
  assert (isRegionBranchTerminatorOp ir terminator)
    "expected a `RegionBranchTerminatorOpInterface` op" >>>
  assert (bool_decide (getParentOp ir terminator = Some branch))
    "expected `branch` to be the parent op of `terminator`" >>>
  let successors := getTerminatorSuccessorRegions ir terminator in
  let unaccounted := bitVector (length (getOperands ir terminator)) true in
  let state :=
    foldl (λ st (successor : RegionSuccessor),
             let operands :=
               getTerminatorSuccessorOperands ir terminator
                 (getRegionNumber ir <$> successorRegion successor) in
             visitSuccessorInputs terminator (rangeOpOperands terminator operands)
               (successorInputs successor) st)
          (unaccounted, []) successors in
  emit state.2 >>> emit (visitUnaccounted terminator state.1).

(** Lines 449-473: the return-like case and the transfer function. *)
Definition visitReturnOrOrdinary (op : Op) (operandLattices : list Value) : Run :=
  let ordinary :=
    emit [BackwardVisitOperationImpl op operandLattices (getResults op)] in
  if hasReturnLikeTrait ir op then
    match getParentOp ir op with
    | None => abort "dyn_cast on a non-existent value"
    | Some callable =>
        if isCallableOp ir callable then
          emit [GetPredecessorStateFor (PPOperation op) (PPOperation callable)] >>>
          if allPredecessorsKnown dc (PPOperation callable) then
            emit (call ← getKnownPredecessors dc (PPOperation callable);
                  getLatticeElementsFor (PPOperation op) (getResults call)
                  ++ ((λ it : Value * Value, Meet it.1 it.2)
                        <$> zip operandLattices (getResults call)))
          else
            (* If we don't know all the callers, we can't know where the
               returned values go. *)
            setAllToExitStates operandLattices
        else ordinary
    end
  else ordinary.

(** Lines 442-447, then the rest. *)
Definition visitTerminatorOrLater (op : Op) (operandLattices : list Value) : Run :=
  if isRegionBranchTerminatorOp ir op then
    match getParentOp ir op with
    | None => abort "dyn_cast on a non-existent value"
    | Some parent =>
        if isRegionBranchOp ir parent then
          visitRegionSuccessorsFromTerminator op parent
        else visitReturnOrOrdinary op operandLattices
    end
  else visitReturnOrOrdinary op operandLattices.

(** Lines 417-430, then the rest. *)
Definition visitCallOrLater (op : Op) (operandLattices : list Value) : Run :=
  if isCallOp ir op then
    match resolveCallable ir op with
    | Some callableOp =>
        if isCallableOp ir callableOp then
          match getCallableRegion ir callableOp ≫= regionFront ir with
          | Some block =>
              emit (it ← zip (getArguments block) operandLattices;
                    meetFrom (PPOperation op) it.2 it.1)
          | None => finished
          end
        else visitTerminatorOrLater op operandLattices
    | None => visitTerminatorOrLater op operandLattices
    end
  else visitTerminatorOrLater op operandLattices.

(** What the visit of an operation in a live block starts with, lines
    366-372. *)
Definition prologue (op : Op) : list Action :=
  GetExecutable (blockPoint (getBlock ir op))
    :: getLatticeElements (getOperands ir op)
    ++ getLatticeElementsFor (PPOperation op) (getResults op).

(** Lines 364-474. *)
Definition visitOperation (op : Op) : Run :=
  emit [GetExecutable (blockPoint (getBlock ir op))] >>>
  (* If we're in a dead block, bail out. *)
  if negb (isLive dc (blockPoint (getBlock ir op))) then finished
  else
    let operandLattices := getOperands ir op in
    emit (getLatticeElements operandLattices) >>>
    emit (getLatticeElementsFor (PPOperation op) (getResults op)) >>>
    if isRegionBranchOp ir op then visitRegionSuccessors op operandLattices
    else if isBranchOp ir op then visitBranch op
    else visitCallOrLater op operandLattices.

(** Lines 321-334. *)
Definition visit (point : ProgramPoint) : LogicalResult * Run :=
  match point with
  | PPOperation op => (success, visitOperation op)
  | PPBlock _ => (success, finished)
  | _ => (failure, finished)
  end.

End Driver.
End Backward.

(** ** The solver state and the effect of a command *)

Inductive ChangeResult := NoChange | Change.

#[global] Instance ChangeResult_eq_dec : EqDecision ChangeResult.
Proof. solve_decision. Defined.

(** Modelled from the spec: an [AbstractSparseLattice], declared in
    SparseAnalysis.h: the value held, the dependency edges of the
    [AnalysisState] base class (when the element changes, the listed points
    are re-enqueued) and the use-def subscribers; both lists are appended to
    and never removed from ([SetVector]s). *)
Record LatticeElement (L : Type) := {
  latticeValue : L;
  dependents : list WorkItem;
  useDefSubscribers : list AnalysisId
}.
Arguments latticeValue {L}.
Arguments dependents {L}.
Arguments useDefSubscribers {L}.

Record Solver (L : Type) := {
  elements : gmap Value (LatticeElement L);
  worklist : list WorkItem
}.
Arguments elements {L}.
Arguments worklist {L}.

(** Modelled from the spec: what a concrete analysis supplies, the virtual
    methods of SparseAnalysis.h: the lattice with [join] and [meet], the
    entry and exit states [setToEntryState] and [setToExitState] set (the
    most conservative value), and the hooks.  A hook is given the values of
    the lattices it may read and of those it may write, and answers the new
    values of the latter; a lattice created on first reference holds
    [uninitialized]. *)
Record Analysis (L : Type) := {
  uninitialized : L;
  latticeJoin : L → L → L;
  latticeMeet : L → L → L;
  entryState : Value → L;
  exitState : Value → L;
  visitOperationImpl : Op → list L → list L → list L;
  visitNonControlFlowArgumentsImpl :
    Op → RegionSuccessor → nat → list L → list L;
  visitBranchOperand : OpOperand → L → L;
  backwardVisitOperationImpl : Op → list L → list L → list L
}.
Arguments uninitialized {L}.
Arguments latticeJoin {L}.
Arguments latticeMeet {L}.
Arguments entryState {L}.
Arguments exitState {L}.
Arguments visitOperationImpl {L}.
Arguments visitNonControlFlowArgumentsImpl {L}.
Arguments visitBranchOperand {L}.
Arguments backwardVisitOperationImpl {L}.

(** [SetVector::insert] *)
Definition setVectorInsert {A} `{EqDecision A} (x : A) (l : list A) : list A :=
  if decide (x ∈ l) then l else l ++ [x].

(** How often [x] occurs in [l]. *)
Definition occurrences {A} `{EqDecision A} (x : A) (l : list A) : nat :=
  length (filter (x =.) l).

Section SolverState.

Context {L : Type} `{EqDecision L}.
Context (ir : IR) (analysis : Analysis L) (self : AnalysisId).

Definition freshElement : LatticeElement L :=
  {| latticeValue := uninitialized analysis;
     dependents := [];
     useDefSubscribers := [] |}.

(** The element of [value], as [getOrCreate] finds or would create it. *)
Definition elementOf (s : Solver L) (value : Value) : LatticeElement L :=
  default freshElement (elements s !! value).

Definition valueOf (s : Solver L) (value : Value) : L :=
  latticeValue (elementOf s value).

Definition setElement (value : Value) (e : LatticeElement L) (s : Solver L)
  : Solver L :=
  {| elements := <[value := e]> (elements s); worklist := worklist s |}.

(** Modelled from the spec: [DataFlowSolver::enqueue], defined in
    DataFlowFramework.h: the solver owns a first-in first-out queue of
    (program point, analysis) pairs. *)
Definition enqueue (item : WorkItem) (s : Solver L) : Solver L :=
  {| elements := elements s; worklist := worklist s ++ [item] |}.

(** Modelled from the spec: [AnalysisState::onUpdate], defined in
    DataFlowFramework.cpp: when the element changes, the listed dependent
    points are re-enqueued. *)
Definition AnalysisState_onUpdate (e : LatticeElement L) (s : Solver L)
  : Solver L :=
  foldl (λ s item, enqueue item s) s (dependents e).

(** One work item per user of [value] and subscriber, users first. *)
Definition userItems (value : Value) (subscribers : list AnalysisId)
  : list WorkItem :=
  user ← getUsers ir value;
  (λ subscriber, (PPOperation user, subscriber)) <$> subscribers.

(** [AbstractSparseLattice::onUpdate], lines 21-28, for the element [e] of
    [value]. *)
Definition onUpdate (value : Value) (e : LatticeElement L) (s : Solver L)
  : Solver L :=
  let s := AnalysisState_onUpdate e s in
  (* Push all users of the value to the queue. *)
  foldl (λ s user,
           foldl (λ s subscriber, enqueue (PPOperation user, subscriber) s)
                 s (useDefSubscribers e))
        s (getUsers ir value).

(** Modelled from the spec: [DataFlowSolver::propagateIfChanged], defined
    in DataFlowFramework.h: a change is propagated through [onUpdate]. *)
Definition propagateIfChanged (value : Value) (r : Solver L * ChangeResult)
  : Solver L :=
  match r.2 with
  | Change => onUpdate value (elementOf r.1 value) r.1
  | NoChange => r.1
  end.

(** Modelled from the spec: a lattice method ([join], [meet], or the
    assignment a hook makes) gives the element of [value] the value [new] and
    answers [Change] or [NoChange]. *)
Definition assign (value : Value) (new : L) (s : Solver L)
  : Solver L * ChangeResult :=
  let e := elementOf s value in
  if decide (new = latticeValue e) then (s, NoChange)
  else
    (setElement value
       {| latticeValue := new;
          dependents := dependents e;
          useDefSubscribers := useDefSubscribers e |} s,
     Change).

(** [propagateIfChanged(lattice, lattice->method(...))] *)
Definition update (value : Value) (new : L) (st : Solver L * list ChangeResult)
  : Solver L * list ChangeResult :=
  let r := assign value new st.1 in
  (propagateIfChanged value r, st.2 ++ [r.2]).

Definition updateAll (lattices : list Value) (news : list L) (s : Solver L)
  : Solver L * list ChangeResult :=
  foldl (λ st (it : Value * L), update it.1 it.2 st) (s, []) (zip lattices news).

(** The effect of one command, with the [ChangeResult]s reported to
    [propagateIfChanged] on the way. *)
Definition step (a : Action) (s : Solver L) : Solver L * list ChangeResult :=
  match a with
  | GetExecutable _ | BlockContentSubscribe _ | GetPredecessorStateFor _ _ =>
      (* states of the dead-code analysis *)
      (s, [])
  | GetLatticeElement value =>
      (setElement value (elementOf s value) s, [])
  | AddDependency value dependent =>
      let e := elementOf s value in
      (setElement value
         {| latticeValue := latticeValue e;
            dependents := setVectorInsert (dependent, self) (dependents e);
            useDefSubscribers := useDefSubscribers e |} s, [])
  | UseDefSubscribe value =>
      let e := elementOf s value in
      (setElement value
         {| latticeValue := latticeValue e;
            dependents := dependents e;
            useDefSubscribers := setVectorInsert self (useDefSubscribers e) |} s,
       [])
  | Join lhs rhs =>
      update lhs (latticeJoin analysis (valueOf s lhs) (valueOf s rhs)) (s, [])
  | Meet lhs rhs =>
      update lhs (latticeMeet analysis (valueOf s lhs) (valueOf s rhs)) (s, [])
  | SetToEntryState lattice => update lattice (entryState analysis lattice) (s, [])
  | SetToExitState lattice => update lattice (exitState analysis lattice) (s, [])
  | VisitOperationImpl op operandLattices resultLattices =>
      updateAll resultLattices
        (visitOperationImpl analysis op (valueOf s <$> operandLattices)
           (valueOf s <$> resultLattices)) s
  | VisitNonControlFlowArgumentsImpl op successor argLattices firstIndex =>
      updateAll argLattices
        (visitNonControlFlowArgumentsImpl analysis op successor firstIndex
           (valueOf s <$> argLattices)) s
  | VisitBranchOperand operand =>
      match getOperands ir (operandOwner operand) !! operandNumber operand with
      | Some value =>
          update value (visitBranchOperand analysis operand (valueOf s value)) (s, [])
      | None => (s, [])
      end
  | BackwardVisitOperationImpl op operandLattices resultLattices =>
      updateAll operandLattices
        (backwardVisitOperationImpl analysis op (valueOf s <$> operandLattices)
           (valueOf s <$> resultLattices)) s
  end.

Definition exec (a : Action) (s : Solver L) : Solver L := (step a s).1.

Definition reports (a : Action) (s : Solver L) : list ChangeResult := (step a s).2.

(** The state after the commands of a run, and what they reported. *)
Definition execAll (actions : list Action) (s : Solver L) : Solver L :=
  foldl (λ s a, exec a s) s actions.

Fixpoint reportsAll (actions : list Action) (s : Solver L) : list ChangeResult :=
  match actions with
  | [] => []
  | a :: rest => reports a s ++ reportsAll rest (exec a s)
  end.

End SolverState.

(** ** The forward driver under the solver *)

(** The contract of a forward analysis: [join] is the join of a semilattice
    (idempotent, commutative, associative, hence monotone in the induced
    order), the entry state is its top, and the transfer hooks only move a
    lattice upwards. *)
Record MonotoneAnalysis {L : Type} (analysis : Analysis L) : Prop := {
  join_idempotent : ∀ x, latticeJoin analysis x x = x;
  join_commutative : ∀ x y, latticeJoin analysis x y = latticeJoin analysis y x;
  join_associative : ∀ x y z,
    latticeJoin analysis x (latticeJoin analysis y z)
    = latticeJoin analysis (latticeJoin analysis x y) z;
  entryState_top : ∀ value x,
    latticeJoin analysis x (entryState analysis value) = entryState analysis value;
  visitOperationImpl_inflationary : ∀ op operands results index old new,
    results !! index = Some old →
    visitOperationImpl analysis op operands results !! index = Some new →
    latticeJoin analysis old new = new;
  visitNonControlFlowArgumentsImpl_inflationary :
    ∀ op successor firstIndex arguments index old new,
    arguments !! index = Some old →
    visitNonControlFlowArgumentsImpl analysis op successor firstIndex arguments
      !! index = Some new →
    latticeJoin analysis old new = new
}.

(** The commands the forward driver issues; a hook is handed distinct
    lattices. *)
Definition forwardAction (a : Action) : Prop :=
  match a with
  | Meet _ _ | SetToExitState _ | VisitBranchOperand _
  | BackwardVisitOperationImpl _ _ _ => False
  | VisitOperationImpl _ _ lattices
  | VisitNonControlFlowArgumentsImpl _ _ lattices _ => NoDup lattices
  | _ => True
  end.

Section ForwardSolver.

Context {L : Type} `{EqDecision L}.
Context (ir : IR) (dc : DeadCodeStates) (NDEBUG : bool).
Context (analysis : Analysis L) (self : AnalysisId).

(** [s'] holds the lattice values of [s]. *)
Definition sameValues (s s' : Solver L) : Prop :=
  ∀ value, valueOf analysis s' value = valueOf analysis s value.

(** One [visit] of the forward analysis on the solver state. *)
Definition run (point : ProgramPoint) (s : Solver L) : Solver L :=
  execAll ir analysis self (trace (Forward.visit ir dc NDEBUG point).2) s.

Definition runReports (point : ProgramPoint) (s : Solver L) : list ChangeResult :=
  reportsAll ir analysis self (trace (Forward.visit ir dc NDEBUG point).2) s.

(** [point] has converged in [s]: visiting it leaves every lattice value as
    it is. *)
Definition converged (s : Solver L) (point : ProgramPoint) : Prop :=
  sameValues s (run point s).

(** How the loop of the solver ends. *)
Inductive SolveResult :=
| Drained                              (* the queue is empty *)
| VisitFailed (point : ProgramPoint)   (* [visit] answered [failure] *)
| Stopped (message : string)           (* a visit did not return *)
| OtherAnalysis (item : WorkItem)      (* an item of another analysis *)
| OutOfFuel.

(** Modelled from the spec: the loop of [DataFlowSolver], defined in
    DataFlowFramework.cpp: the solver repeatedly dequeues a program point
    tagged for an analysis and calls that analysis's [visit] on it, until
    the queue is empty.  A visit that answers [failure] ends the loop, and
    so does one that does not return.  The solver holds the forward analysis
    [self] only: an item tagged for another analysis is not run, the loop
    stops in front of it.  The states of the dead-code analysis stay as they
    are. *)
Fixpoint solve (fuel : nat) (s : Solver L) : SolveResult * Solver L :=
  match worklist s with
  | [] => (Drained, s)
  | item :: rest =>
      match fuel with
      | 0 => (OutOfFuel, s)
      | S fuel =>
          if decide (item.2 = self) then
            let visited := Forward.visit ir dc NDEBUG item.1 in
            let s' := run item.1 {| elements := elements s; worklist := rest |} in
            match outcome visited.2 with
            | AssertionFailed message => (Stopped message, s')
            | Finished =>
                (* [if (failed(analysis->visit(point))) return failure();] *)
                if visited.1 then solve fuel s' else (VisitFailed item.1, s')
            end
          else (OtherAnalysis item, s)
      end
  end.

(** A work item the loop runs to its end: it is tagged for this analysis,
    its point is an operation or a block, and the visit returns. *)
Definition visitable (item : WorkItem) : Prop :=
  item.2 = self ∧
  (Forward.visit ir dc NDEBUG item.1).1 = success ∧
  outcome (Forward.visit ir dc NDEBUG item.1).2 = Finished.

End ForwardSolver.

(** ** A concrete analysis: constant propagation over a flat lattice *)

Module ConstantPropagation.

Inductive ConstantValue :=
| Uninitialized
| Constant (n : nat)
| Unknown.

#[global] Instance ConstantValue_eq_dec : EqDecision ConstantValue.
Proof. solve_decision. Defined.

Definition join (a b : ConstantValue) : ConstantValue :=
  match a, b with
  | Uninitialized, x | x, Uninitialized => x
  | Constant n, Constant m => if decide (n = m) then Constant n else Unknown
  | _, _ => Unknown
  end.

Definition meet (a b : ConstantValue) : ConstantValue :=
  match a, b with
  | Unknown, x | x, Unknown => x
  | Constant n, Constant m => if decide (n = m) then Constant n else Uninitialized
  | _, _ => Uninitialized
  end.

(** Every hook answers the pessimistic value. *)
Definition analysis : Analysis ConstantValue := {|
  uninitialized := Uninitialized;
  latticeJoin := join;
  latticeMeet := meet;
  entryState := λ _, Unknown;
  exitState := λ _, Unknown;
  visitOperationImpl := λ _ _ results, (λ _, Unknown) <$> results;
  visitNonControlFlowArgumentsImpl := λ _ _ _ args, (λ _, Unknown) <$> args;
  visitBranchOperand := λ _ _, Unknown;
  backwardVisitOperationImpl := λ _ operands _, (λ _, Unknown) <$> operands
|}.

Definition emptySolver : Solver ConstantValue :=
  {| elements := ∅; worklist := [] |}.

(** A solver state holding the given values, with no bookkeeping. *)
Definition solverWith (values : list (Value * ConstantValue))
  : Solver ConstantValue :=
  {| elements :=
       list_to_map
         ((λ it : Value * ConstantValue,
             (it.1, {| latticeValue := it.2; dependents := [];
                       useDefSubscribers := [] |})) <$> values);
     worklist := [] |}.

End ConstantPropagation.

(** ** A second analysis: a counter over a chain of three heights *)

Module Climb.

Inductive Height := Low | Middle | High.

#[global] Instance Height_eq_dec : EqDecision Height.
Proof. solve_decision. Defined.

(** The greater of two heights. *)
Definition join (a b : Height) : Height :=
  match a, b with
  | High, _ | _, High => High
  | Middle, _ | _, Middle => Middle
  | Low, Low => Low
  end.

(** The lesser of two heights. *)
Definition meet (a b : Height) : Height :=
  match a, b with
  | Low, _ | _, Low => Low
  | Middle, _ | _, Middle => Middle
  | High, High => High
  end.

Definition up (a : Height) : Height :=
  match a with
  | Low => Middle
  | _ => High
  end.

(** The transfer function of an operation raises each of its results by one
    step; the other hooks leave the lattices as they are. *)
Definition analysis : Analysis Height := {|
  uninitialized := Low;
  latticeJoin := join;
  latticeMeet := meet;
  entryState := λ _, High;
  exitState := λ _, Low;
  visitOperationImpl := λ _ _ results, up <$> results;
  visitNonControlFlowArgumentsImpl := λ _ _ _ args, args;
  visitBranchOperand := λ _ value, value;
  backwardVisitOperationImpl := λ _ operands _, operands
|}.

End Climb.

(** ** Example IR *)

Module Examples.

Definition noRange : OperandRange := {| beginOperandIndex := 0; rangeSize := 0 |}.

Definition oneOperand (index : nat) : OperandRange :=
  {| beginOperandIndex := index; rangeSize := 1 |}.

(** A module (op 0) with three functions:
<<
    func @main(%a, %c, %b) {            // op 15; region 0, blocks 0 and 2-6
    ^bb0(%a, %c, %b):
      %r1 = call @f(%a)                 // op 1
      %r2 = call @ext(%a)               // op 2
      %r4 = if ... { ... }              // op 4, a region-branch operation
      "other"()                         // op 5
      %r12 = add %a, %a                 // op 12
      switch %c, ^bb2(%a), ^bb3(%b), ^bb5
                                        // op 7, operands (%a, %c, %b); the
                                        // argument of ^bb5 is produced by
                                        // the switch itself
    ^bb2(%x):
      invoke @ext(%a) to ^bb6(%b)       // op 3, a call and a branch at once,
                                        // operands (%a, %b)
    ^bb3(%y):
      br ^bb4(%a)                       // op 8; no argument of ^bb4 is found
    ^bb4:
      "end"()                           // op 13
    ^bb5(%z):
      "end"()                           // op 14
    ^bb6(%w):
      "jump"()[^bb5]                    // op 9, a terminator that is no branch
    }
    func @f(%p) { return %p }           // op 10; region 1, block 1; op 6
    func @ext                           // op 11, no body
>> *)
Definition module : IR := {|
  getNumResults := λ op, match op with 1 | 2 | 4 | 12 => 1 | _ => 0 end;
  getOperands := λ op,
    match op with
    | 1 | 2 | 8 => [BlockArgument 0 0]
    | 3 => [BlockArgument 0 0; BlockArgument 0 2]
    | 12 => [BlockArgument 0 0; BlockArgument 0 0]
    | 6 => [BlockArgument 1 0]
    | 7 => [BlockArgument 0 0; BlockArgument 0 1; BlockArgument 0 2]
    | _ => []
    end;
  getBlock := λ op,
    match op with
    | 0 => None
    | 6 => Some 1
    | 3 => Some 2
    | 8 => Some 3
    | 13 => Some 4
    | 14 => Some 5
    | 9 => Some 6
    | 10 | 11 | 15 => Some 7
    | _ => Some 0
    end;
  getParentOp := λ op,
    match op with
    | 0 => None
    | 6 => Some 10
    | 10 | 11 | 15 => Some 0
    | _ => Some 15
    end;
  getSuccessors := λ op,
    match op with 3 => [6] | 7 => [2; 3; 5] | 8 => [4] | 9 => [5] | _ => [] end;
  hasReturnLikeTrait := λ op, bool_decide (op = 6);
  isRegionBranchOp := λ op, bool_decide (op = 4);
  isCallOp := λ op, bool_decide (op ∈ [1; 2; 3]);
  isBranchOp := λ op, bool_decide (op ∈ [3; 7; 8]);
  isRegionBranchTerminatorOp := λ _, false;
  isCallableOp := λ op, bool_decide (op ∈ [10; 11; 15]);
  getEntrySuccessorOperands := λ _ _, noRange;
  getEntrySuccessorRegions := λ _, [];
  getTerminatorSuccessorOperands := λ _ _, noRange;
  getTerminatorSuccessorRegions := λ _, [];
  getArgOperands := λ op, match op with 1 | 2 | 3 => [BlockArgument 0 0] | _ => [] end;
  resolveCallable := λ op,
    match op with 1 => Some 10 | 2 | 3 => Some 11 | _ => None end;
  getCallableRegion := λ op, match op with 15 => Some 0 | 10 => Some 1 | _ => None end;
  getSuccessorOperands := λ op index,
    {| producedOperandCount := match op, index with 7, 2 => 1 | _, _ => 0 end;
       forwardedOperands :=
         match op, index with
         | 7, 0 | 8, 0 => oneOperand 0
         | 3, 0 => oneOperand 1
         | 7, 1 => oneOperand 2
         | _, _ => noRange
         end |};
  getBranchSuccessorArgument := λ operands index block,
    if bool_decide (block = 4) then None
    else Some (BlockArgument block
                 (producedOperandCount operands + index
                  - beginOperandIndex (forwardedOperands operands)));
  getUsers := λ value,
    match value with
    | BlockArgument 0 0 => [1; 2; 3; 7; 8; 12; 12]
    | BlockArgument 0 1 => [7]
    | BlockArgument 0 2 => [3; 7]
    | BlockArgument 1 0 => [6]
    | _ => []
    end;
  getNumArguments := λ block,
    match block with 0 => 3 | 1 | 2 | 3 | 5 | 6 => 1 | _ => 0 end;
  isEntryBlock := λ block, bool_decide (block ∈ [0; 1; 7]);
  blockParentOp := λ block, match block with 1 => 10 | 7 => 0 | _ => 15 end;
  blockParent := λ block, match block with 1 => 1 | 7 => 2 | _ => 0 end;
  getPredecessors := λ block,
    match block with
    | 2 => [(0, 0)]
    | 3 => [(0, 1)]
    | 4 => [(3, 0)]
    | 5 => [(0, 2); (6, 0)]
    | 6 => [(2, 0)]
    | _ => []
    end;
  getTerminator := λ block,
    match block with
    | 0 => 7 | 1 => 6 | 2 => 3 | 3 => 8 | 4 => 13 | 5 => 14 | 6 => 9 | _ => 11
    end;
  getRegionNumber := λ _, 0;
  regionFront := λ region,
    match region with 0 => Some 0 | 1 => Some 1 | 2 => Some 7 | _ => None end
|}.

(** Every block and edge is live (or dead); the predecessors of every point
    are all known (or not), and [known] lists them. *)
Definition states (live allKnown : bool) (known : ProgramPoint → list Op)
  : DeadCodeStates := {|
  isLive := λ _, live;
  allPredecessorsKnown := λ _, allKnown;
  getKnownPredecessors := known;
  getSuccessorInputs := λ _ _, []
|}.

Definition nobody : ProgramPoint → list Op := λ _, [].

(** Nothing is live and no predecessor is known. *)
Definition allDead : DeadCodeStates := states false false nobody.

(** Everything is live, the predecessors are not all known. *)
Definition liveUnknown : DeadCodeStates := states true false nobody.

(** Everything is live; @f (op 10) is called from op 1 only. *)
Definition callGraph : DeadCodeStates :=
  states true true
    (λ point, match point with PPOperation 10 => [1] | PPOperation 1 => [6] | _ => [] end).

(** %a is known to be 3. *)
Definition argumentIsThree : Solver ConstantPropagation.ConstantValue :=
  ConstantPropagation.solverWith [(BlockArgument 0 0, ConstantPropagation.Constant 3)].

(** Nothing is known of %b; the argument of block 6 is known to be 5. *)
Definition successorArgumentIsFive : Solver ConstantPropagation.ConstantValue :=
  ConstantPropagation.solverWith
    [(BlockArgument 0 2, ConstantPropagation.Unknown);
     (BlockArgument 6 0, ConstantPropagation.Constant 5)].

(** The lattice of %a holds 3; the analyses 0 and 1 subscribed to it and
    block 2 depends on it. *)
Definition subscribed : Solver ConstantPropagation.ConstantValue :=
  {| elements :=
       {[ BlockArgument 0 0 :=
            {| latticeValue := ConstantPropagation.Constant 3;
               dependents := [(PPBlock 2, 0)];
               useDefSubscribers := [0; 1] |} ]};
     worklist := [] |}.

(** Everything is live; the region-branch operation (op 4) is entered from
    itself and left through op 5, which is no region-branch terminator. *)
Definition regionStates : DeadCodeStates :=
  states true true (λ point, match point with PPOperation 4 => [4; 5] | _ => [] end).

(** Everything is live; op 5, which is no region-branch terminator, is a
    known predecessor of the region-branch operation (op 4), and the
    predecessors are not all known. *)
Definition regionUnknown : DeadCodeStates :=
  states true false (λ point, match point with PPOperation 4 => [5] | _ => [] end).

(** Nothing is known of the result of the call (op 1). *)
Definition resultIsUnknown : Solver ConstantPropagation.ConstantValue :=
  ConstantPropagation.solverWith [(OpResult 1 0, ConstantPropagation.Unknown)].

(** The result of the call (op 1) is known to be 7. *)
Definition resultIsSeven : Solver ConstantPropagation.ConstantValue :=
  ConstantPropagation.solverWith [(OpResult 1 0, ConstantPropagation.Constant 7)].

(** The module with one more branch, which forwards %a to two successors:
    [cond_br ^bb4(%a), ^bb2(%a)] (op 16, operands (%a, %a)); no argument of
    ^bb4 is found for the first, the second arrives in %x. *)
Definition aliased : IR := {|
  getNumResults := getNumResults module;
  getOperands := λ op,
    match op with
    | 16 => [BlockArgument 0 0; BlockArgument 0 0]
    | _ => getOperands module op
    end;
  getBlock := getBlock module;
  getParentOp := getParentOp module;
  getSuccessors := λ op, match op with 16 => [4; 2] | _ => getSuccessors module op end;
  hasReturnLikeTrait := hasReturnLikeTrait module;
  isRegionBranchOp := isRegionBranchOp module;
  isCallOp := isCallOp module;
  isBranchOp := λ op, bool_decide (op = 16) || isBranchOp module op;
  isRegionBranchTerminatorOp := isRegionBranchTerminatorOp module;
  isCallableOp := isCallableOp module;
  getEntrySuccessorOperands := getEntrySuccessorOperands module;
  getEntrySuccessorRegions := getEntrySuccessorRegions module;
  getTerminatorSuccessorOperands := getTerminatorSuccessorOperands module;
  getTerminatorSuccessorRegions := getTerminatorSuccessorRegions module;
  getArgOperands := getArgOperands module;
  resolveCallable := resolveCallable module;
  getCallableRegion := getCallableRegion module;
  getSuccessorOperands := λ op index,
    match op, index with
    | 16, 0 => {| producedOperandCount := 0; forwardedOperands := oneOperand 0 |}
    | 16, 1 => {| producedOperandCount := 0; forwardedOperands := oneOperand 1 |}
    | _, _ => getSuccessorOperands module op index
    end;
  getBranchSuccessorArgument := getBranchSuccessorArgument module;
  getUsers := λ value,
    match value with
    | BlockArgument 0 0 => getUsers module value ++ [16; 16]
    | _ => getUsers module value
    end;
  getNumArguments := getNumArguments module;
  isEntryBlock := isEntryBlock module;
  blockParentOp := blockParentOp module;
  blockParent := blockParent module;
  getPredecessors := getPredecessors module;
  getTerminator := getTerminator module;
  getRegionNumber := getRegionNumber module;
  regionFront := regionFront module
|}.

(** Everything is live and the predecessors of the region-branch operation
    (op 4) are all known: itself, entered with two block arguments as
    successor inputs, and op 5, which is no region-branch terminator. *)
Definition regionMismatch : DeadCodeStates := {|
  isLive := λ _, true;
  allPredecessorsKnown := λ _, true;
  getKnownPredecessors := λ point,
    match point with PPOperation 4 => [4; 5] | _ => [] end;
  getSuccessorInputs := λ point op,
    match point, op with
    | PPOperation 4, 4 => [BlockArgument 0 0; BlockArgument 0 1]
    | _, _ => []
    end
|}.

(** The solver of the counter, run from an empty state on the one item
    (op 12, analysis 0). *)
Definition afterOneVisit : SolveResult * Solver Climb.Height :=
  solve module liveUnknown false Climb.analysis 0 1
    {| elements := ∅; worklist := [(PPOperation 12, 0)] |}.

End Examples.

(** ** Initialization *)

(** The operations nested under an operation, as [initializeRecursively]
    walks them: [op->getRegions()], the blocks of each region and the
    operations of each block, in order. *)
#[warnings="-register-all"] Inductive Nesting :=
| Nested (op : Op) (regions : list (list (Block * list Nesting))).

(** The blocks under an operation, at any depth. *)
Fixpoint nestedBlocks (t : Nesting) : list Block :=
  match t with
  | Nested _ regions =>
      region ← regions;
      block ← region;
      block.1 :: (block.2 ≫= nestedBlocks)
  end.

(** The arguments of the entry blocks of the regions of [top]. *)
Definition topEntryArguments (ir : IR) (top : Nesting) : list Value :=
  match top with
  | Nested _ regions =>
      region ← regions;
      match region with
      | [] => []
      | front :: _ => getArguments ir front.1
      end
  end.

(** [first; return later] for a [first] that answers nothing. *)
Definition andLater (first : Run) (later : LogicalResult * Run)
  : LogicalResult * Run :=
  (later.1, first >>> later.2).

(** [if (failed(first)) return failure(); return later] *)
Definition orReturnFailure (first later : LogicalResult * Run)
  : LogicalResult * Run :=
  if first.1 then (later.1, first.2 >>> later.2) else (failure, first.2).

(** What the caller receives: the result of a run that returns, nothing
    from one that stopped on the way. *)
Definition answer (r : LogicalResult * Run) : option LogicalResult :=
  match outcome r.2 with
  | Finished => Some r.1
  | AssertionFailed _ => None
  end.

(** [getOrCreate<Executable>(&block)->blockContentSubscribe(this)] *)
Definition subscribeToBlock (block : Block) : Run :=
  emit [GetExecutable (PPBlock block); BlockContentSubscribe (PPBlock block)].

Module ForwardInit.
Section Driver.

Context (ir : IR) (dc : DeadCodeStates) (NDEBUG : bool).

(** Lines 54-70.  Each loop is given what follows it, which a
    [return failure()] skips. *)
Fixpoint initializeRecursively (t : Nesting) : LogicalResult * Run :=
  match t with
  | Nested op regions =>
      andLater (Forward.visitOperation ir dc NDEBUG op)
        (foldr
           (λ (region : list (Block * list Nesting)) afterRegion,
              foldr
                (λ (block : Block * list Nesting) afterBlock,
                   andLater
                     (subscribeToBlock block.1 >>>
                      Forward.visitBlock ir dc NDEBUG block.1)
                     (foldr
                        (λ nested afterOp,
                           orReturnFailure (initializeRecursively nested) afterOp)
                        afterBlock block.2))
                afterRegion region)
           (success, finished) regions)
  end.

(** Lines 40-52. *)
Definition initialize (top : Nesting) : LogicalResult * Run :=
  match top with
  | Nested _ regions =>
      andLater
        (forEach
           (λ region : list (Block * list Nesting),
              match region with
              | [] => finished
              | front :: _ =>
                  (* Mark the entry block arguments as having reached their
                     pessimistic fixpoints. *)
                  emit (argument ← getArguments ir front.1;
                        [GetLatticeElement argument; SetToEntryState argument])
              end)
           regions)
        (initializeRecursively top)
  end.

End Driver.
End ForwardInit.

Module BackwardInit.
Section Driver.

Context (ir : IR) (dc : DeadCodeStates) (NDEBUG : bool).

(** Lines 304-319.  The operations of a block are taken from [rbegin] to
    [rend]: the left fold wraps the operations met later around those met
    earlier, so the last operation of the block comes first. *)
Fixpoint initializeRecursively (t : Nesting) : LogicalResult * Run :=
  match t with
  | Nested op regions =>
      andLater (Backward.visitOperation ir dc NDEBUG op)
        (foldr
           (λ (region : list (Block * list Nesting)) afterRegion,
              foldr
                (λ (block : Block * list Nesting) afterBlock,
                   andLater (subscribeToBlock block.1)
                     (foldl
                        (λ afterOp nested,
                           orReturnFailure (initializeRecursively nested) afterOp)
                        afterBlock block.2))
                afterRegion region)
           (success, finished) regions)
  end.

(** Lines 299-302. *)
Definition initialize (top : Nesting) : LogicalResult * Run :=
  initializeRecursively top.

End Driver.
End BackwardInit.

(** ** What a visit owns, writes and pairs *)

(** The lattices a visit of [point] owns: those of the results of an
    operation, of the arguments of a block. *)
Definition targets (ir : IR) (point : ProgramPoint) : list Value :=
  match point with
  | PPOperation op => getResults ir op
  | PPBlock block => getArguments ir block
  | _ => []
  end.

(** The lattices a command may write: the left-hand side of a [join] or
    [meet], the lattice set to the entry or exit state, the lattices a hook
    is handed to write. *)
Definition writes (ir : IR) (a : Action) : list Value :=
  match a with
  | Join lhs _ | Meet lhs _ => [lhs]
  | SetToEntryState lattice | SetToExitState lattice => [lattice]
  | VisitOperationImpl _ _ resultLattices => resultLattices
  | VisitNonControlFlowArgumentsImpl _ _ argLattices _ => argLattices
  | VisitBranchOperand operand =>
      option_list (getOperands ir (operandOwner operand) !! operandNumber operand)
  | BackwardVisitOperationImpl _ operandLattices _ => operandLattices
  | _ => []
  end.

(** Every [read lhs rhs] of a sequence of commands (a [Join] or a [Meet])
    comes after the command that makes [point] a dependent of [rhs]. *)
Definition registeredBefore (read : Value → Value → Action)
    (point : ProgramPoint) (t : list Action) : Prop :=
  ∀ i lhs rhs, t !! i = Some (read lhs rhs) →
    ∃ j, j < i ∧ t !! j = Some (AddDependency rhs point).

Section RegionSuccessorPairs.

Context (ir : IR).

(** Lines 488-499: the operand slots of [branch] zipped with the inputs of
    its entry successors, successor by successor. *)
Definition entrySuccessorPairs (branch : Op)
  : list ((OpOperand * Value) * Value) :=
  successor ← getEntrySuccessorRegions ir branch;
  zip (rangeOpOperands ir branch
         match successorRegion successor with
         | Some region =>
             getEntrySuccessorOperands ir branch (Some (getRegionNumber ir region))
         | None => getEntrySuccessorOperands ir branch None
         end)
      (successorInputs successor).

(** Lines 524-535: the same for the successors of a terminator. *)
Definition terminatorSuccessorPairs (terminator : Op)
  : list ((OpOperand * Value) * Value) :=
  successor ← getTerminatorSuccessorRegions ir terminator;
  zip (rangeOpOperands ir terminator
         (getTerminatorSuccessorOperands ir terminator
            (getRegionNumber ir <$> successorRegion successor)))
      (successorInputs successor).

(** The operand numbers a list of pairs clears from [unaccounted]. *)
Definition pairedNumbers (pairs : list ((OpOperand * Value) * Value)) : list nat :=
  (λ it : (OpOperand * Value) * Value, operandNumber it.1.1) <$> pairs.

(** The meets lines 495-496 and 531-532 issue for a list of pairs; the
    dependencies are registered for [point]. *)
Definition pairMeets (point : Op) (pairs : list ((OpOperand * Value) * Value))
  : list Action :=
  it ← pairs; Backward.meetOperand (PPOperation point) it.1.2 it.2.

(** The operands of [owner] still unaccounted once the pairs are cleared. *)
Definition unpaired (owner : Op) (pairs : list ((OpOperand * Value) * Value))
  : BitVector :=
  foldl (λ bits number, reset number bits)
    (bitVector (length (getOperands ir owner)) true) (pairedNumbers pairs).

(** Lines 417-419: [op] is a call whose callee resolves to a callable
    operation. *)
Definition resolvesToCallable (op : Op) : bool :=
  isCallOp ir op &&
  match resolveCallable ir op with
  | Some callableOp => isCallableOp ir callableOp
  | None => false
  end.

(** [dyn_cast<...>(op->getParentOp())] succeeds. *)
Definition parentIs (test : Op → bool) (op : Op) : bool :=
  match getParentOp ir op with
  | Some parent => test parent
  | None => false
  end.

(** One of the control-flow cases of the backward [visitOperation], lines
    376-470, takes the operation. *)
Definition controlFlowCase (op : Op) : bool :=
  isRegionBranchOp ir op || isBranchOp ir op || resolvesToCallable op
  || (isRegionBranchTerminatorOp ir op && parentIs (isRegionBranchOp ir) op)
  || (hasReturnLikeTrait ir op && parentIs (isCallableOp ir) op).

End RegionSuccessorPairs.

(** ** A loop and a function around it *)

Module LoopExample.

(** A function (op 0) whose body holds a loop:
<<
    func @g(%n, %x) {                   // op 0; region 0, block 0
    ^bb0(%n, %x):
      %r = for %n iter(%x) {            // op 1, a region-branch operation,
                                        // operands (%n, %x); region 1
      ^bb1(%i, %acc):                   // block 1; only %acc is a successor
                                        // input
        yield %acc                      // op 2, a region-branch terminator
      }
      return %r                         // op 3
    }
>> *)
Definition loop : IR := {|
  getNumResults := λ op, match op with 1 => 1 | _ => 0 end;
  getOperands := λ op,
    match op with
    | 1 => [BlockArgument 0 0; BlockArgument 0 1]
    | 2 => [BlockArgument 1 1]
    | 3 => [OpResult 1 0]
    | _ => []
    end;
  getBlock := λ op,
    match op with 0 => None | 2 => Some 1 | _ => Some 0 end;
  getParentOp := λ op,
    match op with 0 => None | 2 => Some 1 | _ => Some 0 end;
  getSuccessors := λ _, [];
  hasReturnLikeTrait := λ op, bool_decide (op ∈ [2; 3]);
  isRegionBranchOp := λ op, bool_decide (op = 1);
  isCallOp := λ _, false;
  isBranchOp := λ _, false;
  isRegionBranchTerminatorOp := λ op, bool_decide (op = 2);
  isCallableOp := λ op, bool_decide (op = 0);
  getEntrySuccessorOperands := λ _ _, {| beginOperandIndex := 1; rangeSize := 1 |};
  getEntrySuccessorRegions := λ _,
    [{| successorRegion := Some 1; successorInputs := [BlockArgument 1 1] |};
     {| successorRegion := None; successorInputs := [OpResult 1 0] |}];
  getTerminatorSuccessorOperands := λ _ _,
    {| beginOperandIndex := 0; rangeSize := 1 |};
  getTerminatorSuccessorRegions := λ _,
    [{| successorRegion := Some 1; successorInputs := [BlockArgument 1 1] |};
     {| successorRegion := None; successorInputs := [OpResult 1 0] |}];
  getArgOperands := λ _, [];
  resolveCallable := λ _, None;
  getCallableRegion := λ op, match op with 0 => Some 0 | _ => None end;
  getSuccessorOperands := λ _ _,
    {| producedOperandCount := 0;
       forwardedOperands := {| beginOperandIndex := 0; rangeSize := 0 |} |};
  getBranchSuccessorArgument := λ _ _ _, None;
  getUsers := λ value,
    match value with
    | BlockArgument 0 _ => [1]
    | BlockArgument 1 1 => [2]
    | OpResult 1 0 => [3]
    | _ => []
    end;
  getNumArguments := λ block, match block with 0 | 1 => 2 | _ => 0 end;
  isEntryBlock := λ _, true;
  blockParentOp := λ block, match block with 1 => 1 | _ => 0 end;
  blockParent := λ block, match block with 1 => 1 | _ => 0 end;
  getPredecessors := λ _, [];
  getTerminator := λ block, match block with 1 => 2 | _ => 3 end;
  getRegionNumber := λ _, 0;
  regionFront := λ region,
    match region with 0 => Some 0 | 1 => Some 1 | _ => None end
|}.

(** The function with everything under it. *)
Definition nesting : Nesting :=
  Nested 0 [[(0, [Nested 1 [[(1, [Nested 2 []])]]; Nested 3 []])]].

(** Everything is live; the loop body is entered from the loop and from its
    [yield], and so is the loop left; @g has no known caller. *)
Definition states : DeadCodeStates := {|
  isLive := λ _, true;
  allPredecessorsKnown := λ point,
    match point with PPOperation 0 => false | _ => true end;
  getKnownPredecessors := λ point,
    match point with
    | PPBlock 1 | PPOperation 1 => [1; 2]
    | _ => []
    end;
  getSuccessorInputs := λ point _,
    match point with
    | PPBlock 1 => [BlockArgument 1 1]
    | PPOperation 1 => [OpResult 1 0]
    | _ => []
    end
|}.

(** As [states], but the successor input of the loop body is numbered past
    the arguments of its region. *)
Definition pastTheEnd : DeadCodeStates := {|
  isLive := isLive states;
  allPredecessorsKnown := allPredecessorsKnown states;
  getKnownPredecessors := getKnownPredecessors states;
  getSuccessorInputs := λ point op,
    match point with
    | PPBlock 1 => [BlockArgument 1 5]
    | _ => getSuccessorInputs states point op
    end
|}.

(** Every block is live, no edge between blocks is. *)
Definition deadEdges : DeadCodeStates := {|
  isLive := λ point, match point with PPCFGEdge _ _ => false | _ => true end;
  allPredecessorsKnown := λ _, true;
  getKnownPredecessors := λ _, [];
  getSuccessorInputs := λ _ _, []
|}.

(** %x is known to be 4. *)
Definition xIsFour : Solver ConstantPropagation.ConstantValue :=
  ConstantPropagation.solverWith [(BlockArgument 0 1, ConstantPropagation.Constant 4)].

End LoopExample.

(** * Properties *)

(** ** Runs *)

Lemma trace_andThen_finished (r1 r2 : Run) :
  outcome r1 = Finished → trace (r1 >>> r2) = trace r1 ++ trace r2.
Proof. destruct r1 as [t o]; unfold andThen, trace, outcome; simpl. by intros ->. Qed.

Lemma outcome_andThen_finished (r1 r2 : Run) :
  outcome r1 = Finished → outcome (r1 >>> r2) = outcome r2.
Proof. destruct r1 as [t o]; unfold andThen, trace, outcome; simpl. by intros ->. Qed.

Lemma emit_andThen (actions : list Action) (r : Run) :
  emit actions >>> r = (actions ++ r.1, r.2).
Proof. reflexivity. Qed.

Lemma andThen_finished_l (r : Run) : finished >>> r = r.
Proof. by destruct r. Qed.

(** ** The solver state *)

Section SolverFacts.

Context {L : Type} `{EqDecision L}.
Context (ir : IR) (analysis : Analysis L) (self : AnalysisId).

#[local] Abbreviation valueOf := (valueOf analysis).
#[local] Abbreviation elementOf := (elementOf analysis).
#[local] Abbreviation exec := (exec ir analysis self).
#[local] Abbreviation execAll := (execAll ir analysis self).
#[local] Abbreviation step := (step ir analysis self).
#[local] Abbreviation update := (update ir analysis).
#[local] Abbreviation updateAll := (updateAll ir analysis).
#[local] Abbreviation onUpdate := (onUpdate ir).

Lemma foldl_enqueue {A} (f : A → WorkItem) (items : list A) (s : Solver L) :
  foldl (λ s x, enqueue (f x) s) s items
  = {| elements := elements s; worklist := worklist s ++ (f <$> items) |}.
Proof.
  revert s. induction items as [|x items IH]; intros s; simpl.
  - rewrite app_nil_r. by destruct s.
  - rewrite IH. simpl. by rewrite <- app_assoc.
Qed.

Lemma AnalysisState_onUpdate_eq (e : LatticeElement L) (s : Solver L) :
  AnalysisState_onUpdate e s
  = {| elements := elements s; worklist := worklist s ++ dependents e |}.
Proof.
  unfold AnalysisState_onUpdate.
  rewrite (foldl_enqueue id). by rewrite list_fmap_id.
Qed.

(** What [onUpdate] leaves on the queue, in order. *)
Lemma onUpdate_eq (value : Value) (e : LatticeElement L) (s : Solver L) :
  onUpdate value e s
  = {| elements := elements s;
       worklist :=
         worklist s ++ dependents e
         ++ userItems ir value (useDefSubscribers e) |}.
Proof.
  unfold onUpdate. rewrite AnalysisState_onUpdate_eq, app_assoc.
  generalize (worklist s ++ dependents e) as queue.
  generalize (elements s) as m.
  unfold userItems.
  induction (getUsers ir value) as [|user users IH]; intros m queue; simpl.
  - by rewrite !app_nil_r.
  - rewrite (foldl_enqueue (λ subscriber, (PPOperation user, subscriber))).
    simpl. rewrite IH. by rewrite <- !app_assoc.
Qed.

Lemma elements_onUpdate (value : Value) (e : LatticeElement L) (s : Solver L) :
  elements (onUpdate value e s) = elements s.
Proof. by rewrite onUpdate_eq. Qed.

Lemma valueOf_setElement (v v' : Value) (e : LatticeElement L) (s : Solver L) :
  valueOf (setElement v e s) v'
  = if decide (v = v') then latticeValue e else valueOf s v'.
Proof.
  unfold valueOf, elementOf, setElement; simpl.
  rewrite lookup_insert. by case_decide.
Qed.

Lemma valueOf_elements (s s' : Solver L) (v : Value) :
  elements s = elements s' → valueOf s v = valueOf s' v.
Proof. unfold valueOf, elementOf. by intros ->. Qed.

Lemma valueOf_update (v v' : Value) (new : L) (st : Solver L * list ChangeResult) :
  valueOf (update v new st).1 v'
  = if decide (v = v') then new else valueOf st.1 v'.
Proof.
  unfold update, propagateIfChanged, assign; simpl.
  destruct (decide (new = _)) as [Heq|Hne]; simpl.
  - case_decide; [subst v'; by rewrite Heq | done].
  - rewrite (valueOf_elements _ _ _ (elements_onUpdate _ _ _)).
    by rewrite valueOf_setElement.
Qed.

(** The commands that only fetch, create or subscribe leave every lattice
    value as it is. *)
Lemma valueOf_exec_bookkeeping (a : Action) (s : Solver L) (v : Value) :
  bookkeeping a = true → valueOf (exec a s) v = valueOf s v.
Proof.
  destruct a; try done; intros _; unfold exec; simpl; try done;
    rewrite valueOf_setElement; case_decide; by subst.
Qed.

Lemma worklist_exec_bookkeeping (a : Action) (s : Solver L) :
  bookkeeping a = true → worklist (exec a s) = worklist s.
Proof. by destruct a. Qed.

Lemma execAll_app (t1 t2 : list Action) (s : Solver L) :
  execAll (t1 ++ t2) s = execAll t2 (execAll t1 s).
Proof. apply foldl_app. Qed.

Lemma execAll_cons (a : Action) (t : list Action) (s : Solver L) :
  execAll (a :: t) s = execAll t (exec a s).
Proof. reflexivity. Qed.

Lemma valueOf_execAll_bookkeeping (t : list Action) (s : Solver L) (v : Value) :
  forallb bookkeeping t = true → valueOf (execAll t s) v = valueOf s v.
Proof.
  revert s. induction t as [|a t IH]; intros s Ht; [done|].
  simpl in Ht. apply andb_true_iff in Ht as [Ha Ht]. simpl.
  rewrite IH by done. by apply valueOf_exec_bookkeeping.
Qed.

Lemma worklist_execAll_bookkeeping (t : list Action) (s : Solver L) :
  forallb bookkeeping t = true → worklist (execAll t s) = worklist s.
Proof.
  revert s. induction t as [|a t IH]; intros s Ht; [done|].
  simpl in Ht. apply andb_true_iff in Ht as [Ha Ht]. simpl.
  rewrite IH by done. by apply worklist_exec_bookkeeping.
Qed.

(** After [setAllToEntryStates] (or [setAllToExitStates]) the lattices
    listed hold the entry (exit) state, the others what they held. *)
Lemma valueOf_setAllToEntryStates (lattices : list Value) (s : Solver L) (v : Value) :
  valueOf (execAll (SetToEntryState <$> lattices) s) v
  = if decide (v ∈ lattices) then entryState analysis v else valueOf s v.
Proof.
  revert s. induction lattices as [|l lattices IH]; intros s.
  - rewrite decide_False by set_solver. done.
  - change (execAll (SetToEntryState <$> l :: lattices) s)
      with (execAll (SetToEntryState <$> lattices) (exec (SetToEntryState l) s)).
    rewrite IH. unfold exec, step. rewrite valueOf_update. cbn [fst].
    destruct (decide (l = v)) as [->|Hne].
    + rewrite (decide_True (P := v ∈ v :: lattices)) by (by left).
      by case_decide.
    + destruct (decide (v ∈ lattices)) as [Hin|Hout].
      * by rewrite decide_True by (by right).
      * rewrite decide_False; [done|].
        intros [->|?]%elem_of_cons; done.
Qed.

Lemma valueOf_setAllToExitStates (lattices : list Value) (s : Solver L) (v : Value) :
  valueOf (execAll (SetToExitState <$> lattices) s) v
  = if decide (v ∈ lattices) then exitState analysis v else valueOf s v.
Proof.
  revert s. induction lattices as [|l lattices IH]; intros s.
  - rewrite decide_False by set_solver. done.
  - change (execAll (SetToExitState <$> l :: lattices) s)
      with (execAll (SetToExitState <$> lattices) (exec (SetToExitState l) s)).
    rewrite IH. unfold exec, step. rewrite valueOf_update. cbn [fst].
    destruct (decide (l = v)) as [->|Hne].
    + rewrite (decide_True (P := v ∈ v :: lattices)) by (by left).
      by case_decide.
    + destruct (decide (v ∈ lattices)) as [Hin|Hout].
      * by rewrite decide_True by (by right).
      * rewrite decide_False; [done|].
        intros [->|?]%elem_of_cons; done.
Qed.

End SolverFacts.

(** ** Dead code *)

Section DeadCode.

Context {L : Type} `{EqDecision L}.
Context (ir : IR) (dc : DeadCodeStates) (NDEBUG : bool).
Context (analysis : Analysis L) (self : AnalysisId).

#[local] Abbreviation execAll := (execAll ir analysis self).

(** C6: visiting an operation whose block is not live (forward and backward
    [visitOperation]) or a block that is not live (forward [visitBlock])
    fetches the [Executable] state at most and returns: the solver state,
    every lattice element and the queue, is what it was. *)
Theorem not_live_never_mutates (s : Solver L) :
  (∀ op, isLive dc (blockPoint (getBlock ir op)) = false →
     Forall (λ a, a = GetExecutable (blockPoint (getBlock ir op)))
       (trace (Forward.visitOperation ir dc NDEBUG op)) ∧
     execAll (trace (Forward.visitOperation ir dc NDEBUG op)) s = s ∧
     trace (Backward.visitOperation ir dc NDEBUG op)
       = [GetExecutable (blockPoint (getBlock ir op))] ∧
     execAll (trace (Backward.visitOperation ir dc NDEBUG op)) s = s) ∧
  (∀ block, isLive dc (PPBlock block) = false →
     Forall (λ a, a = GetExecutable (PPBlock block))
       (trace (Forward.visitBlock ir dc NDEBUG block)) ∧
     execAll (trace (Forward.visitBlock ir dc NDEBUG block)) s = s).
Proof.
  split.
  - intros op Hdead.
    unfold Forward.visitOperation, Backward.visitOperation.
    rewrite Hdead. simpl. case_decide; simpl; repeat split; by repeat constructor.
  - intros block Hdead. unfold Forward.visitBlock.
    rewrite Hdead. simpl. case_decide; simpl; repeat split; by repeat constructor.
Qed.

End DeadCode.

Lemma not_live_never_mutates_witness :
  execAll Examples.module ConstantPropagation.analysis 0
    (trace (Forward.visitOperation Examples.module Examples.allDead false 1))
    Examples.resultIsSeven = Examples.resultIsSeven ∧
  execAll Examples.module ConstantPropagation.analysis 0
    (trace (Backward.visitOperation Examples.module Examples.allDead false 1))
    Examples.resultIsSeven = Examples.resultIsSeven ∧
  execAll Examples.module ConstantPropagation.analysis 0
    (trace (Forward.visitBlock Examples.module Examples.allDead false 1))
    Examples.resultIsSeven = Examples.resultIsSeven.
Proof.
  pose proof (not_live_never_mutates Examples.module Examples.allDead false
                ConstantPropagation.analysis 0 Examples.resultIsSeven)
    as [Hop Hblock].
  destruct (Hop 1) as (_ & Hf & _ & Hb); [reflexivity|].
  destruct (Hblock 1) as [_ Hv]; [reflexivity|].
  exact (conj Hf (conj Hb Hv)).
Defined.

(** ** The forward driver at a call *)

Section ForwardCall.

Context {L : Type} `{EqDecision L}.
Context (ir : IR) (dc : DeadCodeStates) (NDEBUG : bool).
Context (analysis : Analysis L) (self : AnalysisId).

#[local] Abbreviation execAll := (execAll ir analysis self).
#[local] Abbreviation valueOf := (valueOf analysis).
#[local] Abbreviation visitOperation := (Forward.visitOperation ir dc NDEBUG).

(** The run of [visitOperation] at a call in a live block whose return
    sites are not all known. *)
Lemma visitOperation_call_unknown (op : Op) :
  getNumResults ir op ≠ 0 →
  isLive dc (blockPoint (getBlock ir op)) = true →
  isRegionBranchOp ir op = false →
  isCallOp ir op = true →
  allPredecessorsKnown dc (PPOperation op) = false →
  visitOperation op
  = (GetExecutable (blockPoint (getBlock ir op))
       :: (GetLatticeElement <$> getResults ir op)
       ++ GetPredecessorStateFor (PPOperation op) (PPOperation op)
       :: (SetToEntryState <$> getResults ir op),
     Finished).
Proof.
  intros Hres Hlive Hrb Hcall Hunknown. unfold Forward.visitOperation.
  rewrite decide_False by done. rewrite Hlive, Hrb, Hcall, Hunknown. reflexivity.
Qed.

Lemma visitOperation_call_unknown_values (op : Op) (s : Solver L) (v : Value) :
  getNumResults ir op ≠ 0 →
  isLive dc (blockPoint (getBlock ir op)) = true →
  isRegionBranchOp ir op = false →
  isCallOp ir op = true →
  allPredecessorsKnown dc (PPOperation op) = false →
  valueOf (execAll (trace (visitOperation op)) s) v
  = if decide (v ∈ getResults ir op) then entryState analysis v else valueOf s v.
Proof.
  intros Hres Hlive Hrb Hcall Hunknown.
  rewrite visitOperation_call_unknown by done. unfold trace; cbn [fst].
  rewrite execAll_cons, execAll_app, execAll_cons.
  rewrite valueOf_setAllToEntryStates.
  case_decide; [done|].
  rewrite valueOf_exec_bookkeeping by done.
  rewrite valueOf_execAll_bookkeeping; [by rewrite valueOf_exec_bookkeeping|].
  apply forallb_forall. intros a Ha. apply list_elem_of_In in Ha.
  apply list_elem_of_fmap in Ha as (r & -> & _). done.
Qed.

(** C1, as amended: for a call in a live block that is not also a
    region-branch operation: if its predecessors are not all
    known, the visit sets every result lattice to the entry state and
    nothing else; and in a state the visit leaves as it is (a converged
    one) every result lattice holds the entry state. *)
Theorem call_with_unknown_predecessors (op : Op) (s : Solver L) :
  isLive dc (blockPoint (getBlock ir op)) = true →
  isRegionBranchOp ir op = false →
  isCallOp ir op = true →
  allPredecessorsKnown dc (PPOperation op) = false →
  outcome (visitOperation op) = Finished ∧
  (∀ result, result ∈ getResults ir op →
     SetToEntryState result ∈ trace (visitOperation op) ∧
     valueOf (execAll (trace (visitOperation op)) s) result
       = entryState analysis result) ∧
  (∀ v, v ∉ getResults ir op →
     valueOf (execAll (trace (visitOperation op)) s) v = valueOf s v) ∧
  ((∀ v, valueOf (execAll (trace (visitOperation op)) s) v = valueOf s v) →
   ∀ result, result ∈ getResults ir op →
     valueOf s result = entryState analysis result).
Proof.
  intros Hlive Hrb Hcall Hunknown.
  destruct (decide (getNumResults ir op = 0)) as [Hzero|Hres].
  { unfold Forward.visitOperation, getResults. rewrite decide_True by done.
    rewrite Hzero. cbn [seq fmap list_fmap trace outcome finished fst snd foldl].
    split; [done|]. split; [by intros ? ?%elem_of_nil|].
    split; [done|]. by intros _ ? ?%elem_of_nil. }
  pose proof (visitOperation_call_unknown op Hres Hlive Hrb Hcall Hunknown) as Hrun.
  pose proof (λ v, visitOperation_call_unknown_values op s v
                     Hres Hlive Hrb Hcall Hunknown) as Hval.
  split; [by rewrite Hrun|]. split; [|split].
  - intros result Hin. split.
    + rewrite Hrun. unfold trace; cbn [fst].
      apply list_elem_of_further, elem_of_app. right.
      apply list_elem_of_further, list_elem_of_fmap. eauto.
    + rewrite Hval. by rewrite decide_True.
  - intros v Hv. rewrite Hval. by rewrite decide_False.
  - intros Hstable result Hin. rewrite <- Hstable, Hval. by rewrite decide_True.
Qed.

End ForwardCall.

Lemma call_with_unknown_predecessors_witness :
  valueOf ConstantPropagation.analysis
    (execAll Examples.module ConstantPropagation.analysis 0
       (trace (Forward.visitOperation Examples.module Examples.liveUnknown false 1))
       Examples.resultIsSeven)
    (OpResult 1 0)
  = ConstantPropagation.Unknown.
Proof.
  destruct (call_with_unknown_predecessors Examples.module Examples.liveUnknown
              false ConstantPropagation.analysis 0 1 Examples.resultIsSeven)
    as (_ & Hresults & _); [done..|].
  destruct (Hresults (OpResult 1 0)) as [_ Hvalue]; [by left|].
  exact Hvalue.
Defined.

(** C1 as stated fails in a dead block: the call (op 1) has a result and
    predecessors that are not all known, and the visit leaves its result
    lattice uninitialized instead of setting it to the entry state. *)
Lemma dead_call_result_not_widened :
  isCallOp Examples.module 1 = true ∧
  allPredecessorsKnown Examples.allDead (PPOperation 1) = false ∧
  OpResult 1 0 ∈ getResults Examples.module 1 ∧
  valueOf ConstantPropagation.analysis
    (execAll Examples.module ConstantPropagation.analysis 0
       (trace (Forward.visitOperation Examples.module Examples.allDead false 1))
       ConstantPropagation.emptySolver)
    (OpResult 1 0)
  ≠ entryState ConstantPropagation.analysis (OpResult 1 0).
Proof. repeat split; [by left | by vm_compute]. Qed.

(** ** [onUpdate] *)

Section OnUpdate.

Context {L : Type} `{EqDecision L}.
Context (ir : IR) (analysis : Analysis L).

Lemma occurrences_cons {A} `{EqDecision A} (x y : A) (l : list A) :
  occurrences x (y :: l) = (if decide (x = y) then 1 else 0) + occurrences x l.
Proof. unfold occurrences. rewrite filter_cons. by case_decide. Qed.

Lemma occurrences_app {A} `{EqDecision A} (x : A) (l1 l2 : list A) :
  occurrences x (l1 ++ l2) = occurrences x l1 + occurrences x l2.
Proof. unfold occurrences. by rewrite filter_app, length_app. Qed.

Lemma occurrences_not_elem {A} `{EqDecision A} (x : A) (l : list A) :
  x ∉ l → occurrences x l = 0.
Proof.
  induction l as [|y l IH]; [done|]. intros [Hne Hl]%not_elem_of_cons.
  rewrite occurrences_cons, decide_False by done. by apply IH.
Qed.

Lemma occurrences_NoDup {A} `{EqDecision A} (x : A) (l : list A) :
  NoDup l → x ∈ l → occurrences x l = 1.
Proof.
  induction 1 as [|y l Hy Hl IH]; [by intros ?%elem_of_nil|].
  rewrite occurrences_cons. intros [->|Hin]%elem_of_cons.
  - rewrite decide_True by done. by rewrite occurrences_not_elem.
  - rewrite decide_False by (intros ->; done). by rewrite IH.
Qed.

Lemma occurrences_user_items (user user' : Op) (subscriber : AnalysisId)
    (subscribers : list AnalysisId) :
  occurrences (PPOperation user, subscriber)
    ((λ a, (PPOperation user', a)) <$> subscribers)
  = if decide (user = user') then occurrences subscriber subscribers else 0.
Proof.
  induction subscribers as [|a subscribers IH]; [by case_decide|].
  rewrite fmap_cons, !occurrences_cons, IH.
  destruct (decide (user = user')) as [->|Hne].
  - destruct (decide (subscriber = a)) as [->|?].
    + by rewrite decide_True.
    + rewrite decide_False; [done|congruence].
  - rewrite decide_False; [done|congruence].
Qed.

(** C8, as amended: when the value of a lattice element changes,
    [onUpdate] runs; it appends to the solver's queue the dependents of the
    element and then, for every user of the owning value in use-list order,
    one work item per use-def subscriber.  So every operation using the
    value is enqueued for every subscribed analysis, once for each of its
    uses: an operation that holds the value in [k] of its operands is
    enqueued [k] times for each subscription. *)
Theorem onUpdate_enqueues_users (value : Value) (new : L) (s : Solver L)
    (Hchange : new ≠ valueOf analysis s value) :
  (update ir analysis value new (s, [])).2 = [Change] ∧
  worklist (update ir analysis value new (s, [])).1
    = worklist s ++ dependents (elementOf analysis s value)
      ++ userItems ir value (useDefSubscribers (elementOf analysis s value)) ∧
  (∀ (e : LatticeElement L) (s' : Solver L),
     worklist (onUpdate ir value e s')
     = worklist s' ++ dependents e ++ userItems ir value (useDefSubscribers e)) ∧
  (∀ user subscriber,
     user ∈ getUsers ir value →
     subscriber ∈ useDefSubscribers (elementOf analysis s value) →
     (PPOperation user, subscriber)
       ∈ worklist (update ir analysis value new (s, [])).1) ∧
  (∀ user subscriber subscribers,
     occurrences (PPOperation user, subscriber) (userItems ir value subscribers)
     = occurrences user (getUsers ir value) * occurrences subscriber subscribers).
Proof.
  set (e := elementOf analysis s value).
  assert (update ir analysis value new (s, [])
          = (onUpdate ir value
               {| latticeValue := new; dependents := dependents e;
                  useDefSubscribers := useDefSubscribers e |}
               (setElement value
                  {| latticeValue := new; dependents := dependents e;
                     useDefSubscribers := useDefSubscribers e |} s),
             [Change])) as Hupdate.
  { unfold update, assign, propagateIfChanged. cbn [fst snd].
    fold e. rewrite decide_False by done. cbn [fst snd app].
    f_equal. f_equal. unfold elementOf, setElement; cbn [elements].
    by rewrite lookup_insert_eq. }
  rewrite Hupdate. cbn [fst snd]. rewrite onUpdate_eq. simpl.
  split; [done|]. split; [done|]. split; [|split].
  - intros e' s'. by rewrite onUpdate_eq.
  - intros user subscriber Huser Hsub.
    rewrite !elem_of_app. right. right. unfold userItems.
    apply list_elem_of_bind. exists user. split; [|done].
    apply list_elem_of_fmap. eauto.
  - intros user subscriber subscribers. unfold userItems.
    induction (getUsers ir value) as [|user' users IH]; [done|].
    rewrite bind_cons, occurrences_app, occurrences_cons, IH.
    rewrite occurrences_user_items. case_decide; lia.
Qed.

End OnUpdate.

Lemma onUpdate_enqueues_users_witness :
  worklist
    (update Examples.module ConstantPropagation.analysis (BlockArgument 0 0)
       ConstantPropagation.Unknown (Examples.subscribed, [])).1
  = [(PPBlock 2, 0);
     (PPOperation 1, 0); (PPOperation 1, 1); (PPOperation 2, 0); (PPOperation 2, 1);
     (PPOperation 3, 0); (PPOperation 3, 1); (PPOperation 7, 0); (PPOperation 7, 1);
     (PPOperation 8, 0); (PPOperation 8, 1);
     (PPOperation 12, 0); (PPOperation 12, 1); (PPOperation 12, 0); (PPOperation 12, 1)].
Proof.
  destruct (onUpdate_enqueues_users Examples.module ConstantPropagation.analysis
              (BlockArgument 0 0) ConstantPropagation.Unknown Examples.subscribed)
    as (_ & Hqueue & _); [done|].
  exact Hqueue.
Defined.

(** C8 as stated fails for an operation that uses the value twice: op 12
    holds %a in both of its operands, the analysis 0 subscribed once, and
    the change of %a enqueues op 12 for the analysis 0 two times. *)
Lemma user_of_two_operands_enqueued_twice :
  getOperands Examples.module 12 = [BlockArgument 0 0; BlockArgument 0 0] ∧
  useDefSubscribers
    (elementOf ConstantPropagation.analysis Examples.subscribed (BlockArgument 0 0))
  = [0; 1] ∧
  (update Examples.module ConstantPropagation.analysis (BlockArgument 0 0)
     ConstantPropagation.Unknown (Examples.subscribed, [])).2 = [Change] ∧
  occurrences (PPOperation 12, 0)
    (worklist
       (update Examples.module ConstantPropagation.analysis (BlockArgument 0 0)
          ConstantPropagation.Unknown (Examples.subscribed, [])).1)
  = 2.
Proof. repeat split; by vm_compute. Qed.

(** ** The forward driver at region successors *)

Section ForwardRegion.

Context {L : Type} `{EqDecision L}.
Context (ir : IR) (dc : DeadCodeStates) (NDEBUG : bool).
Context (analysis : Analysis L) (self : AnalysisId).

#[local] Abbreviation execAll := (execAll ir analysis self).
#[local] Abbreviation valueOf := (valueOf analysis).
#[local] Abbreviation visitRegionSuccessors :=
  (Forward.visitRegionSuccessors ir dc NDEBUG).
#[local] Abbreviation visitRegionSuccessorsLoop :=
  (Forward.visitRegionSuccessorsLoop ir dc NDEBUG).
#[local] Abbreviation incomingSuccessorOperands :=
  (Forward.incomingSuccessorOperands ir).
#[local] Abbreviation passes := (Forward.passes ir dc NDEBUG).

Lemma alignSuccessorInputs_inputsBelongTo (point : ProgramPoint) (branch : Op)
    (inputs lattices : list Value) :
  length inputs = length lattices
  ∨ (inputsBelongTo point inputs ∧ windowFits ir point branch inputs lattices) →
  ∃ aligned,
    Forward.alignSuccessorInputs ir point branch inputs lattices = inl aligned ∧
    from_option fst 0 aligned ≤ length lattices.
Proof.
  unfold Forward.alignSuccessorInputs, windowFits, firstIndexOf.
  intros [Hlen|[Hfit [Hslice Hdrop]]].
  - rewrite decide_True by done. eexists. split; [done|]. cbn. lia.
  - case_decide; [eexists; split; [done|cbn; lia]|].
    unfold Forward.sliceChecked.
    destruct point, inputs as [|[] ?]; simpl in Hfit; try done;
      cbn [successorInputRange] in Hslice;
      rewrite decide_True by done; eexists; (split; [done|]); cbn; lia.
Qed.

(** The loop up to a predecessor whose successor operands it cannot resolve:
    the predecessors handled before it pass, and the loop ends with
    [setAllToEntryStates]. *)
Lemma visitRegionSuccessorsLoop_unresolved (point : ProgramPoint) (branch : Op)
    (successorIndex : option nat) (lattices : list Value)
    (handled rest : list Op) (op : Op) :
  incomingSuccessorOperands branch successorIndex op = None →
  Forall (passes point branch successorIndex lattices) handled →
  outcome (visitRegionSuccessorsLoop point branch successorIndex lattices
             (handled ++ op :: rest)) = Finished ∧
  ∃ before,
    trace (visitRegionSuccessorsLoop point branch successorIndex lattices
             (handled ++ op :: rest))
    = before ++ (SetToEntryState <$> lattices).
Proof.
  intros Hnone Hpass.
  induction handled as [|p handled IH].
  { cbn [app Forward.visitRegionSuccessorsLoop]. rewrite Hnone.
    split; [done|]. by exists []. }
  apply Forall_cons in Hpass as [Hp Hhandled].
  destruct (IH Hhandled) as (Hout & before & Htrace).
  cbn [app Forward.visitRegionSuccessorsLoop].
  destruct (incomingSuccessorOperands branch successorIndex p)
    as [operands|] eqn:Hincoming.
  - destruct (Hp operands Hincoming) as [Hassert Hfit].
    destruct (alignSuccessorInputs_inputsBelongTo point branch _ lattices Hfit)
      as (aligned & -> & Hdrop).
    assert (assert NDEBUG
              (bool_decide (length (getSuccessorInputs dc point p) = length operands))
              "expected the same number of successor inputs as operands"
            = finished) as ->.
    { unfold assert. destruct Hassert as [->|Hlen]; [done|].
      rewrite bool_decide_eq_true_2 by done. by rewrite orb_true_r. }
    rewrite decide_True by done.
    rewrite !andThen_finished_l, !emit_andThen. cbn [fst snd].
    split; [done|]. unfold trace in *. cbn [fst]. rewrite Htrace.
    eexists. by rewrite !app_assoc.
  - split; [done|]. by exists [].
Qed.

(** C3, as amended: in [visitRegionSuccessors], when the predecessors of the
    point are all known (or assertions are compiled out) and the
    predecessors handled earlier in the loop pass what the loop relies on
    for them, a known predecessor that is neither the region-branch
    operation itself nor a region-branch terminator, so that its successor
    operands cannot be resolved, makes the run finish with
    [setAllToEntryStates(lattices)]: every lattice being computed holds the
    entry state afterwards. *)
Theorem unresolved_region_predecessor_widens (point : ProgramPoint) (branch : Op)
    (successorIndex : option nat) (lattices : list Value)
    (handled rest : list Op) (op : Op) (s : Solver L) :
  getKnownPredecessors dc point = handled ++ op :: rest →
  op ≠ branch →
  isRegionBranchTerminatorOp ir op = false →
  NDEBUG = true ∨ allPredecessorsKnown dc point = true →
  Forall (passes point branch successorIndex lattices) handled →
  outcome (visitRegionSuccessors point branch successorIndex lattices) = Finished ∧
  (∃ before,
     trace (visitRegionSuccessors point branch successorIndex lattices)
     = before ++ (SetToEntryState <$> lattices)) ∧
  ∀ lattice, lattice ∈ lattices →
    valueOf (execAll (trace (visitRegionSuccessors point branch successorIndex
                               lattices)) s) lattice
    = entryState analysis lattice.
Proof.
  intros Hpredecessors Hne Hterm Hknown Hpass.
  assert (incomingSuccessorOperands branch successorIndex op = None) as Hnone.
  { unfold Forward.incomingSuccessorOperands.
    rewrite decide_False by done. by rewrite Hterm. }
  destruct (visitRegionSuccessorsLoop_unresolved point branch successorIndex
              lattices handled rest op Hnone Hpass) as (Hout & before & Htrace).
  assert (visitRegionSuccessors point branch successorIndex lattices
          = (GetPredecessorStateFor point point :: before
               ++ (SetToEntryState <$> lattices), Finished)) as Hrun.
  { unfold Forward.visitRegionSuccessors. rewrite Hpredecessors.
    assert (assert NDEBUG (allPredecessorsKnown dc point)
              "unexpected unresolved region successors" = finished) as ->.
    { unfold assert. destruct Hknown as [->| ->]; [done|by rewrite orb_true_r]. }
    rewrite andThen_finished_l, emit_andThen.
    unfold trace, outcome in *. by rewrite Htrace, Hout. }
  rewrite Hrun. split; [done|]. split; [by exists (GetPredecessorStateFor point point :: before)|].
  intros lattice Hl. unfold trace; cbn [fst].
  rewrite app_comm_cons, execAll_app, valueOf_setAllToEntryStates.
  by rewrite decide_True.
Qed.

End ForwardRegion.

Lemma unresolved_region_predecessor_widens_witness :
  valueOf ConstantPropagation.analysis
    (execAll Examples.module ConstantPropagation.analysis 0
       (trace (Forward.visitRegionSuccessors Examples.module Examples.regionStates
                 false (PPOperation 4) 4 None [OpResult 4 0]))
       ConstantPropagation.emptySolver)
    (OpResult 4 0)
  = ConstantPropagation.Unknown.
Proof.
  assert (Forall (Forward.passes Examples.module Examples.regionStates false
                    (PPOperation 4) 4 None [OpResult 4 0]) [4]) as Hpasses.
  { apply Forall_cons; split; [|constructor].
    intros ? [= <-]. split; [by right|]. right.
    split; [done|]. split; vm_compute; lia. }
  destruct (unresolved_region_predecessor_widens Examples.module
              Examples.regionStates false ConstantPropagation.analysis 0
              (PPOperation 4) 4 None [OpResult 4 0] [4] [] 5
              ConstantPropagation.emptySolver eq_refl) as (_ & _ & Hvalues);
    [done|done|by right|exact Hpasses|].
  apply (Hvalues (OpResult 4 0)). by left.
Defined.

(** C3 as stated fails in two ways.  When the predecessors of the point are
    not all known, a debug build stops at the first assertion although the
    known predecessor (op 5) of the region-branch operation (op 4) is no
    region-branch terminator.  And when a predecessor handled earlier does
    not pass (here op 4 itself, entered with two block arguments as
    successor inputs), the loop stops there, in either build, before it
    reaches op 5.  No lattice is set to the entry state. *)
Lemma unresolved_region_predecessor_behind_assertion :
  Forward.incomingSuccessorOperands Examples.module 4 None 5 = None ∧
  (getKnownPredecessors Examples.regionUnknown (PPOperation 4) = [5] ∧
   Forward.visitRegionSuccessors Examples.module Examples.regionUnknown false
     (PPOperation 4) 4 None [OpResult 4 0]
   = ([GetPredecessorStateFor (PPOperation 4) (PPOperation 4)],
      AssertionFailed "unexpected unresolved region successors") ∧
   valueOf ConstantPropagation.analysis
     (execAll Examples.module ConstantPropagation.analysis 0
        (trace (Forward.visitRegionSuccessors Examples.module Examples.regionUnknown
                  false (PPOperation 4) 4 None [OpResult 4 0]))
        ConstantPropagation.emptySolver)
     (OpResult 4 0)
   ≠ entryState ConstantPropagation.analysis (OpResult 4 0)) ∧
  (getKnownPredecessors Examples.regionMismatch (PPOperation 4) = [4; 5] ∧
   allPredecessorsKnown Examples.regionMismatch (PPOperation 4) = true ∧
   Forward.visitRegionSuccessors Examples.module Examples.regionMismatch false
     (PPOperation 4) 4 None [OpResult 4 0]
   = ([GetPredecessorStateFor (PPOperation 4) (PPOperation 4)],
      AssertionFailed "expected the same number of successor inputs as operands") ∧
   Forward.visitRegionSuccessors Examples.module Examples.regionMismatch true
     (PPOperation 4) 4 None [OpResult 4 0]
   = ([GetPredecessorStateFor (PPOperation 4) (PPOperation 4)],
      AssertionFailed "cast<OpResult>") ∧
   ∀ NDEBUG,
     valueOf ConstantPropagation.analysis
       (execAll Examples.module ConstantPropagation.analysis 0
          (trace (Forward.visitRegionSuccessors Examples.module
                    Examples.regionMismatch NDEBUG (PPOperation 4) 4 None
                    [OpResult 4 0]))
          ConstantPropagation.emptySolver)
       (OpResult 4 0)
     ≠ entryState ConstantPropagation.analysis (OpResult 4 0)).
Proof.
  split; [reflexivity|]. split; [repeat split; by vm_compute|].
  split; [reflexivity|]. split; [reflexivity|].
  split; [by vm_compute|]. split; [by vm_compute|].
  intros []; by vm_compute.
Qed.

(** ** Where the forward driver cannot resolve the structure *)

Section ForwardUnresolved.

Context {L : Type} `{EqDecision L}.
Context (ir : IR) (dc : DeadCodeStates) (NDEBUG : bool).
Context (analysis : Analysis L) (self : AnalysisId).

#[local] Abbreviation execAll := (execAll ir analysis self).
#[local] Abbreviation valueOf := (valueOf analysis).
#[local] Abbreviation visitBlock := (Forward.visitBlock ir dc NDEBUG).
#[local] Abbreviation visitOperation := (Forward.visitOperation ir dc NDEBUG).
#[local] Abbreviation visitPredecessors := (Forward.visitPredecessors ir dc).
#[local] Abbreviation visitRegionSuccessors :=
  (Forward.visitRegionSuccessors ir dc NDEBUG).

Lemma forEach_finished {A} (body : A → Run) (items : list A) :
  (∀ item, item ∈ items → outcome (body item) = Finished) →
  outcome (forEach body items) = Finished.
Proof.
  induction items as [|item items IH]; intros Hall; [done|].
  cbn [forEach foldr]. rewrite outcome_andThen_finished.
  - apply IH. intros ? ?. apply Hall. by right.
  - apply Hall. by left.
Qed.

Lemma visitBranchPredecessor_finished (block : Block) (argLattices : list Value)
    (predecessor : Block * nat) :
  isLive dc (PPCFGEdge predecessor.1 block) = true →
  isBranchOp ir (getTerminator ir predecessor.1) = true →
  Forward.coversArguments ir dc block argLattices predecessor →
  outcome (Forward.visitBranchPredecessor ir block argLattices
             (getTerminator ir predecessor.1)
             (getSuccessorOperands ir (getTerminator ir predecessor.1)
                predecessor.2)) = Finished.
Proof.
  intros Hlive Hbranch Hcovers. specialize (Hcovers Hlive Hbranch).
  apply forEach_finished. intros [index lattice] Hin.
  apply list_elem_of_lookup in Hin as [i Hi].
  apply list_lookup_imap_Some in Hi as (x & Hx & [= -> ->]).
  apply lookup_lt_Some in Hx.
  destruct (Hcovers i Hx) as [[operand|] Hat]; cbn [fst snd]; by rewrite Hat.
Qed.

(** A live edge whose source does not end in a branch makes the loop over
    the predecessors finish with [setAllToEntryStates(argLattices)]. *)
Lemma visitPredecessors_without_branch (block : Block) (argLattices : list Value)
    (predecessors : list (Block * nat)) (predecessor : Block * nat) :
  predecessor ∈ predecessors →
  isLive dc (PPCFGEdge predecessor.1 block) = true →
  isBranchOp ir (getTerminator ir predecessor.1) = false →
  Forall (Forward.coversArguments ir dc block argLattices) predecessors →
  outcome (visitPredecessors block argLattices predecessors) = Finished ∧
  ∃ before,
    trace (visitPredecessors block argLattices predecessors)
    = before ++ (SetToEntryState <$> argLattices).
Proof.
  intros Hin Hlive Hterm Hcover.
  induction predecessors as [|[p index] rest IH]; [by apply elem_of_nil in Hin|].
  apply Forall_cons in Hcover as [Hp Hrest].
  cbn [Forward.visitPredecessors]. rewrite emit_andThen.
  destruct (isLive dc (PPCFGEdge p block)) eqn:Hedge; cbn [negb].
  - destruct (isBranchOp ir (getTerminator ir p)) eqn:Hbranch.
    + assert (predecessor ∈ rest) as Hin'.
      { apply elem_of_cons in Hin as [->|?]; [simpl in Hterm; congruence|done]. }
      destruct (IH Hin' Hrest) as (Hout & before & Htrace).
      pose proof (visitBranchPredecessor_finished block argLattices (p, index)
                    Hedge Hbranch Hp) as Hfinished. cbn [fst snd] in Hfinished.
      unfold trace, outcome in *. cbn [fst snd].
      rewrite (outcome_andThen_finished _ _ Hfinished).
      rewrite (trace_andThen_finished _ _ Hfinished).
      unfold trace, outcome. rewrite Htrace. split; [done|].
      eexists (_ :: _ :: _ ++ before). cbn [app]. rewrite <- app_assoc.
      reflexivity.
    + split; [done|]. by eexists [_; _].
  - assert (predecessor ∈ rest) as Hin'.
    { apply elem_of_cons in Hin as [->|?]; [simpl in Hlive; congruence|done]. }
    destruct (IH Hin' Hrest) as (Hout & before & Htrace).
    unfold trace, outcome in *. cbn [fst snd]. rewrite Htrace. split; [done|].
    eexists (_ :: _ :: before). reflexivity.
Qed.

Lemma valueOf_widened (before : list Action) (lattices : list Value)
    (s : Solver L) (lattice : Value) :
  lattice ∈ lattices →
  valueOf (execAll (before ++ (SetToEntryState <$> lattices)) s) lattice
  = entryState analysis lattice.
Proof.
  intros Hin. rewrite execAll_app, valueOf_setAllToEntryStates.
  by rewrite decide_True.
Qed.


End ForwardUnresolved.



(** ** The backward driver at a return and at a call *)

Section BackwardReturnAndCall.

Context {L : Type} `{EqDecision L}.
Context (ir : IR) (dc : DeadCodeStates) (NDEBUG : bool).
Context (analysis : Analysis L) (self : AnalysisId).

#[local] Abbreviation execAll := (execAll ir analysis self).
#[local] Abbreviation valueOf := (valueOf analysis).
#[local] Abbreviation visitOperation := (Backward.visitOperation ir dc NDEBUG).
#[local] Abbreviation prologue := (Backward.prologue ir).

Lemma prologue_bookkeeping (op : Op) : forallb bookkeeping (prologue op) = true.
Proof.
  unfold Backward.prologue. cbn [forallb bookkeeping andb]. rewrite forallb_app.
  apply andb_true_iff. split; apply forallb_forall; intros a Ha.
  - apply list_elem_of_In in Ha.
    by apply list_elem_of_fmap in Ha as (v & -> & _).
  - unfold Backward.getLatticeElementsFor in Ha. apply list_elem_of_In in Ha.
    apply list_elem_of_bind in Ha as (v & Ha & _).
    by apply elem_of_cons in Ha as [->|[->|[]%elem_of_nil]%elem_of_cons].
Qed.

Lemma visitOperation_live (op : Op) :
  isLive dc (blockPoint (getBlock ir op)) = true →
  isRegionBranchOp ir op = false →
  isBranchOp ir op = false →
  visitOperation op
  = emit (prologue op) >>> Backward.visitCallOrLater ir dc NDEBUG op (getOperands ir op).
Proof.
  intros Hlive Hrb Hb. unfold Backward.visitOperation.
  rewrite Hlive, Hrb, Hb. cbn [negb]. rewrite !emit_andThen. cbn [fst snd].
  unfold Backward.prologue. cbn [app]. by rewrite <- app_assoc.
Qed.

(** C4, as amended: for a return-like operation in a live block, directly
    inside a callable, that no earlier case of [visitOperation] takes (it is
    no region-branch operation, no branch, no call resolved to a callable,
    no region-branch terminator inside a region-branch operation): if the
    call sites of the callable are all known, the visit meets, call site by
    call site, each operand lattice with the lattice of the result of the
    same number; if they are not, it sets every operand lattice to the exit
    state. *)
Theorem return_like_in_callable (op callable : Op) (s : Solver L) :
  isLive dc (blockPoint (getBlock ir op)) = true →
  isRegionBranchOp ir op = false →
  isBranchOp ir op = false →
  (isCallOp ir op = false ∨
   ∀ callee, resolveCallable ir op = Some callee → isCallableOp ir callee = false) →
  (isRegionBranchTerminatorOp ir op = false ∨ isRegionBranchOp ir callable = false) →
  hasReturnLikeTrait ir op = true →
  getParentOp ir op = Some callable →
  isCallableOp ir callable = true →
  outcome (visitOperation op) = Finished ∧
  (allPredecessorsKnown dc (PPOperation callable) = true →
   trace (visitOperation op)
   = prologue op
     ++ GetPredecessorStateFor (PPOperation op) (PPOperation callable)
     :: (call ← getKnownPredecessors dc (PPOperation callable);
         Backward.getLatticeElementsFor (PPOperation op) (getResults ir call)
         ++ ((λ it : Value * Value, Meet it.1 it.2)
               <$> zip (getOperands ir op) (getResults ir call))) ∧
   ∀ call index operand,
     call ∈ getKnownPredecessors dc (PPOperation callable) →
     getOperands ir op !! index = Some operand →
     index < getNumResults ir call →
     Meet operand (OpResult call index) ∈ trace (visitOperation op)) ∧
  (allPredecessorsKnown dc (PPOperation callable) = false →
   trace (visitOperation op)
   = prologue op
     ++ GetPredecessorStateFor (PPOperation op) (PPOperation callable)
     :: (SetToExitState <$> getOperands ir op) ∧
   ∀ operand, operand ∈ getOperands ir op →
     valueOf (execAll (trace (visitOperation op)) s) operand
     = exitState analysis operand).
Proof.
  intros Hlive Hrb Hb Hcall Hterm Hreturn Hparent Hcallable.
  rewrite visitOperation_live by done.
  assert (Backward.visitCallOrLater ir dc NDEBUG op (getOperands ir op)
          = Backward.visitReturnOrOrdinary ir dc op (getOperands ir op)) as ->.
  { unfold Backward.visitCallOrLater, Backward.visitTerminatorOrLater.
    rewrite Hparent.
    assert ((if isRegionBranchTerminatorOp ir op
             then if isRegionBranchOp ir callable
                  then Backward.visitRegionSuccessorsFromTerminator ir NDEBUG op callable
                  else Backward.visitReturnOrOrdinary ir dc op (getOperands ir op)
             else Backward.visitReturnOrOrdinary ir dc op (getOperands ir op))
            = Backward.visitReturnOrOrdinary ir dc op (getOperands ir op)) as ->.
    { destruct Hterm as [-> | ->]; [done|by destruct (isRegionBranchTerminatorOp _ _)]. }
    destruct Hcall as [-> |Hcallee]; [done|].
    destruct (isCallOp ir op); [|done].
    destruct (resolveCallable ir op) as [callee|]; [|done].
    by rewrite (Hcallee callee eq_refl). }
  unfold Backward.visitReturnOrOrdinary. rewrite Hreturn, Hparent, Hcallable.
  rewrite !emit_andThen.
  destruct (allPredecessorsKnown dc (PPOperation callable)) eqn:Hknown;
    cbn [fst snd trace outcome emit Backward.setAllToExitStates].
  - split; [done|]. split; [|done]. intros _. split; [done|].
    intros call index operand Hin Hoperand Hindex.
    apply elem_of_app. right. apply list_elem_of_further.
    apply list_elem_of_bind. exists call. split; [|done].
    apply elem_of_app. right.
    apply list_elem_of_fmap. exists (operand, OpResult call index).
    split; [done|]. apply list_elem_of_lookup. exists index.
    apply lookup_zip_with_Some. exists operand, (OpResult call index).
    split; [done|]. split; [done|]. unfold getResults.
    rewrite list_lookup_fmap, lookup_seq_lt by done. done.
  - split; [done|]. split; [done|]. intros _. split; [done|].
    intros operand Hin.
    rewrite !execAll_app, valueOf_setAllToExitStates.
    by rewrite decide_True.
Qed.

(** C9, as amended: for a call that is neither a region-branch operation nor
    a branch, whose callee resolves to a callable with a null or empty
    region, [visitOperation] returns after fetching the lattice elements: it
    issues no meet, no [setToExitState] and no hook call, every lattice value
    is what it was and nothing is enqueued. *)
Theorem call_to_callable_without_body (op callee : Op) (s : Solver L) :
  isRegionBranchOp ir op = false →
  isBranchOp ir op = false →
  isCallOp ir op = true →
  resolveCallable ir op = Some callee →
  isCallableOp ir callee = true →
  getCallableRegion ir callee ≫= regionFront ir = None →
  outcome (visitOperation op) = Finished ∧
  forallb bookkeeping (trace (visitOperation op)) = true ∧
  (∀ v, valueOf (execAll (trace (visitOperation op)) s) v = valueOf s v) ∧
  worklist (execAll (trace (visitOperation op)) s) = worklist s.
Proof.
  intros Hrb Hb Hcall Hcallee Hcallable Hregion.
  assert (outcome (visitOperation op) = Finished ∧
          forallb bookkeeping (trace (visitOperation op)) = true) as [Hout Hbook].
  { destruct (isLive dc (blockPoint (getBlock ir op))) eqn:Hlive.
    - rewrite visitOperation_live by done.
      unfold Backward.visitCallOrLater.
      rewrite Hcall, Hcallee, Hcallable, Hregion. rewrite emit_andThen.
      cbn [finished fst snd trace outcome]. rewrite app_nil_r.
      split; [done|apply prologue_bookkeeping].
    - unfold Backward.visitOperation. by rewrite Hlive. }
  split; [done|]. split; [done|]. split.
  - intros v. by apply valueOf_execAll_bookkeeping.
  - by apply worklist_execAll_bookkeeping.
Qed.

End BackwardReturnAndCall.

Lemma return_like_in_callable_witness :
  Meet (BlockArgument 1 0) (OpResult 1 0)
    ∈ trace (Backward.visitOperation Examples.module Examples.callGraph false 6) ∧
  valueOf ConstantPropagation.analysis
    (execAll Examples.module ConstantPropagation.analysis 0
       (trace (Backward.visitOperation Examples.module Examples.liveUnknown false 6))
       ConstantPropagation.emptySolver)
    (BlockArgument 1 0) = ConstantPropagation.Unknown.
Proof.
  split.
  - pose proof (return_like_in_callable Examples.module Examples.callGraph false
                  ConstantPropagation.analysis 0 6 10 ConstantPropagation.emptySolver
                  eq_refl eq_refl eq_refl (or_introl eq_refl) (or_introl eq_refl)
                  eq_refl eq_refl eq_refl) as (_ & Hknown & _).
    destruct (Hknown eq_refl) as [_ Hmeet].
    apply (Hmeet 1 0 (BlockArgument 1 0)); [by left|reflexivity|cbn; lia].
  - pose proof (return_like_in_callable Examples.module Examples.liveUnknown false
                  ConstantPropagation.analysis 0 6 10 ConstantPropagation.emptySolver
                  eq_refl eq_refl eq_refl (or_introl eq_refl) (or_introl eq_refl)
                  eq_refl eq_refl eq_refl) as (_ & _ & Hunknown).
    destruct (Hunknown eq_refl) as [_ Hexit].
    apply (Hexit (BlockArgument 1 0)). by left.
Defined.

(** C4 as stated fails in a dead block: the return (op 6) of @f, whose call
    sites are not all known, leaves the lattice of its operand as it is. *)
Lemma dead_return_keeps_its_operand :
  hasReturnLikeTrait Examples.module 6 = true ∧
  getParentOp Examples.module 6 = Some 10 ∧
  isCallableOp Examples.module 10 = true ∧
  allPredecessorsKnown Examples.allDead (PPOperation 10) = false ∧
  BlockArgument 1 0 ∈ getOperands Examples.module 6 ∧
  valueOf ConstantPropagation.analysis
    (execAll Examples.module ConstantPropagation.analysis 0
       (trace (Backward.visitOperation Examples.module Examples.allDead false 6))
       ConstantPropagation.emptySolver)
    (BlockArgument 1 0)
  ≠ exitState ConstantPropagation.analysis (BlockArgument 1 0).
Proof. repeat split; [by left | by vm_compute]. Qed.

Lemma call_to_callable_without_body_witness :
  outcome (Backward.visitOperation Examples.module Examples.liveUnknown false 2)
  = Finished ∧
  valueOf ConstantPropagation.analysis
    (execAll Examples.module ConstantPropagation.analysis 0
       (trace (Backward.visitOperation Examples.module Examples.liveUnknown false 2))
       Examples.argumentIsThree)
    (BlockArgument 0 0)
  = valueOf ConstantPropagation.analysis Examples.argumentIsThree (BlockArgument 0 0).
Proof.
  pose proof (call_to_callable_without_body Examples.module Examples.liveUnknown
                false ConstantPropagation.analysis 0 2 11 Examples.argumentIsThree
                eq_refl eq_refl eq_refl eq_refl eq_refl eq_refl)
    as (Hout & _ & Hvalues & _).
  exact (conj Hout (Hvalues (BlockArgument 0 0))).
Defined.

(** C9 as stated fails at a call that is a branch as well (op 3, an invoke of
    @ext, which has no body): the branch case runs first, meets the
    forwarded operand %b with the argument of block 6 and hands the call
    operand to [visitBranchOperand]; the lattice of %b changes. *)
Lemma invoke_of_callable_without_body_meets :
  isCallOp Examples.module 3 = true ∧
  resolveCallable Examples.module 3 = Some 11 ∧
  isCallableOp Examples.module 11 = true ∧
  getCallableRegion Examples.module 11 = None ∧
  BlockArgument 0 2 ∈ getOperands Examples.module 3 ∧
  Meet (BlockArgument 0 2) (BlockArgument 6 0)
    ∈ trace (Backward.visitOperation Examples.module Examples.liveUnknown false 3) ∧
  VisitBranchOperand {| operandOwner := 3; operandNumber := 0 |}
    ∈ trace (Backward.visitOperation Examples.module Examples.liveUnknown false 3) ∧
  valueOf ConstantPropagation.analysis
    (execAll Examples.module ConstantPropagation.analysis 0
       (trace (Backward.visitOperation Examples.module Examples.liveUnknown false 3))
       Examples.successorArgumentIsFive)
    (BlockArgument 0 2)
  ≠ valueOf ConstantPropagation.analysis Examples.successorArgumentIsFive
      (BlockArgument 0 2).
Proof.
  split; [reflexivity|]. split; [reflexivity|]. split; [reflexivity|].
  split; [reflexivity|]. split; [right; by left|].
  split; [vm_compute; by repeat constructor|].
  split; [vm_compute; by repeat constructor|].
  by vm_compute.
Qed.

(** ** The backward driver at a branch *)

Section BackwardBranch.

Context (ir : IR) (dc : DeadCodeStates) (NDEBUG : bool).

#[local] Abbreviation visitOperation := (Backward.visitOperation ir dc NDEBUG).
#[local] Abbreviation forwardedTo := (Backward.forwardedTo ir).
#[local] Abbreviation successorSlots := (Backward.successorSlots ir).
#[local] Abbreviation successorMeets := (Backward.successorMeets ir).
#[local] Abbreviation forwardToSuccessors := (Backward.forwardToSuccessors ir).
#[local] Abbreviation clearedNumbers := (Backward.clearedNumbers ir).

Lemma lookup_reset (n i : nat) (bits : BitVector) :
  reset n bits !! i
  = if decide (n = i) then (λ _, false) <$> bits !! i else bits !! i.
Proof.
  unfold reset. case_decide as Hni.
  - subst i. destruct (decide (n < length bits)) as [Hlt|Hge].
    + rewrite list_lookup_insert_eq by done.
      by destruct (lookup_lt_is_Some_2 bits n Hlt) as [b ->].
    + rewrite list_insert_ge by lia. by rewrite lookup_ge_None_2 by lia.
  - by rewrite list_lookup_insert_ne.
Qed.

Lemma lookup_resets (numbers : list nat) (bits : BitVector) (i : nat) :
  foldl (λ bits n, reset n bits) bits numbers !! i
  = if decide (i ∈ numbers) then (λ _, false) <$> bits !! i else bits !! i.
Proof.
  revert bits. induction numbers as [|n numbers IH]; intros bits.
  - cbn [foldl]. by rewrite decide_False by apply not_elem_of_nil.
  - cbn [foldl]. rewrite IH, lookup_reset.
    destruct (decide (i ∈ numbers)) as [Hin|Hout], (decide (n = i)) as [->|Hne].
    + rewrite decide_True by (by left). by destruct (bits !! i).
    + by rewrite decide_True by (by right).
    + by rewrite decide_True by (by left).
    + rewrite decide_False; [done|]. intros [->|?]%elem_of_cons; done.
Qed.

Lemma elem_of_set_bits (bits : BitVector) (i : nat) :
  i ∈ set_bits bits ↔ bits !! i = Some true.
Proof.
  unfold set_bits. rewrite list_elem_of_filter, elem_of_seq. split; [by intros []|].
  intros Hi. split; [done|]. apply lookup_lt_Some in Hi. lia.
Qed.

Lemma NoDup_set_bits (bits : BitVector) : NoDup (set_bits bits).
Proof. apply NoDup_filter, NoDup_seq. Qed.

Lemma elem_of_rangeOpOperands (op : Op) (range : OperandRange)
    (slot : OpOperand) (value : Value) :
  (slot, value) ∈ rangeOpOperands ir op range
  ↔ operandOwner slot = op
    ∧ getOperands ir op !! operandNumber slot = Some value
    ∧ beginOperandIndex range ≤ operandNumber slot
        < beginOperandIndex range + rangeSize range.
Proof.
  unfold rangeOpOperands, slice, getOpOperands.
  rewrite list_elem_of_lookup. split.
  - intros [i Hi]. apply lookup_take_Some in Hi as [Hi Hlt].
    rewrite lookup_drop in Hi.
    apply list_lookup_imap_Some in Hi as (v & Hv & [= -> ->]). cbn. split; [done|].
    split; [done|lia].
  - intros (Howner & Hvalue & Hrange).
    exists (operandNumber slot - beginOperandIndex range).
    apply lookup_take_Some. split; [|lia]. rewrite lookup_drop.
    replace (beginOperandIndex range + (operandNumber slot - beginOperandIndex range))
      with (operandNumber slot) by lia.
    apply list_lookup_imap_Some. exists value. split; [done|].
    destruct slot; cbn in *; by subst.
Qed.

(** The two components of the state the loops thread are independent. *)
Lemma foldl_visitForwardedOperand (op : Op) (successor : nat * Block)
    (slots : list (OpOperand * Value)) (state : BitVector * list Action) :
  foldl (Backward.visitForwardedOperand ir op
           (getSuccessorOperands ir op successor.1) successor.2) state slots
  = (foldl (λ bits n, reset n bits) state.1 ((λ slot, operandNumber slot.1) <$> slots),
     state.2
     ++ (slot ← slots;
         match getBranchSuccessorArgument ir (getSuccessorOperands ir op successor.1)
                 (operandNumber slot.1) successor.2 with
         | Some blockArg => Backward.meetOperand (PPOperation op) slot.2 blockArg
         | None => []
         end)).
Proof.
  revert state. induction slots as [|slot slots IH]; intros [bits actions].
  - cbn. by rewrite app_nil_r.
  - cbn [foldl]. rewrite IH. unfold Backward.visitForwardedOperand.
    cbn [fst snd fmap list_fmap foldl]. rewrite bind_cons.
    destruct (getBranchSuccessorArgument _ _ _ _); cbn [fst snd];
      by rewrite <- ?app_assoc.
Qed.

Lemma visitSuccessor_eq (op : Op) (state : BitVector * list Action)
    (successor : nat * Block) :
  Backward.visitSuccessor ir op state successor
  = (foldl (λ bits n, reset n bits) state.1
       ((λ slot, operandNumber slot.1) <$> successorSlots op successor),
     state.2 ++ successorMeets op successor).
Proof.
  unfold Backward.visitSuccessor, Backward.successorMeets, Backward.successorSlots.
  case_decide as Hempty; [|apply foldl_visitForwardedOperand].
  unfold rangeOpOperands, slice. rewrite Hempty. cbn.
  rewrite app_nil_r. by destruct state.
Qed.

Lemma forwardToSuccessors_eq (op : Op) :
  forwardToSuccessors op
  = (foldl (λ bits n, reset n bits)
       (bitVector (length (getOperands ir op)) true) (clearedNumbers op),
     imap pair (getSuccessors ir op) ≫= successorMeets op).
Proof.
  unfold Backward.forwardToSuccessors, Backward.clearedNumbers.
  generalize (bitVector (length (getOperands ir op)) true) as bits.
  assert (∀ (successors : list (nat * Block)) (state : BitVector * list Action),
    foldl (Backward.visitSuccessor ir op) state successors
    = (foldl (λ bits n, reset n bits) state.1
         (successor ← successors;
          (λ slot, operandNumber slot.1) <$> successorSlots op successor),
       state.2 ++ (successors ≫= successorMeets op))) as Hgen.
  { induction successors as [|successor successors IH]; intros state.
    - cbn. rewrite app_nil_r. by destruct state.
    - cbn [foldl]. rewrite IH, visitSuccessor_eq. cbn [fst snd].
      rewrite !bind_cons, foldl_app. by rewrite <- app_assoc. }
  intros bits. by rewrite Hgen.
Qed.

Lemma elem_of_clearedNumbers (op : Op) (index : nat) :
  index ∈ clearedNumbers op
  ↔ index < length (getOperands ir op) ∧ ∃ successor, forwardedTo op index successor.
Proof.
  unfold Backward.clearedNumbers, Backward.forwardedTo.
  rewrite list_elem_of_bind. split.
  - intros ([k block] & Hslot & Hsuccessor).
    apply list_elem_of_fmap in Hslot as ([slot value] & -> & Hslot).
    apply elem_of_rangeOpOperands in Hslot as (_ & Hvalue & Hrange).
    apply list_elem_of_lookup in Hsuccessor as [i Hi].
    apply list_lookup_imap_Some in Hi as (b & Hb & [= -> ->]).
    split; [by apply lookup_lt_Some in Hvalue|].
    exists i. split; [by apply lookup_lt_Some in Hb|done].
  - intros (Hlt & k & Hk & Hrange).
    destruct (lookup_lt_is_Some_2 _ _ Hk) as [block Hblock].
    destruct (lookup_lt_is_Some_2 _ _ Hlt) as [value Hvalue].
    exists (k, block). split.
    + apply list_elem_of_fmap.
      exists ({| operandOwner := op; operandNumber := index |}, value).
      split; [done|]. by apply elem_of_rangeOpOperands.
    + apply list_elem_of_lookup. exists k.
      apply list_lookup_imap_Some. eauto.
Qed.

Lemma visitOperation_branch (op : Op) :
  isLive dc (blockPoint (getBlock ir op)) = true →
  isRegionBranchOp ir op = false →
  isBranchOp ir op = true →
  visitOperation op
  = (Backward.prologue ir op
       ++ (imap pair (getSuccessors ir op) ≫= successorMeets op)
       ++ Backward.visitUnaccounted op (forwardToSuccessors op).1,
     Finished).
Proof.
  intros Hlive Hrb Hb. unfold Backward.visitOperation, Backward.visitBranch.
  rewrite Hlive, Hrb, Hb. cbn [negb]. rewrite !emit_andThen. cbn [fst snd emit].
  rewrite (forwardToSuccessors_eq op) at 1. cbn [snd].
  unfold Backward.prologue. cbn [app]. by rewrite <- app_assoc.
Qed.

(** Every command issued for the forwarded operands fetches an element,
    registers a dependency, or meets the lattice of a forwarded operand with
    that of the block argument found for it. *)
Lemma elem_of_successorMeets (op : Op) (a : Action) :
  a ∈ imap pair (getSuccessors ir op) ≫= successorMeets op →
  bookkeeping a = true ∨
  ∃ slot successor block lhs rhs,
    a = Meet lhs rhs ∧
    forwardedTo op slot successor ∧
    getSuccessors ir op !! successor = Some block ∧
    getOperands ir op !! slot = Some lhs ∧
    getBranchSuccessorArgument ir (getSuccessorOperands ir op successor) slot block
    = Some rhs.
Proof.
  intros ([k block] & Ha & Hsuccessor)%list_elem_of_bind.
  apply list_elem_of_lookup in Hsuccessor as [i Hi].
  apply list_lookup_imap_Some in Hi as (b & Hb & [= -> ->]).
  unfold Backward.successorMeets in Ha.
  apply list_elem_of_bind in Ha as ([slot value] & Ha & Hslot).
  apply elem_of_rangeOpOperands in Hslot as (_ & Hvalue & Hrange).
  cbn [fst snd] in *.
  destruct (getBranchSuccessorArgument _ _ _ _) as [blockArg|] eqn:Hargument;
    [|by apply elem_of_nil in Ha].
  unfold Backward.meetOperand, getLatticeElementFor in Ha.
  repeat (apply elem_of_cons in Ha as [->|Ha]; [by left|]).
  apply elem_of_cons in Ha as [->|Ha]; [|by apply elem_of_nil in Ha].
  right. exists (operandNumber slot), i, b, value, blockArg.
  repeat split; try done; [by apply lookup_lt_Some in Hb|lia..].
Qed.

Lemma visitOperation_meets (op : Op) (lhs rhs : Value) :
  isRegionBranchOp ir op = false →
  isBranchOp ir op = true →
  Meet lhs rhs ∈ trace (visitOperation op) →
  ∃ slot successor block,
    forwardedTo op slot successor ∧
    getSuccessors ir op !! successor = Some block ∧
    getOperands ir op !! slot = Some lhs ∧
    getBranchSuccessorArgument ir (getSuccessorOperands ir op successor) slot block
    = Some rhs.
Proof.
  intros Hrb Hb Hin.
  destruct (isLive dc (blockPoint (getBlock ir op))) eqn:Hlive.
  - rewrite visitOperation_branch in Hin by done. unfold trace in Hin; cbn [fst] in Hin.
    apply elem_of_app in Hin as [Hin|Hin].
    { pose proof (prologue_bookkeeping ir op) as Hbook.
      rewrite forallb_forall in Hbook.
      by specialize (Hbook _ (proj1 (list_elem_of_In _ _) Hin)). }
    apply elem_of_app in Hin as [Hin|Hin].
    + apply elem_of_successorMeets in Hin as [?|Hmeet]; [done|].
      destruct Hmeet as (slot & successor & block & l & r & [= -> ->] & ?).
      by exists slot, successor, block.
    + unfold Backward.visitUnaccounted in Hin.
      by apply list_elem_of_fmap in Hin as (? & ? & _).
  - unfold Backward.visitOperation in Hin. rewrite Hlive in Hin.
    cbn in Hin. by apply list_elem_of_singleton in Hin.
Qed.

(** C5, as amended: for a branch operation in a live block that is not
    also a region-branch operation, an operand slot forwarded to no
    successor is handed to [visitBranchOperand] exactly once in the visit,
    and every meet of the visit is the meet of a forwarded slot with the
    block argument found for it: none is issued for this slot, wherever the
    forwarded ranges lie in the operand list.  (The lattice of its value is
    met only if the same value also sits in a forwarded slot.) *)
Theorem unforwarded_operand_visited_once (op : Op) (index : nat) :
  isLive dc (blockPoint (getBlock ir op)) = true →
  isRegionBranchOp ir op = false →
  isBranchOp ir op = true →
  index < length (getOperands ir op) →
  (∀ successor, ¬ forwardedTo op index successor) →
  outcome (visitOperation op) = Finished ∧
  occurrences
    (VisitBranchOperand {| operandOwner := op; operandNumber := index |})
    (trace (visitOperation op)) = 1 ∧
  (∀ lhs rhs,
     Meet lhs rhs ∈ trace (visitOperation op) →
     ∃ slot successor block,
       slot ≠ index ∧
       forwardedTo op slot successor ∧
       getSuccessors ir op !! successor = Some block ∧
       getOperands ir op !! slot = Some lhs ∧
       getBranchSuccessorArgument ir (getSuccessorOperands ir op successor)
         slot block = Some rhs) ∧
  (∀ value,
     getOperands ir op !! index = Some value →
     (∀ slot successor,
        forwardedTo op slot successor → getOperands ir op !! slot ≠ Some value) →
     ∀ rhs, Meet value rhs ∉ trace (visitOperation op)).
Proof.
  intros Hlive Hrb Hb Hindex Hunforwarded.
  assert (∀ lhs rhs,
     Meet lhs rhs ∈ trace (visitOperation op) →
     ∃ slot successor block,
       slot ≠ index ∧
       forwardedTo op slot successor ∧
       getSuccessors ir op !! successor = Some block ∧
       getOperands ir op !! slot = Some lhs ∧
       getBranchSuccessorArgument ir (getSuccessorOperands ir op successor)
         slot block = Some rhs) as Hmeets.
  { intros lhs rhs Hin.
    destruct (visitOperation_meets op lhs rhs Hrb Hb Hin)
      as (slot & successor & block & Hforwarded & ?).
    exists slot, successor, block. split; [|done].
    intros ->. by apply (Hunforwarded successor). }
  split; [by rewrite visitOperation_branch|]. split; [|split; [done|]].
  - rewrite visitOperation_branch by done. unfold trace; cbn [fst].
    rewrite !occurrences_app.
    rewrite (occurrences_not_elem _ (Backward.prologue ir op)).
    2:{ intros Hin. pose proof (prologue_bookkeeping ir op) as Hbook.
        rewrite forallb_forall in Hbook.
        by specialize (Hbook _ (proj1 (list_elem_of_In _ _) Hin)). }
    rewrite (occurrences_not_elem _ (_ ≫= _)).
    2:{ intros Hin. apply elem_of_successorMeets in Hin as [?|Hmeet]; [done|].
        by destruct Hmeet as (? & ? & ? & ? & ? & ? & _). }
    cbn [plus]. apply occurrences_NoDup.
    + unfold Backward.visitUnaccounted. apply NoDup_fmap_2; [|apply NoDup_set_bits].
      by intros ? ? [= ->].
    + unfold Backward.visitUnaccounted. apply list_elem_of_fmap. exists index.
      split; [done|]. apply elem_of_set_bits.
      rewrite forwardToSuccessors_eq. cbn [fst]. rewrite lookup_resets.
      rewrite decide_False.
      * unfold bitVector. by apply lookup_replicate_2.
      * intros [_ [successor ?]]%elem_of_clearedNumbers.
        by apply (Hunforwarded successor).
  - intros value Hvalue Hdistinct rhs Hin.
    destruct (Hmeets value rhs Hin) as (slot & successor & block & _ & Hf & _ & Hs & _).
    by apply (Hdistinct slot successor).
Qed.

(** C10, as amended: in the branch case of the backward [visitOperation],
    an operand slot that lies in the operands forwarded to some successor,
    and for which [getBranchSuccessorArgument] finds no block argument at
    any successor it is forwarded to, is cleared from [unaccounted] and then
    dropped: no meet of the visit is issued for it and it is not handed to
    [visitBranchOperand].  The lattice of its value is met with that of a
    block argument only through another forwarded slot that holds the same
    value and for which an argument is found; if no argument is found for
    any forwarded slot holding the value, its lattice is met with
    nothing. *)
Theorem forwarded_operand_without_argument_dropped (op : Op)
    (index successor : nat) :
  isRegionBranchOp ir op = false →
  isBranchOp ir op = true →
  index < length (getOperands ir op) →
  forwardedTo op index successor →
  (∀ successor block,
     forwardedTo op index successor →
     getSuccessors ir op !! successor = Some block →
     getBranchSuccessorArgument ir (getSuccessorOperands ir op successor)
       index block = None) →
  (forwardToSuccessors op).1 !! index = Some false ∧
  (VisitBranchOperand {| operandOwner := op; operandNumber := index |}
     ∉ trace (visitOperation op)) ∧
  (∀ lhs rhs,
     Meet lhs rhs ∈ trace (visitOperation op) →
     ∃ slot successor block,
       slot ≠ index ∧
       forwardedTo op slot successor ∧
       getSuccessors ir op !! successor = Some block ∧
       getOperands ir op !! slot = Some lhs ∧
       getBranchSuccessorArgument ir (getSuccessorOperands ir op successor)
         slot block = Some rhs) ∧
  (∀ value,
     getOperands ir op !! index = Some value →
     (∀ slot successor block,
        forwardedTo op slot successor →
        getSuccessors ir op !! successor = Some block →
        getOperands ir op !! slot = Some value →
        getBranchSuccessorArgument ir (getSuccessorOperands ir op successor)
          slot block = None) →
     ∀ rhs, Meet value rhs ∉ trace (visitOperation op)).
Proof.
  intros Hrb Hb Hindex Hforwarded Hnone.
  assert ((forwardToSuccessors op).1 !! index = Some false) as Hcleared.
  { rewrite forwardToSuccessors_eq. cbn [fst]. rewrite lookup_resets.
    rewrite decide_True by (apply elem_of_clearedNumbers; eauto).
    unfold bitVector. by rewrite lookup_replicate_2. }
  split; [done|]. split; [|split].
  - intros Hin. destruct (isLive dc (blockPoint (getBlock ir op))) eqn:Hlive.
    + rewrite visitOperation_branch in Hin by done.
      unfold trace in Hin; cbn [fst] in Hin.
      apply elem_of_app in Hin as [Hin|Hin].
      { pose proof (prologue_bookkeeping ir op) as Hbook.
        rewrite forallb_forall in Hbook.
        by specialize (Hbook _ (proj1 (list_elem_of_In _ _) Hin)). }
      apply elem_of_app in Hin as [Hin|Hin].
      * apply elem_of_successorMeets in Hin as [?|Hmeet]; [done|].
        by destruct Hmeet as (? & ? & ? & ? & ? & ? & _).
      * unfold Backward.visitUnaccounted in Hin.
        apply list_elem_of_fmap in Hin as (i & [= <-] & Hset).
        apply elem_of_set_bits in Hset. congruence.
    + unfold Backward.visitOperation in Hin. rewrite Hlive in Hin.
      cbn in Hin. by apply list_elem_of_singleton in Hin.
  - intros lhs rhs Hin.
    destruct (visitOperation_meets op lhs rhs Hrb Hb Hin)
      as (slot & k & block & Hf & Hblock & Hlhs & Hrhs).
    exists slot, k, block. split; [|done].
    intros ->. by rewrite (Hnone k block Hf Hblock) in Hrhs.
  - intros value Hvalue Hvalues rhs Hin.
    destruct (visitOperation_meets op value rhs Hrb Hb Hin)
      as (slot & k & block & Hf & Hblock & Hlhs & Hrhs).
    by rewrite (Hvalues slot k block Hf Hblock Hlhs) in Hrhs.
Qed.

End BackwardBranch.

Lemma unforwarded_operand_visited_once_witness :
  occurrences (VisitBranchOperand {| operandOwner := 7; operandNumber := 1 |})
    (trace (Backward.visitOperation Examples.module Examples.liveUnknown false 7))
  = 1 ∧
  Meet (BlockArgument 0 1) (BlockArgument 2 0)
    ∉ trace (Backward.visitOperation Examples.module Examples.liveUnknown false 7).
Proof.
  assert (∀ successor, ¬ Backward.forwardedTo Examples.module 7 1 successor)
    as Hunforwarded.
  { intros [|[|[|]]] [Hsuccessor Hrange]; cbn in *; lia. }
  assert (1 < length (getOperands Examples.module 7)) as Hindex by (cbn; lia).
  pose proof (unforwarded_operand_visited_once Examples.module Examples.liveUnknown
                false 7 1 eq_refl eq_refl eq_refl Hindex Hunforwarded)
    as (_ & Honce & _ & Hvalue).
  split; [exact Honce|].
  apply (Hvalue (BlockArgument 0 1) eq_refl).
  intros [|[|[|]]] [|[|[|]]] [Hsuccessor Hrange]; cbn in *; (lia || done).
Defined.

(** C5 as stated fails in a dead block: the branch (op 7) does not forward
    its operand number 1 to any successor, and the visit never hands it to
    [visitBranchOperand]. *)
Lemma dead_branch_operand_not_visited :
  isBranchOp Examples.module 7 = true ∧
  (∀ successor, ¬ Backward.forwardedTo Examples.module 7 1 successor) ∧
  occurrences (VisitBranchOperand {| operandOwner := 7; operandNumber := 1 |})
    (trace (Backward.visitOperation Examples.module Examples.allDead false 7))
  = 0.
Proof.
  split; [reflexivity|]. split; [|reflexivity].
  intros [|[|[|]]] [Hsuccessor Hrange]; cbn in *; lia.
Qed.

Lemma forwarded_operand_without_argument_dropped_witness :
  (Backward.forwardToSuccessors Examples.module 8).1 !! 0 = Some false ∧
  (VisitBranchOperand {| operandOwner := 8; operandNumber := 0 |}
     ∉ trace (Backward.visitOperation Examples.module Examples.liveUnknown false 8)) ∧
  (∀ rhs,
     Meet (BlockArgument 0 0) rhs
       ∉ trace (Backward.visitOperation Examples.module Examples.liveUnknown false 8)).
Proof.
  assert (0 < length (getOperands Examples.module 8)) as Hindex by (cbn; lia).
  assert (Backward.forwardedTo Examples.module 8 0 0) as Hforwarded.
  { split; cbn; lia. }
  pose proof (forwarded_operand_without_argument_dropped Examples.module
                Examples.liveUnknown false 8 0 0 eq_refl eq_refl Hindex Hforwarded)
    as Hdropped.
  destruct Hdropped as (Hcleared & Hnot & _ & Hvalue).
  { intros [|successor] block [Hsuccessor _]; cbn in Hsuccessor; [|lia].
    by intros [= <-]. }
  split; [done|]. split; [done|].
  apply (Hvalue (BlockArgument 0 0) eq_refl).
  intros slot [|successor] block [Hsuccessor _]; cbn in Hsuccessor; [|lia].
  by intros [= <-].
Defined.

(** C10 as stated fails when the value of the dropped slot also sits in a
    forwarded slot for which an argument is found: the branch (op 16)
    forwards %a to ^bb4 in slot 0, where no argument is found, and to ^bb2
    in slot 1, and the lattice of %a is met with that of the argument %x of
    ^bb2. *)
Lemma dropped_operand_met_through_another_slot :
  isBranchOp Examples.aliased 16 = true ∧
  getOperands Examples.aliased 16 !! 0 = Some (BlockArgument 0 0) ∧
  Backward.forwardedTo Examples.aliased 16 0 0 ∧
  (∀ successor block,
     Backward.forwardedTo Examples.aliased 16 0 successor →
     getSuccessors Examples.aliased 16 !! successor = Some block →
     getBranchSuccessorArgument Examples.aliased
       (getSuccessorOperands Examples.aliased 16 successor) 0 block = None) ∧
  Meet (BlockArgument 0 0) (BlockArgument 2 0)
    ∈ trace (Backward.visitOperation Examples.aliased Examples.liveUnknown false 16).
Proof.
  split; [reflexivity|]. split; [reflexivity|]. split; [split; cbn; lia|]. split.
  - intros [|[|successor]] block [Hsuccessor Hrange]; cbn in *; try lia.
    by intros [= <-].
  - apply (bool_decide_unpack _). by vm_compute.
Qed.

(** ** The forward driver at a fixpoint *)

Section ForwardFixpoint.

Context {L : Type} `{EqDecision L}.
Context (ir : IR) (dc : DeadCodeStates) (NDEBUG : bool).
Context (analysis : Analysis L) (self : AnalysisId).
Context (monotone : MonotoneAnalysis analysis).

#[local] Abbreviation valueOf := (valueOf analysis).
#[local] Abbreviation exec := (exec ir analysis self).
#[local] Abbreviation execAll := (execAll ir analysis self).
#[local] Abbreviation reports := (reports ir analysis self).
#[local] Abbreviation reportsAll := (reportsAll ir analysis self).
#[local] Abbreviation update := (update ir analysis).
#[local] Abbreviation updateAll := (updateAll ir analysis).
#[local] Abbreviation sameValues := (sameValues analysis).
#[local] Abbreviation run := (run ir dc NDEBUG analysis self).
#[local] Abbreviation runReports := (runReports ir dc NDEBUG analysis self).
#[local] Abbreviation converged := (converged ir dc NDEBUG analysis self).
#[local] Abbreviation solve := (solve ir dc NDEBUG analysis self).
#[local] Abbreviation visitable := (visitable ir dc NDEBUG self).

(** The order of the semilattice. *)
#[local] Notation "x ⪯ y" := (latticeJoin analysis x y = y) (at level 70).

Lemma below_refl (x : L) : x ⪯ x.
Proof. apply (join_idempotent _ monotone). Qed.

Lemma below_trans (x y z : L) : x ⪯ y → y ⪯ z → x ⪯ z.
Proof.
  intros Hxy Hyz. rewrite <- Hyz at 1.
  by rewrite (join_associative _ monotone), Hxy.
Qed.

Lemma below_antisym (x y : L) : x ⪯ y → y ⪯ x → x = y.
Proof.
  intros Hxy Hyx. rewrite <- Hyx at 1.
  by rewrite (join_commutative _ monotone).
Qed.

Lemma below_join (x y : L) : x ⪯ latticeJoin analysis x y.
Proof.
  by rewrite (join_associative _ monotone), (join_idempotent _ monotone).
Qed.

(** *** Writing to several lattices *)

Lemma elem_of_fst_zip {A B} (x : A) (l : list A) (k : list B) :
  x ∈ (zip l k).*1 → x ∈ l.
Proof.
  intros ([a b] & -> & Hin)%list_elem_of_fmap.
  by apply elem_of_zip_l in Hin.
Qed.

Lemma NoDup_fst_zip {A B} (l : list A) (k : list B) :
  NoDup l → NoDup (zip l k).*1.
Proof.
  intros Hl. revert k. induction Hl as [|x l Hx Hl IH]; intros [|y k];
    try apply NoDup_nil_2.
  cbn. apply NoDup_cons_2; [|apply IH].
  intros Hin. by apply Hx, (elem_of_fst_zip _ _ k).
Qed.

Lemma valueOf_foldl_update_notin (writes : list (Value * L))
    (st : Solver L * list ChangeResult) (v : Value) :
  v ∉ writes.*1 →
  valueOf (foldl (λ st (it : Value * L), update it.1 it.2 st) st writes).1 v
  = valueOf st.1 v.
Proof.
  revert st. induction writes as [|[l n] writes IH]; intros st Hv; [done|].
  cbn in Hv. apply not_elem_of_cons in Hv as [Hne Hv]. cbn [foldl].
  rewrite IH by done. rewrite valueOf_update. by rewrite decide_False.
Qed.

Lemma valueOf_foldl_update_elem (writes : list (Value * L))
    (st : Solver L * list ChangeResult) (v : Value) (n : L) :
  NoDup writes.*1 → (v, n) ∈ writes →
  valueOf (foldl (λ st (it : Value * L), update it.1 it.2 st) st writes).1 v = n.
Proof.
  revert st. induction writes as [|[l m] writes IH]; intros st Hnodup Hin;
    [by apply elem_of_nil in Hin|].
  cbn in Hnodup. apply NoDup_cons in Hnodup as [Hl Hnodup]. cbn [foldl].
  apply elem_of_cons in Hin as [[= -> ->]|Hin].
  - rewrite valueOf_foldl_update_notin by done.
    rewrite valueOf_update. by rewrite decide_True.
  - by apply IH.
Qed.

Lemma foldl_update_unchanged (writes : list (Value * L))
    (st : Solver L * list ChangeResult) :
  (∀ v n, (v, n) ∈ writes → n = valueOf st.1 v) →
  (foldl (λ st (it : Value * L), update it.1 it.2 st) st writes).1 = st.1 ∧
  (Forall (NoChange =.) st.2 →
   Forall (NoChange =.)
     (foldl (λ st (it : Value * L), update it.1 it.2 st) st writes).2).
Proof.
  revert st. induction writes as [|[l n] writes IH]; intros st Hsame; [done|].
  cbn [foldl].
  assert (update (l, n).1 (l, n).2 st = (st.1, st.2 ++ [NoChange])) as ->.
  { unfold update, assign, propagateIfChanged. cbn [fst snd].
    rewrite decide_True; [done|]. apply Hsame. by left. }
  destruct (IH (st.1, st.2 ++ [NoChange])) as [Hstate Hreports].
  { intros v m Hin. apply Hsame. by right. }
  split; [done|]. intros Hall. apply Hreports. cbn [snd].
  apply Forall_app. split; [done|]. by repeat constructor.
Qed.

Lemma sameValues_foldl_update (writes : list (Value * L))
    (st st' : Solver L * list ChangeResult) :
  sameValues st.1 st'.1 →
  sameValues (foldl (λ st (it : Value * L), update it.1 it.2 st) st writes).1
    (foldl (λ st (it : Value * L), update it.1 it.2 st) st' writes).1.
Proof.
  revert st st'. induction writes as [|[l n] writes IH]; intros st st' Hsame;
    [done|].
  cbn [foldl]. apply IH. intros v. rewrite !valueOf_update.
  case_decide; [done|apply Hsame].
Qed.

(** *** One command *)

Lemma zip_lookup_values (lattices : list Value) (news : list L)
    (s : Solver L) (v : Value) (n : L) :
  (v, n) ∈ zip lattices news →
  ∃ index, (valueOf s <$> lattices) !! index = Some (valueOf s v)
           ∧ news !! index = Some n.
Proof.
  intros [index Hi]%list_elem_of_lookup.
  apply lookup_zip_with_Some in Hi as (l & m & [= -> ->] & Hl & Hm).
  exists index. by rewrite list_lookup_fmap, Hl.
Qed.

Lemma updateAll_inflationary (lattices : list Value) (news : list L)
    (s : Solver L) (v : Value) :
  NoDup lattices →
  (∀ index old new,
     (valueOf s <$> lattices) !! index = Some old → news !! index = Some new →
     old ⪯ new) →
  valueOf s v ⪯ valueOf (updateAll lattices news s).1 v.
Proof.
  intros Hnodup Hup. unfold updateAll.
  destruct (decide (v ∈ (zip lattices news).*1)) as [Hin|Hout].
  - apply list_elem_of_fmap in Hin as ([l n] & -> & Hin).
    rewrite (valueOf_foldl_update_elem _ _ _ n) by (by try apply NoDup_fst_zip).
    destruct (zip_lookup_values _ _ s _ _ Hin) as (index & Hold & Hnew).
    by apply (Hup index).
  - rewrite valueOf_foldl_update_notin by done. apply below_refl.
Qed.

Lemma updateAll_quiet (lattices : list Value) (news : list L) (s : Solver L) :
  NoDup lattices →
  sameValues s (updateAll lattices news s).1 →
  (updateAll lattices news s).1 = s ∧
  Forall (NoChange =.) (updateAll lattices news s).2.
Proof.
  intros Hnodup Hsame. unfold updateAll in *.
  destruct (foldl_update_unchanged (zip lattices news) (s, [])) as [Hs Hr].
  - intros v n Hin. cbn [fst]. rewrite <- Hsame.
    by rewrite (valueOf_foldl_update_elem _ _ _ n) by (by try apply NoDup_fst_zip).
  - split; [done|]. by apply Hr.
Qed.

Lemma update_quiet (v : Value) (new : L) (s : Solver L) :
  sameValues s (update v new (s, [])).1 →
  (update v new (s, [])).1 = s ∧ Forall (NoChange =.) (update v new (s, [])).2.
Proof.
  intros Hsame. specialize (Hsame v). rewrite valueOf_update in Hsame.
  rewrite decide_True in Hsame by done. cbn [fst] in Hsame.
  unfold update, assign, propagateIfChanged. cbn [fst snd].
  rewrite decide_True by done. cbn. split; [done|]. by repeat constructor.
Qed.

(** A command of the forward driver moves no lattice value downwards. *)
Lemma exec_inflationary (a : Action) (s : Solver L) (v : Value) :
  forwardAction a → valueOf s v ⪯ valueOf (exec a s) v.
Proof.
  destruct a; cbn [forwardAction]; try done; intros Hwf;
    try (rewrite valueOf_exec_bookkeeping by done; apply below_refl).
  - unfold exec, step. rewrite valueOf_update. cbn [fst].
    case_decide; [subst; apply below_join|apply below_refl].
  - unfold exec, step. rewrite valueOf_update. cbn [fst].
    case_decide; [subst; apply (entryState_top _ monotone)|apply below_refl].
  - unfold exec, step. apply updateAll_inflationary; [done|].
    intros index old new. apply (visitOperationImpl_inflationary _ monotone).
  - unfold exec, step. apply updateAll_inflationary; [done|].
    intros index old new.
    apply (visitNonControlFlowArgumentsImpl_inflationary _ monotone).
Qed.

(** A command that leaves the lattice values as they are reports no change
    and enqueues nothing. *)
Lemma exec_quiet (a : Action) (s : Solver L) :
  forwardAction a → sameValues s (exec a s) →
  worklist (exec a s) = worklist s ∧ Forall (NoChange =.) (reports a s).
Proof.
  destruct a; cbn [forwardAction]; try done; intros Hwf Hsame;
    try (split; [done|by constructor]).
  - destruct (update_quiet _ _ _ Hsame) as [Hs Hr].
    unfold exec, reports, step. by rewrite Hs.
  - destruct (update_quiet _ _ _ Hsame) as [Hs Hr].
    unfold exec, reports, step. by rewrite Hs.
  - destruct (updateAll_quiet _ _ _ Hwf Hsame) as [Hs Hr].
    unfold exec, reports, step. by rewrite Hs.
  - destruct (updateAll_quiet _ _ _ Hwf Hsame) as [Hs Hr].
    unfold exec, reports, step. by rewrite Hs.
Qed.

Lemma fmap_valueOf_sameValues (s s' : Solver L) (values : list Value) :
  sameValues s s' → valueOf s' <$> values = valueOf s <$> values.
Proof. intros Hsame. apply list_fmap_ext. intros _ v _. apply Hsame. Qed.

(** The lattice values after a command depend on the lattice values before
    it only. *)
Lemma exec_sameValues (a : Action) (s s' : Solver L) :
  sameValues s s' → sameValues (exec a s) (exec a s').
Proof.
  intros Hsame.
  destruct a;
    try (intros v; rewrite !valueOf_exec_bookkeeping by done; apply Hsame);
    unfold exec, step.
  - intros v. rewrite !valueOf_update. cbn [fst]. by rewrite !Hsame.
  - intros v. rewrite !valueOf_update. cbn [fst]. by rewrite !Hsame.
  - intros v. rewrite !valueOf_update. cbn [fst]. by rewrite !Hsame.
  - intros v. rewrite !valueOf_update. cbn [fst]. by rewrite !Hsame.
  - unfold updateAll.
    rewrite !(fmap_valueOf_sameValues s s') by done.
    by apply sameValues_foldl_update.
  - unfold updateAll.
    rewrite !(fmap_valueOf_sameValues s s') by done.
    by apply sameValues_foldl_update.
  - destruct (getOperands ir (operandOwner operand) !! operandNumber operand);
      [|done].
    intros v'. rewrite !valueOf_update. cbn [fst]. by rewrite !Hsame.
  - unfold updateAll.
    rewrite !(fmap_valueOf_sameValues s s') by done.
    by apply sameValues_foldl_update.
Qed.

(** *** A sequence of commands *)

Lemma execAll_inflationary (t : list Action) (s : Solver L) (v : Value) :
  Forall forwardAction t → valueOf s v ⪯ valueOf (execAll t s) v.
Proof.
  intros Ht. revert s. induction Ht as [|a t Ha Ht IH]; intros s;
    [apply below_refl|].
  rewrite execAll_cons. eapply below_trans; [by apply exec_inflationary|apply IH].
Qed.

Lemma execAll_sameValues (t : list Action) (s s' : Solver L) :
  sameValues s s' → sameValues (execAll t s) (execAll t s').
Proof.
  revert s s'. induction t as [|a t IH]; intros s s' Hsame; [done|].
  rewrite !execAll_cons. by apply IH, exec_sameValues.
Qed.

(** If a sequence of commands of the forward driver leaves the lattice
    values as they are, none of its commands changed one: each reported
    [NoChange] and nothing was enqueued. *)
Lemma execAll_quiet (t : list Action) (s : Solver L) :
  Forall forwardAction t → sameValues s (execAll t s) →
  worklist (execAll t s) = worklist s ∧ Forall (NoChange =.) (reportsAll t s).
Proof.
  intros Ht. revert s. induction Ht as [|a t Ha Ht IH]; intros s Hsame;
    [by split; [|constructor]|].
  rewrite execAll_cons in *. cbn [reportsAll].
  assert (sameValues s (exec a s)) as Hfirst.
  { intros v. symmetry. apply below_antisym; [by apply exec_inflationary|].
    rewrite <- (Hsame v). by apply execAll_inflationary. }
  destruct (exec_quiet a s Ha Hfirst) as [Hqueue Hreports].
  destruct (IH (exec a s)) as [Hqueue' Hreports'].
  { intros v. by rewrite Hsame, Hfirst. }
  split; [by rewrite Hqueue'|]. by apply Forall_app.
Qed.

(** *** The commands of a visit *)

Lemma Forall_trace_andThen (P : Action → Prop) (r1 r2 : Run) :
  Forall P (trace r1) → Forall P (trace r2) → Forall P (trace (r1 >>> r2)).
Proof.
  destruct r1 as [t1 []], r2 as [t2 o2]; unfold andThen, trace; cbn; [|done].
  intros. by apply Forall_app.
Qed.

Lemma Forall_trace_forEach {A} (P : Action → Prop) (body : A → Run)
    (items : list A) :
  (∀ item, Forall P (trace (body item))) → Forall P (trace (forEach body items)).
Proof.
  intros Hbody. induction items as [|item items IH]; [by constructor|].
  cbn [forEach foldr]. by apply Forall_trace_andThen.
Qed.

Lemma Forall_bind_intro {A} (P : Action → Prop) (f : A → list Action)
    (items : list A) :
  (∀ item, Forall P (f item)) → Forall P (items ≫= f).
Proof.
  intros Hf. apply Forall_forall. intros a (item & Ha & _)%list_elem_of_bind.
  specialize (Hf item). rewrite Forall_forall in Hf. by apply Hf.
Qed.

Lemma NoDup_getResults (op : Op) : NoDup (getResults ir op).
Proof. apply NoDup_fmap_2; [by intros ? ? [= ->]|apply NoDup_seq]. Qed.

Lemma NoDup_getArguments (block : Block) : NoDup (getArguments ir block).
Proof. apply NoDup_fmap_2; [by intros ? ? [= ->]|apply NoDup_seq]. Qed.

Lemma forwardAction_joinFrom (point : ProgramPoint) (lhs value : Value) :
  Forall forwardAction (Forward.joinFrom point lhs value).
Proof. by repeat constructor. Qed.

Lemma forwardAction_fmap (f : Value → Action) (values : list Value) :
  (∀ value, forwardAction (f value)) → Forall forwardAction (f <$> values).
Proof. intros Hf. apply Forall_fmap, Forall_forall. intros ? _. apply Hf. Qed.

Lemma forwardAction_assert (condition : bool) (message : string) :
  Forall forwardAction (trace (assert NDEBUG condition message)).
Proof. unfold assert. destruct (NDEBUG || condition); by constructor. Qed.

Lemma forwardAction_visitRegionSuccessors (point : ProgramPoint) (branch : Op)
    (successorIndex : option nat) (lattices : list Value) :
  NoDup lattices →
  Forall forwardAction
    (trace (Forward.visitRegionSuccessors ir dc NDEBUG point branch successorIndex
              lattices)).
Proof.
  intros Hnodup. unfold Forward.visitRegionSuccessors.
  apply Forall_trace_andThen; [by repeat constructor|].
  apply Forall_trace_andThen; [apply forwardAction_assert|].
  induction (getKnownPredecessors dc point) as [|op rest IH]; [by constructor|].
  cbn [Forward.visitRegionSuccessorsLoop].
  destruct (Forward.incomingSuccessorOperands _ _ _ _) as [operands|];
    [|by apply forwardAction_fmap].
  apply Forall_trace_andThen; [apply forwardAction_assert|].
  destruct (Forward.alignSuccessorInputs _ _ _ _ _) as [aligned|] eqn:Haligned;
    [|by constructor].
  apply Forall_trace_andThen;
    [|apply Forall_trace_andThen; [|apply Forall_trace_andThen; [|done]]].
  - unfold Forward.alignSuccessorInputs, Forward.sliceChecked in Haligned.
    case_decide; [by injection Haligned as <-; constructor|].
    destruct point, (getSuccessorInputs dc _ op) as [|[] ?];
      try done; case_decide; try done;
      injection Haligned as <-; by repeat constructor.
  - case_decide; by constructor.
  - apply Forall_bind_intro. intros ?. apply forwardAction_joinFrom.
Qed.

Lemma forwardAction_visitOperation (op : Op) :
  Forall forwardAction (trace (Forward.visitOperation ir dc NDEBUG op)).
Proof.
  unfold Forward.visitOperation. case_decide; [by constructor|].
  apply Forall_trace_andThen; [by repeat constructor|].
  destruct (negb _); [by constructor|].
  apply Forall_trace_andThen; [by apply forwardAction_fmap|].
  destruct (isRegionBranchOp ir op).
  { apply forwardAction_visitRegionSuccessors, NoDup_getResults. }
  destruct (isCallOp ir op).
  - apply Forall_trace_andThen; [by repeat constructor|].
    destruct (negb _); [by apply forwardAction_fmap|].
    apply Forall_bind_intro. intros ?. apply Forall_bind_intro. intros ?.
    apply forwardAction_joinFrom.
  - apply Forall_trace_andThen.
    + apply Forall_bind_intro. intros ?. by repeat constructor.
    + repeat constructor. apply NoDup_getResults.
Qed.

Lemma forwardAction_visitBlock (block : Block) :
  Forall forwardAction (trace (Forward.visitBlock ir dc NDEBUG block)).
Proof.
  unfold Forward.visitBlock. case_decide; [by constructor|].
  apply Forall_trace_andThen; [by repeat constructor|].
  destruct (negb _); [by constructor|].
  apply Forall_trace_andThen; [by apply forwardAction_fmap|].
  destruct (isEntryBlock ir block).
  - destruct (_ && _).
    + apply Forall_trace_andThen; [by repeat constructor|].
      destruct (negb _); [by apply forwardAction_fmap|].
      apply Forall_trace_forEach. intros callsite. unfold Forward.visitCallSite.
      destruct (isCallOp ir callsite); [|by constructor].
      apply Forall_bind_intro. intros ?. apply forwardAction_joinFrom.
    + destruct (isRegionBranchOp ir _).
      * apply forwardAction_visitRegionSuccessors, NoDup_getArguments.
      * repeat constructor. apply NoDup_getArguments.
  - induction (getPredecessors ir block) as [|[predecessor index] rest IH];
      [by constructor|].
    cbn [Forward.visitPredecessors].
    apply Forall_trace_andThen; [by repeat constructor|].
    destruct (negb _); [done|].
    destruct (isBranchOp ir _); [|by apply forwardAction_fmap].
    apply Forall_trace_andThen; [|done].
    apply Forall_trace_forEach. intros [i lattice].
    destruct (successorOperandAt _ _ _ _) as [[operand|]|];
      [apply forwardAction_joinFrom|by repeat constructor|by constructor].
Qed.

Lemma forwardAction_visit (point : ProgramPoint) :
  Forall forwardAction (trace (Forward.visit ir dc NDEBUG point).2).
Proof.
  destruct point; cbn [Forward.visit snd]; try by constructor.
  - apply forwardAction_visitOperation.
  - apply forwardAction_visitBlock.
Qed.

(** *** Visits at a fixpoint *)

Lemma sameValues_elements (s s' : Solver L) :
  elements s' = elements s → sameValues s s'.
Proof. intros Helements v. by apply valueOf_elements. Qed.

Lemma converged_sameValues (s s' : Solver L) (point : ProgramPoint) :
  sameValues s s' → converged s point → sameValues s (run point s').
Proof.
  intros Hsame Hconverged v. rewrite <- (Hconverged v).
  by apply execAll_sameValues.
Qed.

Lemma run_converged (s s' : Solver L) (point : ProgramPoint) :
  sameValues s s' → converged s point →
  sameValues s (run point s') ∧
  worklist (run point s') = worklist s' ∧
  Forall (NoChange =.) (runReports point s').
Proof.
  intros Hsame Hconverged.
  pose proof (converged_sameValues s s' point Hsame Hconverged) as Hafter.
  split; [done|]. apply execAll_quiet; [apply forwardAction_visit|].
  intros v. by rewrite Hafter, Hsame.
Qed.

Lemma solve_converged (s : Solver L) (queue : list WorkItem) (s' : Solver L) :
  sameValues s s' → worklist s' = queue →
  (∀ item, item ∈ queue → visitable item ∧ converged s item.1) →
  ∃ final,
    solve (length queue) s' = (Drained, final) ∧
    worklist final = [] ∧
    sameValues s final.
Proof.
  revert s'. induction queue as [|item rest IH]; intros s' Hsame Hqueue Hall.
  { exists s'. cbn [length solve]. by rewrite Hqueue. }
  destruct (Hall item) as [(Hself & Hsuccess & Hfinished) Hconverged]; [by left|].
  cbn [length solve]. rewrite Hqueue, decide_True by done.
  rewrite Hfinished, Hsuccess.
  destruct (run_converged s {| elements := elements s'; worklist := rest |} item.1)
    as (Hafter & Hrest & _).
  { intros v. rewrite <- (Hsame v). by apply valueOf_elements. }
  { done. }
  apply IH; [done..|]. intros ? ?. apply Hall. by right.
Qed.


End ForwardFixpoint.

Lemma ConstantPropagation_monotone :
  MonotoneAnalysis ConstantPropagation.analysis.
Proof.
  split; cbn.
  - by intros [| |]; cbn; try case_decide.
  - intros [|n|] [|m|]; cbn; try done. repeat case_decide; congruence.
  - intros [|n|] [|m|] [|k|]; cbn; try done; repeat (case_decide; cbn);
      congruence.
  - by intros _ [| |].
  - intros _ _ results index old new _.
    rewrite list_lookup_fmap. destruct (results !! index); [|done].
    intros [= <-]. by destruct old.
  - intros _ _ _ arguments index old new _.
    rewrite list_lookup_fmap. destruct (arguments !! index); [|done].
    intros [= <-]. by destruct old.
Qed.

Lemma Climb_monotone : MonotoneAnalysis Climb.analysis.
Proof.
  split; cbn.
  - by intros [| |].
  - by intros [| |] [| |].
  - by intros [| |] [| |] [| |].
  - by intros _ [| |].
  - intros _ _ results index old new Hold.
    rewrite list_lookup_fmap, Hold. intros [= <-]. by destruct old.
  - intros _ _ _ arguments index old new Hold Hnew.
    rewrite Hold in Hnew. injection Hnew as <-. by destruct old.
Qed.



(** ** The drivers on the example module *)

Example forward_visit_of_a_call :
  Forward.visitOperation Examples.module Examples.callGraph false 1
  = ([GetExecutable (PPBlock 0); GetLatticeElement (OpResult 1 0);
      GetPredecessorStateFor (PPOperation 1) (PPOperation 1);
      GetLatticeElement (BlockArgument 1 0);
      AddDependency (BlockArgument 1 0) (PPOperation 1);
      Join (OpResult 1 0) (BlockArgument 1 0)],
     Finished).
Proof. reflexivity. Qed.

Example forward_visit_of_a_block_with_a_produced_argument :
  Forward.visitBlock Examples.module Examples.callGraph false 5
  = ([GetExecutable (PPBlock 5); GetLatticeElement (BlockArgument 5 0);
      GetExecutable (PPCFGEdge 0 5); BlockContentSubscribe (PPCFGEdge 0 5);
      SetToEntryState (BlockArgument 5 0);
      GetExecutable (PPCFGEdge 6 5); BlockContentSubscribe (PPCFGEdge 6 5);
      SetToEntryState (BlockArgument 5 0)],
     Finished).
Proof. reflexivity. Qed.

Example backward_visit_of_a_switch :
  Backward.visitOperation Examples.module Examples.callGraph false 7
  = ([GetExecutable (PPBlock 0); GetLatticeElement (BlockArgument 0 0);
      GetLatticeElement (BlockArgument 0 1); GetLatticeElement (BlockArgument 0 2);
      GetLatticeElement (BlockArgument 0 0); GetLatticeElement (BlockArgument 2 0);
      AddDependency (BlockArgument 2 0) (PPOperation 7);
      Meet (BlockArgument 0 0) (BlockArgument 2 0);
      GetLatticeElement (BlockArgument 0 2); GetLatticeElement (BlockArgument 3 0);
      AddDependency (BlockArgument 3 0) (PPOperation 7);
      Meet (BlockArgument 0 2) (BlockArgument 3 0);
      VisitBranchOperand {| operandOwner := 7; operandNumber := 1 |}],
     Finished).
Proof. reflexivity. Qed.

(** Forward, the constant held by %a reaches the argument of @f and then
    the result of the call. *)
Example constant_flows_forward_through_the_call :
  let s :=
    run Examples.module Examples.callGraph false ConstantPropagation.analysis 0
      (PPOperation 1)
      (run Examples.module Examples.callGraph false ConstantPropagation.analysis 0
         (PPBlock 1) Examples.argumentIsThree) in
  valueOf ConstantPropagation.analysis s (BlockArgument 1 0)
  = ConstantPropagation.Constant 3 ∧
  valueOf ConstantPropagation.analysis s (OpResult 1 0)
  = ConstantPropagation.Constant 3.
Proof. by vm_compute. Qed.

(** Backward, what is known of the result of the call reaches the operand
    of the return and then the operand of the call. *)
Example constant_flows_backward_through_the_call :
  let s :=
    execAll Examples.module ConstantPropagation.analysis 0
      (trace (Backward.visitOperation Examples.module Examples.callGraph false 1))
      (execAll Examples.module ConstantPropagation.analysis 0
         (trace (Backward.visitOperation Examples.module Examples.callGraph false 6))
         (ConstantPropagation.solverWith
            [(OpResult 1 0, ConstantPropagation.Constant 5);
             (BlockArgument 1 0, ConstantPropagation.Unknown);
             (BlockArgument 0 0, ConstantPropagation.Unknown)])) in
  valueOf ConstantPropagation.analysis s (BlockArgument 1 0)
  = ConstantPropagation.Constant 5 ∧
  valueOf ConstantPropagation.analysis s (BlockArgument 0 0)
  = ConstantPropagation.Constant 5.
Proof. by vm_compute. Qed.

(** ** Dependencies, subscriptions and the lattices a command writes *)

Section Registrations.

Context {L : Type} `{EqDecision L}.
Context (ir : IR) (analysis : Analysis L) (self : AnalysisId).

#[local] Abbreviation valueOf := (valueOf analysis).
#[local] Abbreviation elementOf := (elementOf analysis).
#[local] Abbreviation exec := (exec ir analysis self).
#[local] Abbreviation execAll := (execAll ir analysis self).
#[local] Abbreviation update := (update ir analysis).
#[local] Abbreviation updateAll := (updateAll ir analysis).

Lemma elementOf_setElement (v v' : Value) (e : LatticeElement L) (s : Solver L) :
  elementOf (setElement v e s) v' = if decide (v = v') then e else elementOf s v'.
Proof.
  unfold elementOf, setElement; simpl.
  rewrite lookup_insert. by case_decide.
Qed.

(** An update keeps the dependents and the subscribers of every element. *)
Lemma elementOf_update (v v' : Value) (new : L) (st : Solver L * list ChangeResult) :
  elementOf (update v new st).1 v'
  = if decide (v = v') then
      {| latticeValue := new;
         dependents := dependents (elementOf st.1 v);
         useDefSubscribers := useDefSubscribers (elementOf st.1 v) |}
    else elementOf st.1 v'.
Proof.
  unfold update, propagateIfChanged, assign; cbn [fst snd].
  destruct (decide (new = _)) as [Heq|Hne]; cbn [fst snd].
  - case_decide; [subst v'|done]. rewrite Heq. by destruct (elementOf st.1 v).
  - unfold elementOf at 1. rewrite elements_onUpdate.
    apply elementOf_setElement.
Qed.

Lemma dependents_update (v v' : Value) (new : L) (st : Solver L * list ChangeResult) :
  dependents (elementOf (update v new st).1 v') = dependents (elementOf st.1 v').
Proof. rewrite elementOf_update. case_decide; by subst. Qed.

Lemma subscribers_update (v v' : Value) (new : L) (st : Solver L * list ChangeResult) :
  useDefSubscribers (elementOf (update v new st).1 v')
  = useDefSubscribers (elementOf st.1 v').
Proof. rewrite elementOf_update. case_decide; by subst. Qed.

Lemma registrations_foldl_update (writes : list (Value * L))
    (st : Solver L * list ChangeResult) (v : Value) :
  dependents
    (elementOf (foldl (λ st (it : Value * L), update it.1 it.2 st) st writes).1 v)
  = dependents (elementOf st.1 v) ∧
  useDefSubscribers
    (elementOf (foldl (λ st (it : Value * L), update it.1 it.2 st) st writes).1 v)
  = useDefSubscribers (elementOf st.1 v).
Proof.
  revert st. induction writes as [|[l n] writes IH]; intros st; [done|].
  cbn [foldl]. destruct (IH (update (l, n).1 (l, n).2 st)) as [-> ->].
  by rewrite dependents_update, subscribers_update.
Qed.

Lemma elem_of_setVectorInsert {A} `{EqDecision A} (x y : A) (l : list A) :
  x ∈ setVectorInsert y l ↔ x = y ∨ x ∈ l.
Proof.
  unfold setVectorInsert. case_decide as Hin.
  - split; [by right|]. by intros [->|?].
  - rewrite elem_of_app, list_elem_of_singleton. tauto.
Qed.

(** Only [addDependency] touches the dependents of an element, and it adds
    to them. *)
Lemma dependents_exec (a : Action) (s : Solver L) (v : Value) :
  dependents (elementOf (exec a s) v)
  = match a with
    | AddDependency value dependent =>
        if decide (value = v) then
          setVectorInsert (dependent, self) (dependents (elementOf s v))
        else dependents (elementOf s v)
    | _ => dependents (elementOf s v)
    end.
Proof.
  destruct a; unfold exec, step; cbn [fst];
    try done;
    try (by rewrite dependents_update);
    try (by apply registrations_foldl_update);
    try (rewrite elementOf_setElement; case_decide; by subst).
  destruct (getOperands ir _ !! _); [by rewrite dependents_update|done].
Qed.

(** Only [useDefSubscribe] touches the subscribers of an element. *)
Lemma subscribers_exec (a : Action) (s : Solver L) (v : Value) :
  useDefSubscribers (elementOf (exec a s) v)
  = match a with
    | UseDefSubscribe value =>
        if decide (value = v) then
          setVectorInsert self (useDefSubscribers (elementOf s v))
        else useDefSubscribers (elementOf s v)
    | _ => useDefSubscribers (elementOf s v)
    end.
Proof.
  destruct a; unfold exec, step; cbn [fst];
    try done;
    try (by rewrite subscribers_update);
    try (by apply registrations_foldl_update);
    try (rewrite elementOf_setElement; case_decide; by subst).
  destruct (getOperands ir _ !! _); [by rewrite subscribers_update|done].
Qed.

Lemma dependents_execAll_mono (t : list Action) (s : Solver L) (v : Value)
    (item : WorkItem) :
  item ∈ dependents (elementOf s v) →
  item ∈ dependents (elementOf (execAll t s) v).
Proof.
  revert s. induction t as [|a t IH]; intros s Hin; [done|].
  rewrite execAll_cons. apply IH. rewrite dependents_exec.
  destruct a; try done. case_decide; [|done].
  apply elem_of_setVectorInsert. by right.
Qed.

Lemma subscribers_execAll_mono (t : list Action) (s : Solver L) (v : Value)
    (subscriber : AnalysisId) :
  subscriber ∈ useDefSubscribers (elementOf s v) →
  subscriber ∈ useDefSubscribers (elementOf (execAll t s) v).
Proof.
  revert s. induction t as [|a t IH]; intros s Hin; [done|].
  rewrite execAll_cons. apply IH. rewrite subscribers_exec.
  destruct a; try done. case_decide; [|done].
  apply elem_of_setVectorInsert. by right.
Qed.

(** A dependency registered in a sequence of commands is there at its
    end. *)
Lemma dependents_execAll_registered (t : list Action) (s : Solver L)
    (v : Value) (point : ProgramPoint) :
  AddDependency v point ∈ t →
  (point, self) ∈ dependents (elementOf (execAll t s) v).
Proof.
  intros (t1 & t2 & ->)%list_elem_of_split.
  rewrite execAll_app, execAll_cons. apply dependents_execAll_mono.
  rewrite dependents_exec. rewrite decide_True by done.
  apply elem_of_setVectorInsert. by left.
Qed.

Lemma subscribers_execAll_registered (t : list Action) (s : Solver L) (v : Value) :
  UseDefSubscribe v ∈ t →
  self ∈ useDefSubscribers (elementOf (execAll t s) v).
Proof.
  intros (t1 & t2 & ->)%list_elem_of_split.
  rewrite execAll_app, execAll_cons. apply subscribers_execAll_mono.
  rewrite subscribers_exec. rewrite decide_True by done.
  apply elem_of_setVectorInsert. by left.
Qed.

(** What a change of a lattice puts on the queue. *)
Lemma worklist_update_changed (v : Value) (new : L) (s : Solver L) :
  new ≠ valueOf s v →
  worklist (update v new (s, [])).1
  = worklist s ++ dependents (elementOf s v)
    ++ userItems ir v (useDefSubscribers (elementOf s v)).
Proof.
  intros Hne. unfold update, propagateIfChanged, assign; cbn [fst snd].
  rewrite decide_False by done. cbn [fst snd].
  rewrite onUpdate_eq. cbn [worklist setElement].
  by rewrite elementOf_setElement, decide_True.
Qed.

Lemma update_enqueues_dependent (v : Value) (new : L) (s : Solver L)
    (item : WorkItem) :
  item ∈ dependents (elementOf s v) → new ≠ valueOf s v →
  item ∈ worklist (update v new (s, [])).1.
Proof.
  intros Hin Hne. rewrite worklist_update_changed by done.
  rewrite !elem_of_app. auto.
Qed.

Lemma update_enqueues_user (v : Value) (new : L) (s : Solver L)
    (user : Op) (subscriber : AnalysisId) :
  subscriber ∈ useDefSubscribers (elementOf s v) → user ∈ getUsers ir v →
  new ≠ valueOf s v →
  (PPOperation user, subscriber) ∈ worklist (update v new (s, [])).1.
Proof.
  intros Hin Huser Hne. rewrite worklist_update_changed by done.
  rewrite !elem_of_app. right; right. unfold userItems.
  apply list_elem_of_bind. exists user. split; [|done].
  apply list_elem_of_fmap. by exists subscriber.
Qed.

(** A command leaves the lattices it does not write as they are. *)
Lemma exec_frame (a : Action) (s : Solver L) (v : Value) :
  v ∉ writes ir a → valueOf (exec a s) v = valueOf s v.
Proof.
  destruct a; cbn [writes]; intros Hv;
    try (by apply valueOf_exec_bookkeeping); unfold exec, step.
  - rewrite valueOf_update. rewrite decide_False; [done|]. set_solver.
  - rewrite valueOf_update. rewrite decide_False; [done|]. set_solver.
  - rewrite valueOf_update. rewrite decide_False; [done|]. set_solver.
  - rewrite valueOf_update. rewrite decide_False; [done|]. set_solver.
  - unfold updateAll. apply valueOf_foldl_update_notin.
    intros Hin. by apply elem_of_fst_zip in Hin.
  - unfold updateAll. apply valueOf_foldl_update_notin.
    intros Hin. by apply elem_of_fst_zip in Hin.
  - destruct (getOperands ir _ !! _) as [value|]; [|done].
    rewrite valueOf_update. rewrite decide_False; [done|].
    cbn in Hv. set_solver.
  - unfold updateAll. apply valueOf_foldl_update_notin.
    intros Hin. by apply elem_of_fst_zip in Hin.
Qed.

Lemma execAll_frame (t : list Action) (s : Solver L) (v : Value) :
  Forall (λ a, v ∉ writes ir a) t → valueOf (execAll t s) v = valueOf s v.
Proof.
  intros Ht. revert s. induction Ht as [|a t Ha Ht IH]; intros s; [done|].
  rewrite execAll_cons, IH. by apply exec_frame.
Qed.

Lemma execAll_frame_within (owned : list Value) (t : list Action)
    (s : Solver L) (v : Value) :
  Forall (λ a, writes ir a ⊆ owned) t → v ∉ owned →
  valueOf (execAll t s) v = valueOf s v.
Proof.
  intros Ht Hv. apply execAll_frame. eapply Forall_impl; [exact Ht|].
  intros a Ha Hin. by apply Hv, Ha.
Qed.

End Registrations.

(** ** The backward driver: region successors *)

Section BackwardRegion.

Context (ir : IR) (dc : DeadCodeStates) (NDEBUG : bool).

#[local] Abbreviation visitOperation := (Backward.visitOperation ir dc NDEBUG).

(** The two components of the state the loops thread are independent. *)
Lemma visitSuccessorInputs_eq (point : Op) (operands : list (OpOperand * Value))
    (inputs : list Value) (state : BitVector * list Action) :
  Backward.visitSuccessorInputs point operands inputs state
  = (foldl (λ bits n, reset n bits) state.1 (pairedNumbers (zip operands inputs)),
     state.2 ++ pairMeets point (zip operands inputs)).
Proof.
  unfold Backward.visitSuccessorInputs, pairedNumbers, pairMeets.
  revert state. induction (zip operands inputs) as [|it pairs IH]; intros state.
  - cbn. rewrite app_nil_r. by destruct state.
  - cbn [foldl]. rewrite IH. cbn [fst snd]. rewrite fmap_cons, bind_cons.
    cbn [foldl]. by rewrite <- app_assoc.
Qed.

Lemma foldl_visitSuccessorInputs (point : Op)
    (slots : RegionSuccessor → list (OpOperand * Value))
    (successors : list RegionSuccessor) (state : BitVector * list Action) :
  foldl (λ st successor,
           Backward.visitSuccessorInputs point (slots successor)
             (successorInputs successor) st)
        state successors
  = (foldl (λ bits n, reset n bits) state.1
       (pairedNumbers
          (successor ← successors; zip (slots successor) (successorInputs successor))),
     state.2
     ++ pairMeets point
          (successor ← successors; zip (slots successor) (successorInputs successor))).
Proof.
  revert state. induction successors as [|successor successors IH]; intros state.
  - cbn. rewrite app_nil_r. by destruct state.
  - cbn [foldl]. rewrite IH, visitSuccessorInputs_eq. cbn [fst snd].
    rewrite bind_cons. unfold pairedNumbers, pairMeets.
    rewrite fmap_app, foldl_app, bind_app. by rewrite <- app_assoc.
Qed.

Lemma visitRegionSuccessors_eq (branch : Op) (operandLattices : list Value) :
  Backward.visitRegionSuccessors ir branch operandLattices
  = (pairMeets branch (entrySuccessorPairs ir branch)
       ++ Backward.visitUnaccounted branch
            (unpaired ir branch (entrySuccessorPairs ir branch)),
     Finished).
Proof.
  unfold Backward.visitRegionSuccessors.
  rewrite (foldl_visitSuccessorInputs branch
             (λ successor,
                rangeOpOperands ir branch
                  match successorRegion successor with
                  | Some region =>
                      getEntrySuccessorOperands ir branch
                        (Some (getRegionNumber ir region))
                  | None => getEntrySuccessorOperands ir branch None
                  end)).
  reflexivity.
Qed.

Lemma visitRegionSuccessorsFromTerminator_eq (terminator branch : Op) :
  isRegionBranchTerminatorOp ir terminator = true →
  getParentOp ir terminator = Some branch →
  Backward.visitRegionSuccessorsFromTerminator ir NDEBUG terminator branch
  = (pairMeets terminator (terminatorSuccessorPairs ir terminator)
       ++ Backward.visitUnaccounted terminator
            (unpaired ir terminator (terminatorSuccessorPairs ir terminator)),
     Finished).
Proof.
  intros Hterminator Hparent. unfold Backward.visitRegionSuccessorsFromTerminator.
  rewrite Hterminator, Hparent. rewrite bool_decide_eq_true_2 by done.
  unfold assert. rewrite !orb_true_r, !andThen_finished_l.
  rewrite (foldl_visitSuccessorInputs terminator
             (λ successor,
                rangeOpOperands ir terminator
                  (getTerminatorSuccessorOperands ir terminator
                     (getRegionNumber ir <$> successorRegion successor)))).
  reflexivity.
Qed.

Lemma visitCallOrLater_unresolved (op : Op) (operandLattices : list Value) :
  resolvesToCallable ir op = false →
  Backward.visitCallOrLater ir dc NDEBUG op operandLattices
  = Backward.visitTerminatorOrLater ir dc NDEBUG op operandLattices.
Proof.
  unfold resolvesToCallable, Backward.visitCallOrLater.
  destruct (isCallOp ir op); [|done].
  destruct (resolveCallable ir op) as [callableOp|]; [|done].
  cbn. by intros ->.
Qed.

Lemma length_resets (numbers : list nat) (bits : BitVector) :
  length (foldl (λ bits n, reset n bits) bits numbers) = length bits.
Proof.
  revert bits. induction numbers as [|n numbers IH]; intros bits; [done|].
  cbn [foldl]. rewrite IH. apply length_insert.
Qed.

(** The operands left unaccounted are those no pair cleared. *)
Lemma elem_of_set_bits_unpaired (owner : Op)
    (pairs : list ((OpOperand * Value) * Value)) (index : nat) :
  index ∈ set_bits (unpaired ir owner pairs)
  ↔ index < length (getOperands ir owner) ∧ index ∉ pairedNumbers pairs.
Proof.
  rewrite elem_of_set_bits. unfold unpaired. rewrite lookup_resets.
  unfold bitVector. case_decide as Hin.
  - split; [|by intros [_ ?]].
    destruct (replicate _ _ !! index); by cbn.
  - split.
    + intros Hbit. apply lookup_lt_Some in Hbit.
      by rewrite length_replicate in Hbit.
    + intros [Hlt _]. by apply lookup_replicate_2.
Qed.

Lemma elem_of_visitUnaccounted (owner : Op) (bits : BitVector) (a : Action) :
  a ∈ Backward.visitUnaccounted owner bits
  ↔ ∃ index, index ∈ set_bits bits ∧
      a = VisitBranchOperand {| operandOwner := owner; operandNumber := index |}.
Proof.
  unfold Backward.visitUnaccounted. rewrite list_elem_of_fmap.
  split; intros (i & ? & ?); by exists i.
Qed.

Lemma occurrences_visitUnaccounted (owner : Op) (bits : BitVector) (index : nat) :
  occurrences
    (VisitBranchOperand {| operandOwner := owner; operandNumber := index |})
    (Backward.visitUnaccounted owner bits)
  = if decide (index ∈ set_bits bits) then 1 else 0.
Proof.
  case_decide as Hin.
  - apply occurrences_NoDup.
    + unfold Backward.visitUnaccounted. apply NoDup_fmap_2; [|apply NoDup_set_bits].
      by intros ? ? [= ->].
    + apply elem_of_visitUnaccounted. by exists index.
  - apply occurrences_not_elem.
    intros (i & Hi & [= ->])%elem_of_visitUnaccounted. done.
Qed.

(** The commands issued for a list of pairs: fetches, dependencies on the
    point, and one meet per pair. *)
Lemma elem_of_pairMeets (point : Op) (pairs : list ((OpOperand * Value) * Value))
    (a : Action) :
  a ∈ pairMeets point pairs
  ↔ ∃ slot operand input, ((slot, operand), input) ∈ pairs ∧
      (a = GetLatticeElement operand ∨ a = GetLatticeElement input ∨
       a = AddDependency input (PPOperation point) ∨ a = Meet operand input).
Proof.
  unfold pairMeets. rewrite list_elem_of_bind. split.
  - intros ([[slot operand] input] & Ha & Hin). exists slot, operand, input.
    split; [done|]. unfold Backward.meetOperand, getLatticeElementFor in Ha.
    cbn [fst snd app] in Ha. rewrite !elem_of_cons, elem_of_nil in Ha. tauto.
  - intros (slot & operand & input & Hin & Ha). exists ((slot, operand), input).
    split; [|done]. unfold Backward.meetOperand, getLatticeElementFor.
    cbn [fst snd app]. rewrite !elem_of_cons. tauto.
Qed.

Lemma entrySuccessorPairs_operand (branch : Op) (slot : OpOperand)
    (operand input : Value) :
  ((slot, operand), input) ∈ entrySuccessorPairs ir branch →
  operandOwner slot = branch ∧
  getOperands ir branch !! operandNumber slot = Some operand.
Proof.
  intros (successor & Hin & _)%list_elem_of_bind.
  apply elem_of_zip_l in Hin.
  by apply elem_of_rangeOpOperands in Hin as (? & ? & _).
Qed.

Lemma terminatorSuccessorPairs_operand (terminator : Op) (slot : OpOperand)
    (operand input : Value) :
  ((slot, operand), input) ∈ terminatorSuccessorPairs ir terminator →
  operandOwner slot = terminator ∧
  getOperands ir terminator !! operandNumber slot = Some operand.
Proof.
  intros (successor & Hin & _)%list_elem_of_bind.
  apply elem_of_zip_l in Hin.
  by apply elem_of_rangeOpOperands in Hin as (? & ? & _).
Qed.

End BackwardRegion.

(** ** What the drivers can emit *)

(** A property of command sequences that holds of the empty sequence and is
    kept by concatenation holds of a run as soon as it holds of its
    pieces. *)
Section Pieces.

Variable P : list Action → Prop.
Hypothesis P_nil : P [].
Hypothesis P_app : ∀ t1 t2, P t1 → P t2 → P (t1 ++ t2).

Lemma pieces_andThen (r1 r2 : Run) :
  P (trace r1) → P (trace r2) → P (trace (r1 >>> r2)).
Proof.
  destruct r1 as [t1 []], r2 as [t2 o2]; unfold andThen, trace; cbn; [|done].
  apply P_app.
Qed.

Lemma pieces_forEach {A} (body : A → Run) (items : list A) :
  (∀ item, item ∈ items → P (trace (body item))) →
  P (trace (forEach body items)).
Proof.
  induction items as [|item items IH]; intros Hbody; [done|].
  cbn [forEach foldr]. apply pieces_andThen; [apply Hbody; by left|].
  apply IH. intros ? ?. apply Hbody. by right.
Qed.

Lemma pieces_bind {A} (f : A → list Action) (items : list A) :
  (∀ item, item ∈ items → P (f item)) → P (items ≫= f).
Proof.
  induction items as [|item items IH]; intros Hf; [done|].
  rewrite bind_cons. apply P_app; [apply Hf; by left|].
  apply IH. intros ? ?. apply Hf. by right.
Qed.

Lemma pieces_fmap {A} (f : A → Action) (items : list A) :
  (∀ item, item ∈ items → P [f item]) → P (f <$> items).
Proof.
  induction items as [|item items IH]; intros Hf; [done|].
  rewrite fmap_cons. apply (P_app [_]); [apply Hf; by left|].
  apply IH. intros ? ?. apply Hf. by right.
Qed.

Lemma pieces_assert (NDEBUG condition : bool) (message : string) :
  P (trace (assert NDEBUG condition message)).
Proof. unfold assert. by destruct (NDEBUG || condition). Qed.

Lemma pieces_cons (a : Action) (t : list Action) : P [a] → P t → P (a :: t).
Proof. apply (P_app [a]). Qed.

(** *** The forward driver *)

Section ForwardPieces.

Context (ir : IR) (dc : DeadCodeStates) (NDEBUG : bool) (point : ProgramPoint).

Hypothesis P_bookkeeping : ∀ a, bookkeeping a = true → P [a].
Hypothesis P_join : ∀ lhs rhs,
  lhs ∈ targets ir point → P (Forward.joinFrom point lhs rhs).
Hypothesis P_entry : ∀ lattice,
  lattice ∈ targets ir point → P [SetToEntryState lattice].
Hypothesis P_transfer : ∀ op,
  point = PPOperation op →
  getNumResults ir op ≠ 0 →
  isLive dc (blockPoint (getBlock ir op)) = true →
  isRegionBranchOp ir op = false →
  isCallOp ir op = false →
  P [VisitOperationImpl op (getOperands ir op) (getResults ir op)].
Hypothesis P_arguments : ∀ op successor firstIndex,
  P [VisitNonControlFlowArgumentsImpl op successor (targets ir point) firstIndex].

Lemma pieces_setAllToEntryStates :
  P (trace (Forward.setAllToEntryStates (targets ir point))).
Proof. apply pieces_fmap. intros ? ?. by apply P_entry. Qed.

Lemma pieces_getLatticeElements (values : list Value) :
  P (GetLatticeElement <$> values).
Proof. apply pieces_fmap. intros ? _. by apply P_bookkeeping. Qed.

Lemma pieces_forward_visitRegionSuccessors (branch : Op)
    (successorIndex : option nat) :
  P (trace (Forward.visitRegionSuccessors ir dc NDEBUG point branch successorIndex
              (targets ir point))).
Proof.
  unfold Forward.visitRegionSuccessors.
  apply pieces_andThen; [by apply P_bookkeeping|].
  apply pieces_andThen; [apply pieces_assert|].
  induction (getKnownPredecessors dc point) as [|op rest IH]; [done|].
  cbn [Forward.visitRegionSuccessorsLoop].
  destruct (Forward.incomingSuccessorOperands _ _ _ _) as [operands|];
    [|apply pieces_setAllToEntryStates].
  apply pieces_andThen; [apply pieces_assert|].
  destruct (Forward.alignSuccessorInputs _ _ _ _ _) as [aligned|] eqn:Haligned;
    [|done].
  apply pieces_andThen;
    [|apply pieces_andThen; [|apply pieces_andThen; [|done]]].
  - unfold Forward.alignSuccessorInputs, Forward.sliceChecked in Haligned.
    case_decide; [by injection Haligned as <-|].
    destruct point, (getSuccessorInputs dc _ op) as [|[] ?];
      try done; case_decide; try done;
      injection Haligned as <-; apply P_arguments.
  - by case_decide.
  - apply pieces_bind. intros [operand lattice] Hin. apply P_join.
    apply elem_of_zip_r in Hin. by apply (subseteq_drop _ _ _) in Hin.
Qed.

Lemma pieces_forward_visitOperation (op : Op) :
  point = PPOperation op → P (trace (Forward.visitOperation ir dc NDEBUG op)).
Proof.
  intros Hpoint. unfold Forward.visitOperation. case_decide; [done|].
  apply pieces_andThen; [by apply P_bookkeeping|].
  destruct (isLive dc _) eqn:Hlive; [|done]. cbn [negb].
  apply pieces_andThen; [apply pieces_getLatticeElements|].
  destruct (isRegionBranchOp ir op) eqn:Hregionbranch.
  { pose proof (pieces_forward_visitRegionSuccessors op None) as Hregion.
    by rewrite Hpoint in Hregion. }
  destruct (isCallOp ir op) eqn:Hcall.
  - apply pieces_andThen; [by apply P_bookkeeping|].
    destruct (negb _).
    + pose proof pieces_setAllToEntryStates as Hentry. by rewrite Hpoint in Hentry.
    + apply pieces_bind. intros predecessor _.
      apply pieces_bind. intros [operand lattice] Hin.
      rewrite <- Hpoint. apply P_join. rewrite Hpoint.
      by apply elem_of_zip_r in Hin.
  - apply pieces_andThen.
    + apply pieces_bind. intros operand _.
      apply pieces_cons; by apply P_bookkeeping.
    + by apply P_transfer.
Qed.

Lemma pieces_forward_visitBlock (block : Block) :
  point = PPBlock block → P (trace (Forward.visitBlock ir dc NDEBUG block)).
Proof.
  intros Hpoint. unfold Forward.visitBlock. case_decide; [done|].
  apply pieces_andThen; [by apply P_bookkeeping|].
  destruct (negb _); [done|].
  apply pieces_andThen; [apply pieces_getLatticeElements|].
  pose proof pieces_setAllToEntryStates as Hentry. rewrite Hpoint in Hentry.
  destruct (isEntryBlock ir block).
  - destruct (_ && _).
    + apply pieces_andThen; [by apply P_bookkeeping|].
      destruct (negb _); [done|].
      apply pieces_forEach. intros callsite _. unfold Forward.visitCallSite.
      destruct (isCallOp ir callsite); [|done].
      apply pieces_bind. intros [operand lattice] Hin.
      rewrite <- Hpoint. apply P_join. rewrite Hpoint.
      by apply elem_of_zip_r in Hin.
    + destruct (isRegionBranchOp ir _).
      * pose proof (pieces_forward_visitRegionSuccessors (blockParentOp ir block)
                      (Some (getRegionNumber ir (blockParent ir block)))) as Hregion.
        by rewrite Hpoint in Hregion.
      * pose proof (P_arguments (blockParentOp ir block)
                      {| successorRegion := Some (blockParent ir block);
                         successorInputs := [] |} 0) as Harguments.
        by rewrite Hpoint in Harguments.
  - induction (getPredecessors ir block) as [|[predecessor index] rest IH];
      [done|].
    cbn [Forward.visitPredecessors].
    apply pieces_andThen.
    { apply pieces_cons; by apply P_bookkeeping. }
    destruct (negb _); [done|].
    destruct (isBranchOp ir _); [|done].
    apply pieces_andThen; [|done].
    apply pieces_forEach. intros [i lattice] Hin.
    apply list_elem_of_lookup in Hin as [k Hk].
    apply list_lookup_imap_Some in Hk as (l & Hl & [= -> ->]).
    apply list_elem_of_lookup_2 in Hl.
    destruct (successorOperandAt _ _ _ _) as [[operand|]|]; [| |done].
    + rewrite <- Hpoint. apply P_join. by rewrite Hpoint.
    + apply P_entry. by rewrite Hpoint.
Qed.

(** Every command of a forward visit lies in one of the pieces. *)
Lemma pieces_forward_visit : P (trace (Forward.visit ir dc NDEBUG point).2).
Proof.
  assert (∀ p, point = p → P (trace (Forward.visit ir dc NDEBUG p).2)) as Hany.
  { intros [op|block| | |] Hpoint; cbn [Forward.visit snd]; try done.
    - by apply pieces_forward_visitOperation.
    - by apply pieces_forward_visitBlock. }
  by apply Hany.
Qed.

End ForwardPieces.

(** *** The backward driver *)

Section BackwardPieces.

Context (ir : IR) (dc : DeadCodeStates) (NDEBUG : bool) (op : Op).

Hypothesis P_bookkeeping : ∀ a, bookkeeping a = true → P [a].
Hypothesis P_meetOperand : ∀ operand value,
  operand ∈ getOperands ir op →
  P (Backward.meetOperand (PPOperation op) operand value).
Hypothesis P_meetFrom : ∀ lattice value,
  lattice ∈ getOperands ir op →
  P (Backward.meetFrom (PPOperation op) lattice value).
Hypothesis P_meetResults : ∀ values,
  P (Backward.getLatticeElementsFor (PPOperation op) values
       ++ ((λ it : Value * Value, Meet it.1 it.2)
             <$> zip (getOperands ir op) values)).
Hypothesis P_exit : ∀ lattice,
  lattice ∈ getOperands ir op → P [SetToExitState lattice].
Hypothesis P_branchOperand : ∀ index,
  index < length (getOperands ir op) →
  P [VisitBranchOperand {| operandOwner := op; operandNumber := index |}].
Hypothesis P_transfer :
  isLive dc (blockPoint (getBlock ir op)) = true →
  controlFlowCase ir op = false →
  P [BackwardVisitOperationImpl op (getOperands ir op) (getResults ir op)].

Lemma pieces_pairMeets (pairs : list ((OpOperand * Value) * Value)) :
  (∀ slot operand input,
     ((slot, operand), input) ∈ pairs → operand ∈ getOperands ir op) →
  P (pairMeets op pairs).
Proof.
  intros Hpairs. apply pieces_bind. intros [[slot operand] input] Hin.
  apply P_meetOperand. by apply (Hpairs slot operand input).
Qed.

Lemma pieces_visitUnaccounted (bits : BitVector) :
  length bits = length (getOperands ir op) →
  P (Backward.visitUnaccounted op bits).
Proof.
  intros Hlength. apply pieces_fmap. intros index Hin. apply P_branchOperand.
  apply elem_of_set_bits, lookup_lt_Some in Hin. by rewrite <- Hlength.
Qed.

Lemma pieces_unpaired (pairs : list ((OpOperand * Value) * Value)) :
  P (Backward.visitUnaccounted op (unpaired ir op pairs)).
Proof.
  apply pieces_visitUnaccounted. unfold unpaired, bitVector.
  by rewrite length_resets, length_replicate.
Qed.

Lemma pieces_visitReturnOrOrdinary :
  isLive dc (blockPoint (getBlock ir op)) = true →
  isRegionBranchOp ir op = false →
  isBranchOp ir op = false →
  resolvesToCallable ir op = false →
  isRegionBranchTerminatorOp ir op && parentIs ir (isRegionBranchOp ir) op = false →
  P (trace (Backward.visitReturnOrOrdinary ir dc op (getOperands ir op))).
Proof.
  intros Hlive Hregionbranch Hbranch Hcall Hterminator.
  assert (hasReturnLikeTrait ir op && parentIs ir (isCallableOp ir) op = false →
          P [BackwardVisitOperationImpl op (getOperands ir op) (getResults ir op)])
    as Hordinary.
  { intros Hreturn. apply P_transfer; [done|]. unfold controlFlowCase.
    by rewrite Hregionbranch, Hbranch, Hcall, Hterminator, Hreturn. }
  unfold Backward.visitReturnOrOrdinary, parentIs in *.
  destruct (hasReturnLikeTrait ir op); [|by apply Hordinary].
  destruct (getParentOp ir op) as [callable|]; [|done].
  destruct (isCallableOp ir callable); [|by apply Hordinary].
  apply pieces_andThen; [by apply P_bookkeeping|].
  destruct (allPredecessorsKnown dc _).
  - apply pieces_bind. intros call _. apply P_meetResults.
  - apply pieces_fmap. intros lattice Hin. by apply P_exit.
Qed.

Lemma pieces_visitTerminatorOrLater :
  isLive dc (blockPoint (getBlock ir op)) = true →
  isRegionBranchOp ir op = false →
  isBranchOp ir op = false →
  resolvesToCallable ir op = false →
  P (trace (Backward.visitTerminatorOrLater ir dc NDEBUG op (getOperands ir op))).
Proof.
  intros Hlive Hregionbranch Hbranch Hcall.
  unfold Backward.visitTerminatorOrLater.
  destruct (isRegionBranchTerminatorOp ir op) eqn:Hterminator;
    [|by apply pieces_visitReturnOrOrdinary; rewrite ?Hterminator].
  destruct (getParentOp ir op) as [parent|] eqn:Hparent; [|done].
  destruct (isRegionBranchOp ir parent) eqn:Hparentbranch.
  2:{ apply pieces_visitReturnOrOrdinary; try done.
      unfold parentIs. by rewrite Hterminator, Hparent, Hparentbranch. }
  rewrite (visitRegionSuccessorsFromTerminator_eq ir NDEBUG) by done.
  apply P_app; [|apply pieces_unpaired].
  apply pieces_pairMeets. intros slot operand input Hin.
  apply terminatorSuccessorPairs_operand in Hin as [_ Hin].
  by apply list_elem_of_lookup_2 in Hin.
Qed.

(** Every command of a backward visit lies in one of the pieces. *)
Lemma pieces_backward_visitOperation :
  P (trace (Backward.visitOperation ir dc NDEBUG op)).
Proof.
  unfold Backward.visitOperation.
  apply pieces_andThen; [by apply P_bookkeeping|].
  case_eq (isLive dc (blockPoint (getBlock ir op))); intros Hlive; [|done].
  cbn [negb].
  apply pieces_andThen.
  { apply pieces_fmap. intros ? _. by apply P_bookkeeping. }
  apply pieces_andThen.
  { apply pieces_bind. intros ? _. apply pieces_cons; by apply P_bookkeeping. }
  destruct (isRegionBranchOp ir op) eqn:Hregionbranch.
  { rewrite visitRegionSuccessors_eq. apply P_app; [|apply pieces_unpaired].
    apply pieces_pairMeets. intros slot operand input Hin.
    apply entrySuccessorPairs_operand in Hin as [_ Hin].
    by apply list_elem_of_lookup_2 in Hin. }
  destruct (isBranchOp ir op) eqn:Hbranch.
  { unfold Backward.visitBranch. rewrite forwardToSuccessors_eq. cbn [fst snd].
    apply pieces_andThen.
    - apply pieces_bind. intros successor _. unfold Backward.successorMeets.
      apply pieces_bind. intros [slot value] Hin.
      destruct (getBranchSuccessorArgument _ _ _ _); [|done].
      apply P_meetOperand.
      apply elem_of_rangeOpOperands in Hin as (_ & Hin & _).
      by apply list_elem_of_lookup_2 in Hin.
    - apply pieces_visitUnaccounted. unfold bitVector.
      by rewrite length_resets, length_replicate. }
  destruct (resolvesToCallable ir op) eqn:Hresolves.
  - unfold resolvesToCallable in Hresolves. unfold Backward.visitCallOrLater.
    destruct (isCallOp ir op); [|done].
    destruct (resolveCallable ir op) as [callableOp|]; [|done].
    cbn in Hresolves. rewrite Hresolves.
    destruct (_ ≫= _) as [block|]; [|done].
    apply pieces_bind. intros [argument lattice] Hin. apply P_meetFrom.
    by apply elem_of_zip_r in Hin.
  - rewrite visitCallOrLater_unresolved by done.
    by apply pieces_visitTerminatorOrLater.
Qed.

End BackwardPieces.

End Pieces.

(** ** What a visit writes and what it depends on *)

Section VisitFootprint.

Context {L : Type} `{EqDecision L}.
Context (ir : IR) (dc : DeadCodeStates) (NDEBUG : bool).
Context (analysis : Analysis L) (self : AnalysisId).

#[local] Abbreviation valueOf := (valueOf analysis).
#[local] Abbreviation elementOf := (elementOf analysis).
#[local] Abbreviation execAll := (execAll ir analysis self).
#[local] Abbreviation update := (update ir analysis).
#[local] Abbreviation run := (run ir dc NDEBUG analysis self).

Lemma writes_bookkeeping (a : Action) (owned : list Value) :
  bookkeeping a = true → writes ir a ⊆ owned.
Proof. destruct a; try done; intros _ ? []%elem_of_nil. Qed.

Lemma writes_singleton (a : Action) (lattice : Value) (owned : list Value) :
  writes ir a = [lattice] → lattice ∈ owned → writes ir a ⊆ owned.
Proof. intros -> Hin ? ->%list_elem_of_singleton. done. Qed.

Lemma writes_forward_visit (point : ProgramPoint) :
  Forall (λ a, writes ir a ⊆ targets ir point)
    (trace (Forward.visit ir dc NDEBUG point).2).
Proof.
  apply pieces_forward_visit.
  - constructor.
  - intros t1 t2. apply Forall_app_2.
  - intros a Ha. repeat constructor. by apply writes_bookkeeping.
  - intros lhs rhs Hin. repeat constructor; try by apply writes_bookkeeping.
    by apply (writes_singleton _ lhs).
  - intros lattice Hin. repeat constructor. by apply (writes_singleton _ lattice).
  - intros op -> _ _ _ _. by repeat constructor.
  - intros op successor firstIndex. by repeat constructor.
Qed.

(** X1: a forward visit writes only the lattices of its own point: those of
    the results of the operation visited, those of the arguments of the
    block visited.  Every other lattice value is after the visit what it
    was before. *)
Theorem forward_visit_writes_only_its_own_lattices (point : ProgramPoint)
    (s : Solver L) :
  Forall (λ a, writes ir a ⊆ targets ir point)
    (trace (Forward.visit ir dc NDEBUG point).2) ∧
  ∀ v, v ∉ targets ir point → valueOf (run point s) v = valueOf s v.
Proof.
  split; [apply writes_forward_visit|]. intros v Hv.
  apply (execAll_frame_within _ _ _ (targets ir point)); [|done].
  apply writes_forward_visit.
Qed.

(** X2: a backward visit of an operation writes only the lattices of the
    operands of that operation; every other lattice value is after the visit
    what it was before. *)
Theorem backward_visit_writes_only_operand_lattices (op : Op) (s : Solver L) :
  Forall (λ a, writes ir a ⊆ getOperands ir op)
    (trace (Backward.visitOperation ir dc NDEBUG op)) ∧
  ∀ v, v ∉ getOperands ir op →
    valueOf (execAll (trace (Backward.visitOperation ir dc NDEBUG op)) s) v
    = valueOf s v.
Proof.
  assert (Forall (λ a, writes ir a ⊆ getOperands ir op)
            (trace (Backward.visitOperation ir dc NDEBUG op))) as Hwrites.
  { apply pieces_backward_visitOperation.
    - constructor.
    - intros t1 t2. apply Forall_app_2.
    - intros a Ha. repeat constructor. by apply writes_bookkeeping.
    - intros operand value Hin. repeat constructor; try by apply writes_bookkeeping.
      by apply (writes_singleton _ operand).
    - intros lattice value Hin. repeat constructor; try by apply writes_bookkeeping.
      by apply (writes_singleton _ lattice).
    - intros values. apply Forall_app_2.
      + apply Forall_forall. intros a (v & Ha & _)%list_elem_of_bind.
        apply writes_bookkeeping.
        by apply elem_of_cons in Ha as [->|[->|[]%elem_of_nil]%elem_of_cons].
      + apply Forall_fmap, Forall_forall. intros [lhs rhs] Hin.
        apply (writes_singleton _ lhs); [done|]. by apply elem_of_zip_l in Hin.
    - intros lattice Hin. repeat constructor. by apply (writes_singleton _ lattice).
    - intros index Hindex. repeat constructor. cbn.
      destruct (getOperands ir op !! index) as [value|] eqn:Hvalue; cbn.
      + intros ? ->%list_elem_of_singleton. by apply list_elem_of_lookup_2 in Hvalue.
      + by intros ? []%elem_of_nil.
    - intros _ _. by repeat constructor. }
  split; [done|]. intros v Hv. by apply (execAll_frame_within _ _ _ (getOperands ir op)).
Qed.

(** *** Dependencies *)

Lemma registeredBefore_app (read : Value → Value → Action) (point : ProgramPoint)
    (t1 t2 : list Action) :
  registeredBefore read point t1 → registeredBefore read point t2 →
  registeredBefore read point (t1 ++ t2).
Proof.
  intros H1 H2 i lhs rhs [Hi|[Hlength Hi]]%lookup_app_Some.
  - destruct (H1 i lhs rhs Hi) as (j & Hj & Hdep). exists j. split; [done|].
    by apply lookup_app_l_Some.
  - destruct (H2 _ lhs rhs Hi) as (j & Hj & Hdep). exists (length t1 + j).
    split; [lia|]. rewrite lookup_app_r by lia.
    by replace (length t1 + j - length t1) with j by lia.
Qed.

Lemma registeredBefore_other (read : Value → Value → Action)
    (point : ProgramPoint) (a : Action) :
  (∀ lhs rhs, a ≠ read lhs rhs) → registeredBefore read point [a].
Proof.
  intros Hother [|i] lhs rhs Hi; [|done]. injection Hi as ->.
  by destruct (Hother lhs rhs).
Qed.

Lemma registeredBefore_elem (read : Value → Value → Action)
    (point : ProgramPoint) (t : list Action) (lhs rhs : Value) :
  registeredBefore read point t → read lhs rhs ∈ t → AddDependency rhs point ∈ t.
Proof.
  intros Ht [i Hi]%list_elem_of_lookup.
  destruct (Ht i lhs rhs Hi) as (j & _ & Hj). by apply list_elem_of_lookup_2 in Hj.
Qed.

(** When a lattice a point depends on changes, the point is re-enqueued. *)
Lemma registered_point_enqueued (t : list Action) (s : Solver L)
    (point : ProgramPoint) (rhs : Value) :
  AddDependency rhs point ∈ t →
  (point, self) ∈ dependents (elementOf (execAll t s) rhs) ∧
  ∀ new, new ≠ valueOf (execAll t s) rhs →
    (point, self) ∈ worklist (update rhs new (execAll t s, [])).1.
Proof.
  intros Hin.
  pose proof (dependents_execAll_registered ir analysis self t s rhs point Hin).
  split; [done|]. intros new Hnew. by apply update_enqueues_dependent.
Qed.

(** X3: a forward visit joins from a lattice only after it made the point
    visited a dependent of that lattice ([getLatticeElementFor]).  So after
    the visit the point is among the dependents of every lattice it joined
    from, and a later change of such a lattice puts the point back on the
    queue. *)
Theorem forward_join_registers_dependency (point : ProgramPoint) (s : Solver L) :
  registeredBefore Join point (trace (Forward.visit ir dc NDEBUG point).2) ∧
  ∀ lhs rhs, Join lhs rhs ∈ trace (Forward.visit ir dc NDEBUG point).2 →
    (point, self) ∈ dependents (elementOf (run point s) rhs) ∧
    ∀ new, new ≠ valueOf (run point s) rhs →
      (point, self) ∈ worklist (update rhs new (run point s, [])).1.
Proof.
  assert (registeredBefore Join point (trace (Forward.visit ir dc NDEBUG point).2))
    as Hregistered.
  { apply pieces_forward_visit.
    - by intros [|?].
    - apply registeredBefore_app.
    - intros a Ha. apply registeredBefore_other. intros ? ? ->. done.
    - intros lhs rhs _ [|[|[|i]]] l r Hi; try done.
      injection Hi as -> ->. exists 1. split; [lia|done].
    - intros ? _. by apply registeredBefore_other.
    - intros ? _ _ _ _ _. by apply registeredBefore_other.
    - intros ? ? ?. by apply registeredBefore_other. }
  split; [done|]. intros lhs rhs Hin.
  apply registered_point_enqueued. by apply (registeredBefore_elem Join _ _ lhs).
Qed.

(** X4: a backward visit of an operation meets with a lattice only after it
    made the operation a dependent of that lattice.  So after the visit the
    operation is among the dependents of every lattice it met with, and a
    later change of such a lattice puts the operation back on the queue. *)
Theorem backward_meet_registers_dependency (op : Op) (s : Solver L) :
  registeredBefore Meet (PPOperation op)
    (trace (Backward.visitOperation ir dc NDEBUG op)) ∧
  ∀ lhs rhs, Meet lhs rhs ∈ trace (Backward.visitOperation ir dc NDEBUG op) →
    let s' := execAll (trace (Backward.visitOperation ir dc NDEBUG op)) s in
    (PPOperation op, self) ∈ dependents (elementOf s' rhs) ∧
    ∀ new, new ≠ valueOf s' rhs →
      (PPOperation op, self) ∈ worklist (update rhs new (s', [])).1.
Proof.
  assert (registeredBefore Meet (PPOperation op)
            (trace (Backward.visitOperation ir dc NDEBUG op))) as Hregistered.
  { apply pieces_backward_visitOperation.
    - by intros [|?].
    - apply registeredBefore_app.
    - intros a Ha. apply registeredBefore_other. intros ? ? ->. done.
    - intros operand value _ [|[|[|[|i]]]] l r Hi; try done.
      injection Hi as -> ->. exists 2. split; [lia|done].
    - intros lattice value _ [|[|[|i]]] l r Hi; try done.
      injection Hi as -> ->. exists 1. split; [lia|done].
    - intros values i lhs rhs [Hi|[Hlength Hi]]%lookup_app_Some.
      { apply list_elem_of_lookup_2, list_elem_of_bind in Hi as (v & Hi & _).
        by apply elem_of_cons in Hi as [?|[?|[]%elem_of_nil]%elem_of_cons]. }
      apply list_lookup_fmap_Some in Hi as ([l r] & Hmeet & Hi).
      cbn [fst snd] in Hmeet. injection Hmeet as Hl Hr. subst l r.
      apply list_elem_of_lookup_2, elem_of_zip_r in Hi.
      assert (AddDependency rhs (PPOperation op)
                ∈ Backward.getLatticeElementsFor (PPOperation op) values)
        as [j Hj]%list_elem_of_lookup.
      { apply list_elem_of_bind. exists rhs. split; [|done].
        unfold getLatticeElementFor. by right; left. }
      exists j. split; [apply lookup_lt_Some in Hj; lia|].
      by apply lookup_app_l_Some.
    - intros ? _. by apply registeredBefore_other.
    - intros ? _. by apply registeredBefore_other.
    - intros _ _. by apply registeredBefore_other. }
  split; [done|]. intros lhs rhs Hin.
  apply registered_point_enqueued. by apply (registeredBefore_elem Meet _ _ lhs).
Qed.

End VisitFootprint.

(** ** Subscriptions *)

Section Subscriptions.

Context {L : Type} `{EqDecision L}.
Context (ir : IR) (dc : DeadCodeStates) (NDEBUG : bool).
Context (analysis : Analysis L) (self : AnalysisId).

#[local] Abbreviation valueOf := (valueOf analysis).
#[local] Abbreviation elementOf := (elementOf analysis).
#[local] Abbreviation execAll := (execAll ir analysis self).
#[local] Abbreviation update := (update ir analysis).
#[local] Abbreviation run := (run ir dc NDEBUG analysis self).

(** The operation is neither a region-branch operation nor a call, lines
    119-129. *)
Lemma forward_visitOperation_ordinary (op : Op) :
  getNumResults ir op ≠ 0 →
  isLive dc (blockPoint (getBlock ir op)) = true →
  isRegionBranchOp ir op = false →
  isCallOp ir op = false →
  Forward.visitOperation ir dc NDEBUG op
  = ((GetExecutable (blockPoint (getBlock ir op))
        :: (GetLatticeElement <$> getResults ir op)
        ++ (operand ← getOperands ir op;
            [GetLatticeElement operand; UseDefSubscribe operand]))
       ++ [VisitOperationImpl op (getOperands ir op) (getResults ir op)],
     Finished).
Proof.
  intros Hresults Hlive Hrb Hcall. unfold Forward.visitOperation.
  rewrite decide_False by done. rewrite Hlive, Hrb, Hcall. cbn [negb].
  rewrite !emit_andThen. cbn [fst snd emit app]. by rewrite <- !app_assoc.
Qed.

(** X5: for an operation with results, in a live block, that is neither a
    region-branch operation nor a call, the forward visit subscribes the
    analysis to the lattice of every operand and then invokes the transfer
    function once, as its last command and the only one that writes.  After
    the visit the analysis is a use-def subscriber of every operand lattice,
    so a later change of an operand the operation uses puts the operation
    back on the queue. *)
Theorem transfer_function_subscribes_to_operands (op : Op) (s : Solver L) :
  getNumResults ir op ≠ 0 →
  isLive dc (blockPoint (getBlock ir op)) = true →
  isRegionBranchOp ir op = false →
  isCallOp ir op = false →
  (∃ before,
     Forward.visitOperation ir dc NDEBUG op
     = (before ++ [VisitOperationImpl op (getOperands ir op) (getResults ir op)],
        Finished) ∧
     forallb bookkeeping before = true) ∧
  ∀ operand, operand ∈ getOperands ir op →
    self ∈ useDefSubscribers (elementOf (run (PPOperation op) s) operand) ∧
    (op ∈ getUsers ir operand →
     ∀ new, new ≠ valueOf (run (PPOperation op) s) operand →
       (PPOperation op, self)
         ∈ worklist (update operand new (run (PPOperation op) s, [])).1).
Proof.
  intros Hresults Hlive Hrb Hcall.
  pose proof (forward_visitOperation_ordinary op Hresults Hlive Hrb Hcall) as Hvisit.
  split.
  - eexists. split; [exact Hvisit|].
    cbn [forallb bookkeeping andb]. rewrite forallb_app.
    apply andb_true_iff. split; apply forallb_forall; intros a Ha;
      apply list_elem_of_In in Ha.
    + by apply list_elem_of_fmap in Ha as (v & -> & _).
    + apply list_elem_of_bind in Ha as (v & Ha & _).
      by apply elem_of_cons in Ha as [->|[->|[]%elem_of_nil]%elem_of_cons].
  - intros operand Hoperand.
    assert (self ∈ useDefSubscribers (elementOf (run (PPOperation op) s) operand))
      as Hsubscribed.
    { unfold run. apply subscribers_execAll_registered.
      cbn [Forward.visit snd]. rewrite Hvisit. unfold trace; cbn [fst].
      apply elem_of_app. left. right. apply elem_of_app. right.
      apply list_elem_of_bind. exists operand. split; [|done]. by right; left. }
    split; [done|]. intros Huser new Hnew. by apply update_enqueues_user.
Qed.

(** What the backward visit of an operation in a live block starts with. *)
Lemma backward_visitOperation_prologue (op : Op) :
  isLive dc (blockPoint (getBlock ir op)) = true →
  ∃ rest, trace (Backward.visitOperation ir dc NDEBUG op)
          = Backward.prologue ir op ++ rest.
Proof.
  intros Hlive. unfold Backward.visitOperation. rewrite Hlive. cbn [negb].
  rewrite !emit_andThen. cbn [fst snd]. unfold trace, Backward.prologue.
  cbn [fst app]. eexists. by rewrite <- app_assoc.
Qed.

(** X6: the backward visit of an operation in a live block makes the
    operation a dependent of the lattice of each of its results, whatever
    the kind of the operation: a later change of a result lattice puts the
    operation back on the queue. *)
Theorem backward_visit_depends_on_results (op : Op) (s : Solver L)
    (result : Value) :
  isLive dc (blockPoint (getBlock ir op)) = true →
  result ∈ getResults ir op →
  AddDependency result (PPOperation op)
    ∈ trace (Backward.visitOperation ir dc NDEBUG op) ∧
  (PPOperation op, self)
    ∈ dependents
        (elementOf (execAll (trace (Backward.visitOperation ir dc NDEBUG op)) s)
           result) ∧
  ∀ new,
    new ≠ valueOf (execAll (trace (Backward.visitOperation ir dc NDEBUG op)) s)
            result →
    (PPOperation op, self)
      ∈ worklist
          (update result new
             (execAll (trace (Backward.visitOperation ir dc NDEBUG op)) s, [])).1.
Proof.
  intros Hlive Hresult.
  assert (AddDependency result (PPOperation op)
            ∈ trace (Backward.visitOperation ir dc NDEBUG op)) as Hin.
  { destruct (backward_visitOperation_prologue op Hlive) as [rest ->].
    apply elem_of_app. left. unfold Backward.prologue. right.
    apply elem_of_app. right. apply list_elem_of_bind. exists result.
    split; [|done]. by right; left. }
  split; [done|].
  pose proof (dependents_execAll_registered ir analysis self _ s result _ Hin).
  split; [done|]. intros new Hnew. by apply update_enqueues_dependent.
Qed.

End Subscriptions.

(** ** The forward driver over a semilattice *)

Section ForwardSoundness.

Context {L : Type} `{EqDecision L}.
Context (ir : IR) (dc : DeadCodeStates) (NDEBUG : bool).
Context (analysis : Analysis L) (self : AnalysisId).
Context (monotone : MonotoneAnalysis analysis).

#[local] Abbreviation valueOf := (valueOf analysis).
#[local] Abbreviation exec := (exec ir analysis self).
#[local] Abbreviation execAll := (execAll ir analysis self).
#[local] Abbreviation run := (run ir dc NDEBUG analysis self).

#[local] Notation "x ⪯ y" := (latticeJoin analysis x y = y) (at level 70).

(** X7: with a semilattice whose top is the entry state and transfer
    functions that only move lattices upwards, a forward visit lowers no
    lattice: every lattice value after the visit is above the value
    before. *)
Theorem forward_visit_is_inflationary (point : ProgramPoint) (s : Solver L)
    (v : Value) :
  valueOf s v ⪯ valueOf (run point s) v.
Proof. apply execAll_inflationary; [done|]. apply forwardAction_visit. Qed.

(** Among commands of the forward driver, a lattice set to the entry state
    stays there. *)
Lemma widened_stays (t : list Action) (s : Solver L) (lattice : Value) :
  Forall forwardAction t → SetToEntryState lattice ∈ t →
  valueOf (execAll t s) lattice = entryState analysis lattice.
Proof.
  intros Hforward (t1 & t2 & ->)%list_elem_of_split.
  apply Forall_app in Hforward as [_ Hforward].
  apply Forall_cons in Hforward as [_ Hforward].
  rewrite execAll_app, execAll_cons. symmetry.
  apply (below_antisym analysis monotone); [|apply (entryState_top _ monotone)].
  pose proof (execAll_inflationary ir analysis self monotone t2
                (exec (SetToEntryState lattice) (execAll t1 s)) lattice Hforward)
    as Hafter.
  assert (valueOf (exec (SetToEntryState lattice) (execAll t1 s)) lattice
          = entryState analysis lattice) as Hset.
  { unfold exec, step. rewrite valueOf_update. by rewrite decide_True. }
  by rewrite Hset in Hafter.
Qed.

(** X8: widening is final within a visit.  Once a forward visit has set a
    lattice to the entry state, no later join or hook of the same visit
    moves it: the lattice holds the entry state when the visit returns. *)
Theorem forward_widening_is_final (point : ProgramPoint) (s : Solver L)
    (lattice : Value) :
  SetToEntryState lattice ∈ trace (Forward.visit ir dc NDEBUG point).2 →
  valueOf (run point s) lattice = entryState analysis lattice.
Proof. apply widened_stays, forwardAction_visit. Qed.

(** X9: soundness of the joins.  Whenever a forward visit joins the lattice
    of [rhs] into the lattice of [lhs], and [rhs] is not one of the lattices
    the visit itself writes, the visit leaves the value of [rhs] as it is and
    the value of [lhs] after the visit is above it. *)
Theorem forward_join_is_sound (point : ProgramPoint) (s : Solver L)
    (lhs rhs : Value) :
  Join lhs rhs ∈ trace (Forward.visit ir dc NDEBUG point).2 →
  rhs ∉ targets ir point →
  valueOf (run point s) rhs = valueOf s rhs ∧
  valueOf s rhs ⪯ valueOf (run point s) lhs.
Proof.
  intros Hin Hrhs.
  pose proof (forwardAction_visit ir dc NDEBUG point) as Hforward.
  pose proof (writes_forward_visit ir dc NDEBUG point) as Hwrites.
  split.
  { by apply (execAll_frame_within _ _ _ (targets ir point)). }
  unfold run. apply list_elem_of_split in Hin as (t1 & t2 & Ht).
  rewrite Ht in *.
  apply Forall_app in Hforward as [_ Hforward].
  apply Forall_cons in Hforward as [_ Hforward].
  apply Forall_app in Hwrites as [Hwrites _].
  rewrite execAll_app, execAll_cons.
  eapply (below_trans analysis monotone);
    [|by apply (execAll_inflationary ir analysis self monotone)].
  assert (valueOf (exec (Join lhs rhs) (execAll t1 s)) lhs
          = latticeJoin analysis (valueOf (execAll t1 s) lhs) (valueOf s rhs))
    as ->.
  { unfold exec, step. rewrite valueOf_update. rewrite decide_True by done.
    by rewrite (execAll_frame_within ir analysis self (targets ir point) t1 s rhs). }
  rewrite (join_commutative _ monotone (valueOf (execAll t1 s) lhs)).
  apply (below_join analysis monotone).
Qed.

End ForwardSoundness.

(** ** Region successors whose predecessors all resolve *)

Section ForwardResolved.

Context (ir : IR) (dc : DeadCodeStates) (NDEBUG : bool).

#[local] Abbreviation visitRegionSuccessors :=
  (Forward.visitRegionSuccessors ir dc NDEBUG).
#[local] Abbreviation visitRegionSuccessorsLoop :=
  (Forward.visitRegionSuccessorsLoop ir dc NDEBUG).
#[local] Abbreviation incomingSuccessorOperands :=
  (Forward.incomingSuccessorOperands ir).
#[local] Abbreviation passes := (Forward.passes ir dc NDEBUG).

Lemma alignSuccessorInputs_firstIndexOf (point : ProgramPoint) (branch : Op)
    (inputs lattices : list Value) (aligned : option (nat * list Action)) :
  Forward.alignSuccessorInputs ir point branch inputs lattices = inl aligned →
  from_option fst 0 aligned = firstIndexOf inputs lattices ∧
  ∀ a, a ∈ from_option snd [] aligned →
    length inputs ≠ length lattices ∧
    ∃ successor,
      a = VisitNonControlFlowArgumentsImpl branch successor lattices
            (firstIndexOf inputs lattices).
Proof.
  unfold Forward.alignSuccessorInputs, Forward.sliceChecked, firstIndexOf.
  case_decide as Hlength.
  - intros [= <-]. split; [done|]. by intros a []%elem_of_nil.
  - destruct point, inputs as [|[] ?]; try done; case_decide; try done;
      intros [= <-]; (split; [done|]); intros a ->%list_elem_of_singleton; eauto.
Qed.

(** The commands the loop issues when it resolves the successor operands
    of every predecessor. *)
Lemma visitRegionSuccessorsLoop_resolved (point : ProgramPoint) (branch : Op)
    (successorIndex : option nat) (lattices : list Value)
    (predecessors : list Op) :
  (∀ p, p ∈ predecessors →
     is_Some (incomingSuccessorOperands branch successorIndex p) ∧
     passes point branch successorIndex lattices p) →
  outcome (visitRegionSuccessorsLoop point branch successorIndex lattices
             predecessors) = Finished ∧
  (∀ a, a ∈ trace (visitRegionSuccessorsLoop point branch successorIndex lattices
                     predecessors) →
     (∃ p successor, p ∈ predecessors ∧
        length (getSuccessorInputs dc point p) ≠ length lattices ∧
        a = VisitNonControlFlowArgumentsImpl branch successor lattices
              (firstIndexOf (getSuccessorInputs dc point p) lattices)) ∨
     (∃ lattice operand, a ∈ Forward.joinFrom point lattice operand)) ∧
  (∀ p operands operand lattice,
     p ∈ predecessors →
     incomingSuccessorOperands branch successorIndex p = Some operands →
     (operand, lattice)
       ∈ zip operands
           (drop (firstIndexOf (getSuccessorInputs dc point p) lattices) lattices) →
     Join lattice operand
       ∈ trace (visitRegionSuccessorsLoop point branch successorIndex lattices
                  predecessors)).
Proof.
  induction predecessors as [|p rest IH]; intros Hall.
  { split; [done|]. split; [by intros a []%elem_of_nil|].
    by intros ? ? ? ? []%elem_of_nil. }
  destruct IH as (Hfinished & Honly & Hjoins).
  { intros q Hq. apply Hall. by right. }
  destruct (Hall p) as [[operands Hincoming] Hpasses]; [by left|].
  destruct (Hpasses operands Hincoming) as [Hassert Hfit].
  cbn [Forward.visitRegionSuccessorsLoop]. rewrite Hincoming.
  destruct (alignSuccessorInputs_inputsBelongTo ir point branch _ lattices Hfit)
    as (aligned & Haligned & Hdrop).
  rewrite Haligned. rewrite decide_True by done.
  apply alignSuccessorInputs_firstIndexOf in Haligned as [-> Hhook].
  assert (assert NDEBUG
            (bool_decide (length (getSuccessorInputs dc point p) = length operands))
            "expected the same number of successor inputs as operands"
          = finished) as ->.
  { unfold assert. destruct Hassert as [->|Hlen]; [done|].
    rewrite bool_decide_eq_true_2 by done. by rewrite orb_true_r. }
  rewrite !andThen_finished_l, !emit_andThen. cbn [fst snd].
  split; [done|]. unfold trace in *. cbn [fst]. split.
  - intros a [Ha|[Ha|Ha]%elem_of_app]%elem_of_app.
    + left. destruct (Hhook a Ha) as (Hdiffer & successor & ->).
      exists p, successor. split; [by left|done].
    + right. apply list_elem_of_bind in Ha as ([operand lattice] & Ha & _).
      by exists lattice, operand.
    + destruct (Honly a Ha) as [(q & successor & Hq & Hrest)|Hjoin]; [|by right].
      left. exists q, successor. split; [by right|done].
  - intros q ops operand lattice Hq Hops Hin.
    rewrite !elem_of_app. right.
    apply elem_of_cons in Hq as [->|Hq]; [|right; by apply (Hjoins q ops)].
    rewrite Hincoming in Hops. injection Hops as <-.
    left. apply list_elem_of_bind. exists (operand, lattice). split; [|done].
    unfold Forward.joinFrom. apply elem_of_app. right. by left.
Qed.

(** X10: in the forward [visitRegionSuccessors], when the successor
    operands of every known predecessor resolve (each is the region-branch
    operation itself or a region-branch terminator) and every predecessor
    passes what the function relies on (its assertions, its casts, and the
    window of the successor inputs lying within the results or region
    arguments it is cut from and starting within the lattices), the run
    finishes without setting any lattice to the entry state, and the operand
    number [k] of a predecessor is joined into the lattice number
    [firstIndex + k], where [firstIndex] is the number of the first
    successor input when the inputs are not all of the lattices, and 0
    otherwise. *)
Theorem resolved_region_predecessors_are_joined (point : ProgramPoint)
    (branch : Op) (successorIndex : option nat) (lattices : list Value) :
  NDEBUG = true ∨ allPredecessorsKnown dc point = true →
  (∀ p, p ∈ getKnownPredecessors dc point →
     is_Some (incomingSuccessorOperands branch successorIndex p) ∧
     passes point branch successorIndex lattices p) →
  outcome (visitRegionSuccessors point branch successorIndex lattices) = Finished ∧
  (∀ lattice,
     SetToEntryState lattice
       ∉ trace (visitRegionSuccessors point branch successorIndex lattices)) ∧
  ∀ p operands k operand lattice,
    p ∈ getKnownPredecessors dc point →
    incomingSuccessorOperands branch successorIndex p = Some operands →
    operands !! k = Some operand →
    lattices !! (firstIndexOf (getSuccessorInputs dc point p) lattices + k)
      = Some lattice →
    Join lattice operand
      ∈ trace (visitRegionSuccessors point branch successorIndex lattices).
Proof.
  intros Hknown Hall.
  destruct (visitRegionSuccessorsLoop_resolved point branch successorIndex lattices
              (getKnownPredecessors dc point) Hall) as (Hfinished & Honly & Hjoins).
  unfold Forward.visitRegionSuccessors.
  assert (assert NDEBUG (allPredecessorsKnown dc point)
            "unexpected unresolved region successors" = finished) as ->.
  { unfold assert. destruct Hknown as [->| ->]; [done|by rewrite orb_true_r]. }
  rewrite andThen_finished_l, emit_andThen. unfold trace, outcome in *. cbn [fst snd].
  split; [done|]. split.
  - intros lattice [Hin|Hin]%elem_of_cons; [done|].
    destruct (Honly _ Hin) as [(? & ? & _ & _ & ?)|(l & o & Hjoin)]; [done|].
    unfold Forward.joinFrom, getLatticeElementFor in Hjoin. cbn [app] in Hjoin.
    rewrite !elem_of_cons, elem_of_nil in Hjoin.
    by destruct Hjoin as [?|[?|[?|[]]]].
  - intros p operands k operand lattice Hp Hincoming Hoperand Hlattice.
    right. apply (Hjoins p operands); [done..|].
    apply list_elem_of_lookup. exists k. apply lookup_zip_with_Some.
    exists operand, lattice. by rewrite lookup_drop.
Qed.

End ForwardResolved.

(** ** Loops over call sites and predecessors *)

Lemma forEach_finished_inv {A} (body : A → Run) (items : list A) :
  outcome (forEach body items) = Finished →
  ∀ item, item ∈ items → outcome (body item) = Finished.
Proof.
  induction items as [|first items IH]; intros Hfinished item Hin;
    [by apply elem_of_nil in Hin|].
  change (forEach body (first :: items)) with (body first >>> forEach body items)
    in Hfinished.
  unfold andThen, outcome in *.
  destruct (body first) as [t [|message]] eqn:Hfirst; cbn [fst snd] in *; [|done].
  apply elem_of_cons in Hin as [->|Hin]; [by rewrite Hfirst|by apply IH].
Qed.

Lemma forEach_all_finished {A} (body : A → Run) (items : list A) :
  (∀ item, item ∈ items → outcome (body item) = Finished) →
  forEach body items = (item ← items; trace (body item), Finished).
Proof.
  induction items as [|first items IH]; intros Hall; [done|].
  change (forEach body (first :: items)) with (body first >>> forEach body items).
  rewrite IH by (intros ? ?; apply Hall; by right).
  specialize (Hall first (list_elem_of_here _ _)).
  unfold andThen, outcome, trace in *. rewrite Hall. by rewrite bind_cons.
Qed.

Lemma elem_of_trace_forEach {A} (body : A → Run) (items : list A) (a : Action) :
  a ∈ trace (forEach body items) → ∃ item, item ∈ items ∧ a ∈ trace (body item).
Proof.
  induction items as [|first items IH]; [by intros []%elem_of_nil|].
  change (forEach body (first :: items)) with (body first >>> forEach body items).
  unfold andThen, trace in *.
  destruct (body first) as [t [|message]] eqn:Hfirst; cbn [fst snd].
  - intros [Hin|Hin]%elem_of_app.
    + exists first. rewrite Hfirst. split; [by left|done].
    + destruct (IH Hin) as (item & ? & ?). exists item. split; [by right|done].
  - intros Hin. exists first. rewrite Hfirst. split; [by left|done].
Qed.

Section ForwardBlocks.

Context {L : Type} `{EqDecision L}.
Context (ir : IR) (dc : DeadCodeStates) (NDEBUG : bool).
Context (analysis : Analysis L) (self : AnalysisId).

#[local] Abbreviation valueOf := (valueOf analysis).
#[local] Abbreviation execAll := (execAll ir analysis self).
#[local] Abbreviation visitBlock := (Forward.visitBlock ir dc NDEBUG).

Lemma elem_of_joinFrom (point : ProgramPoint) (lhs rhs : Value) (a : Action) :
  a ∈ Forward.joinFrom point lhs rhs
  ↔ a = GetLatticeElement rhs ∨ a = AddDependency rhs point ∨ a = Join lhs rhs.
Proof.
  unfold Forward.joinFrom, getLatticeElementFor. cbn [app].
  rewrite !elem_of_cons, elem_of_nil. tauto.
Qed.

(** The entry block of a callable region whose call sites are all known,
    lines 147-165. *)
Lemma visitBlock_callable (block : Block) :
  getNumArguments ir block ≠ 0 →
  isLive dc (PPBlock block) = true →
  isEntryBlock ir block = true →
  isCallableOp ir (blockParentOp ir block) = true →
  getCallableRegion ir (blockParentOp ir block) = Some (blockParent ir block) →
  allPredecessorsKnown dc (PPOperation (blockParentOp ir block)) = true →
  visitBlock block
  = emit (GetExecutable (PPBlock block)
            :: (GetLatticeElement <$> getArguments ir block)
            ++ [GetPredecessorStateFor (PPBlock block)
                  (PPOperation (blockParentOp ir block))]) >>>
    forEach (Forward.visitCallSite ir block (getArguments ir block))
      (getKnownPredecessors dc (PPOperation (blockParentOp ir block))).
Proof.
  intros Harguments Hlive Hentry Hcallable Hregion Hknown.
  unfold Forward.visitBlock. rewrite decide_False by done.
  rewrite Hlive, Hentry, Hcallable, Hregion, Hknown.
  rewrite bool_decide_eq_true_2 by done. cbn [negb andb].
  rewrite !emit_andThen. cbn [fst snd app]. by rewrite <- app_assoc.
Qed.


(** The loop over the predecessors when no incoming edge is live. *)
Lemma visitPredecessors_dead_edges (block : Block) (argLattices : list Value)
    (predecessors : list (Block * nat)) :
  (∀ p, p ∈ predecessors → isLive dc (PPCFGEdge p.1 block) = false) →
  Forward.visitPredecessors ir dc block argLattices predecessors
  = (p ← predecessors;
     [GetExecutable (PPCFGEdge p.1 block);
      BlockContentSubscribe (PPCFGEdge p.1 block)],
     Finished).
Proof.
  induction predecessors as [|[predecessor index] rest IH]; intros Hdead; [done|].
  cbn [Forward.visitPredecessors].
  pose proof (Hdead (predecessor, index) (list_elem_of_here _ _)) as Hedge.
  cbn [fst] in Hedge. rewrite Hedge. cbn [negb].
  rewrite IH by (intros ? ?; apply Hdead; by right).
  by rewrite emit_andThen, bind_cons.
Qed.

(** X12: a block that is not an entry block and none of whose incoming
    edges is live.  The visit finishes; it only fetches and subscribes, so
    every lattice value and the queue are what they were; and, when the
    block is live and has arguments, the analysis has subscribed to the
    [Executable] state of each incoming edge, so that the block is visited
    again when an edge becomes live. *)
Theorem block_with_dead_incoming_edges (block : Block) (s : Solver L) :
  isEntryBlock ir block = false →
  (∀ p, p ∈ getPredecessors ir block → isLive dc (PPCFGEdge p.1 block) = false) →
  outcome (visitBlock block) = Finished ∧
  forallb bookkeeping (trace (visitBlock block)) = true ∧
  (∀ v, valueOf (execAll (trace (visitBlock block)) s) v = valueOf s v) ∧
  worklist (execAll (trace (visitBlock block)) s) = worklist s ∧
  (getNumArguments ir block ≠ 0 → isLive dc (PPBlock block) = true →
   ∀ p, p ∈ getPredecessors ir block →
     BlockContentSubscribe (PPCFGEdge p.1 block) ∈ trace (visitBlock block)).
Proof.
  intros Hentry Hdead.
  assert (outcome (visitBlock block) = Finished ∧
          forallb bookkeeping (trace (visitBlock block)) = true ∧
          (getNumArguments ir block ≠ 0 → isLive dc (PPBlock block) = true →
           ∀ p, p ∈ getPredecessors ir block →
             BlockContentSubscribe (PPCFGEdge p.1 block) ∈ trace (visitBlock block)))
    as (Hfinished & Hbookkeeping & Hsubscribed).
  { unfold Forward.visitBlock. case_decide as Harguments; [done|].
    destruct (isLive dc (PPBlock block)); [|done]. cbn [negb].
    rewrite Hentry, visitPredecessors_dead_edges by done.
    rewrite !emit_andThen. unfold outcome, trace. cbn [fst snd].
    split; [done|]. split.
    - cbn [forallb bookkeeping andb app]. rewrite forallb_app.
      apply andb_true_iff. split; apply forallb_forall; intros a Ha;
        apply list_elem_of_In in Ha.
      + by apply list_elem_of_fmap in Ha as (v & -> & _).
      + apply list_elem_of_bind in Ha as (p & Ha & _).
        by apply elem_of_cons in Ha as [->|[->|[]%elem_of_nil]%elem_of_cons].
    - intros _ _ p Hp. right. apply elem_of_app. right.
      apply list_elem_of_bind. exists p. split; [|done]. by right; left. }
  split; [done|]. split; [done|]. split; [|split; [|done]].
  - intros v. by apply valueOf_execAll_bookkeeping.
  - by apply worklist_execAll_bookkeeping.
Qed.

End ForwardBlocks.

(** ** The backward driver: calls, region branches and the transfer function *)

Section BackwardCases.

Context (ir : IR) (dc : DeadCodeStates) (NDEBUG : bool).

#[local] Abbreviation visitOperation := (Backward.visitOperation ir dc NDEBUG).
#[local] Abbreviation prologue := (Backward.prologue ir).

Lemma not_elem_of_prologue (op : Op) (a : Action) :
  bookkeeping a = false → a ∉ prologue op.
Proof.
  intros Ha Hin. pose proof (prologue_bookkeeping ir op) as Hbook.
  rewrite forallb_forall in Hbook.
  specialize (Hbook _ (proj1 (list_elem_of_In _ _) Hin)). congruence.
Qed.

Lemma backward_visitOperation_live (op : Op) :
  isLive dc (blockPoint (getBlock ir op)) = true →
  visitOperation op
  = emit (prologue op) >>>
    if isRegionBranchOp ir op then
      Backward.visitRegionSuccessors ir op (getOperands ir op)
    else if isBranchOp ir op then Backward.visitBranch ir op
    else Backward.visitCallOrLater ir dc NDEBUG op (getOperands ir op).
Proof.
  intros Hlive. unfold Backward.visitOperation. rewrite Hlive. cbn [negb].
  rewrite !emit_andThen. cbn [fst snd]. unfold Backward.prologue.
  cbn [app]. by rewrite <- app_assoc.
Qed.

Lemma elem_of_meetFrom (point : ProgramPoint) (lattice value : Value) (a : Action) :
  a ∈ Backward.meetFrom point lattice value
  ↔ a = GetLatticeElement value ∨ a = AddDependency value point
    ∨ a = Meet lattice value.
Proof.
  unfold Backward.meetFrom, getLatticeElementFor. cbn [app].
  rewrite !elem_of_cons, elem_of_nil. tauto.
Qed.

(** X13: a call in a live block (that is neither a region-branch operation
    nor a branch) whose callee resolves to a callable operation with a
    non-empty region.  The visit finishes; it meets the lattice of the
    operand number [index] of the call with the lattice of the argument
    number [index] of the entry block of the callee, for every index both
    have; it issues no other meet; and it writes nothing else: the transfer
    function is not invoked, even if the call is a terminator or
    return-like. *)
Theorem call_with_body_meets_entry_arguments (op callee : Op) (block : Block) :
  isLive dc (blockPoint (getBlock ir op)) = true →
  isRegionBranchOp ir op = false →
  isBranchOp ir op = false →
  isCallOp ir op = true →
  resolveCallable ir op = Some callee →
  isCallableOp ir callee = true →
  getCallableRegion ir callee ≫= regionFront ir = Some block →
  outcome (visitOperation op) = Finished ∧
  (∀ index operand,
     getOperands ir op !! index = Some operand →
     index < getNumArguments ir block →
     Meet operand (BlockArgument block index) ∈ trace (visitOperation op)) ∧
  (∀ lhs rhs,
     Meet lhs rhs ∈ trace (visitOperation op) →
     ∃ index, index < getNumArguments ir block ∧
       getOperands ir op !! index = Some lhs ∧ rhs = BlockArgument block index) ∧
  (∀ a, a ∈ trace (visitOperation op) →
     bookkeeping a = true ∨ ∃ lhs rhs, a = Meet lhs rhs).
Proof.
  intros Hlive Hregionbranch Hbranch Hcall Hresolve Hcallable Hfront.
  rewrite backward_visitOperation_live by done.
  rewrite Hregionbranch, Hbranch. unfold Backward.visitCallOrLater.
  rewrite Hcall, Hresolve, Hcallable, Hfront.
  rewrite emit_andThen. unfold outcome, trace. cbn [fst snd emit].
  split; [done|].
  assert (∀ lhs rhs,
     Meet lhs rhs
       ∈ (it ← zip (getArguments ir block) (getOperands ir op);
          Backward.meetFrom (PPOperation op) it.2 it.1) →
     ∃ index, index < getNumArguments ir block ∧
       getOperands ir op !! index = Some lhs ∧ rhs = BlockArgument block index)
    as Hmeets.
  { intros lhs rhs ([argument operand] & Hin & Hzip)%list_elem_of_bind.
    apply elem_of_meetFrom in Hin as [?|[?|[= -> ->]]]; [done..|].
    apply list_elem_of_lookup in Hzip as [index Hzip].
    apply lookup_zip_with_Some in Hzip as (x & y & [= <- <-] & Hx & Hy).
    unfold getArguments in Hx. apply list_lookup_fmap_Some in Hx as (n & -> & Hn).
    apply lookup_seq in Hn as [-> Hlt]. by exists index. }
  split; [|split].
  - intros index operand Hoperand Hindex. apply elem_of_app. right.
    apply list_elem_of_bind. exists (BlockArgument block index, operand).
    split; [apply elem_of_meetFrom; auto|].
    apply list_elem_of_lookup. exists index. apply lookup_zip_with_Some.
    exists (BlockArgument block index), operand. split; [done|]. split; [|done].
    unfold getArguments. rewrite list_lookup_fmap, lookup_seq_lt by done. done.
  - intros lhs rhs [Hin|Hin]%elem_of_app; [|by apply Hmeets].
    by apply not_elem_of_prologue in Hin.
  - intros a [Hin|Hin]%elem_of_app.
    + left. pose proof (prologue_bookkeeping ir op) as Hbook.
      rewrite forallb_forall in Hbook.
      by apply Hbook, list_elem_of_In.
    + apply list_elem_of_bind in Hin as ([argument operand] & Hin & _).
      apply elem_of_meetFrom in Hin as [-> | [-> | ->]]; eauto.
Qed.

(** *** Operands forwarded to region successors *)

(** What the visit of an operation whose operands are paired with successor
    inputs issues: one meet per pair, and [visitBranchOperand] once for each
    operand no pair holds. *)
Lemma paired_operands (op : Op) (pairs : list ((OpOperand * Value) * Value))
    (t : list Action) :
  t = prologue op ++ pairMeets op pairs
        ++ Backward.visitUnaccounted op (unpaired ir op pairs) →
  (∀ index,
     occurrences
       (VisitBranchOperand {| operandOwner := op; operandNumber := index |}) t
     = if decide (index < length (getOperands ir op)
                  ∧ index ∉ pairedNumbers pairs) then 1 else 0) ∧
  (∀ lhs rhs, Meet lhs rhs ∈ t ↔ ∃ slot, ((slot, lhs), rhs) ∈ pairs).
Proof.
  intros ->. split.
  - intros index. rewrite !occurrences_app.
    rewrite (occurrences_not_elem _ (prologue op))
      by (by apply not_elem_of_prologue).
    rewrite (occurrences_not_elem _ (pairMeets op pairs)).
    2:{ intros (? & ? & ? & _ & [?|[?|[?|?]]])%elem_of_pairMeets; done. }
    cbn [plus]. rewrite occurrences_visitUnaccounted.
    destruct (decide (index ∈ set_bits (unpaired ir op pairs))) as [Hin|Hout].
    + rewrite decide_True; [done|]. by apply (elem_of_set_bits_unpaired ir).
    + rewrite decide_False; [done|]. intros ?. by apply Hout, elem_of_set_bits_unpaired.
  - intros lhs rhs. rewrite !elem_of_app. split.
    + intros [Hin|[Hin|Hin]].
      * by apply not_elem_of_prologue in Hin.
      * apply elem_of_pairMeets in Hin
          as (slot & operand & input & Hin & [?|[?|[?|[= -> ->]]]]); try done.
        by exists slot.
      * by apply elem_of_visitUnaccounted in Hin as (? & _ & ?).
    + intros [slot Hin]. right; left. apply elem_of_pairMeets.
      exists slot, lhs, rhs. auto.
Qed.

(** X14: the backward visit of a region-branch operation in a live block.
    It finishes.  Each operand slot zipped with a successor input of an entry
    successor is met with that input, and these are all the meets; each
    other operand slot is handed to [visitBranchOperand] exactly once, and
    no paired slot is.  A slot in the range forwarded to a successor that
    has fewer inputs than the range has operands is not paired there. *)
Theorem region_branch_operands_met_or_visited (branch : Op) :
  isLive dc (blockPoint (getBlock ir branch)) = true →
  isRegionBranchOp ir branch = true →
  outcome (visitOperation branch) = Finished ∧
  (∀ index,
     occurrences
       (VisitBranchOperand {| operandOwner := branch; operandNumber := index |})
       (trace (visitOperation branch))
     = if decide (index < length (getOperands ir branch)
                  ∧ index ∉ pairedNumbers (entrySuccessorPairs ir branch))
       then 1 else 0) ∧
  (∀ lhs rhs,
     Meet lhs rhs ∈ trace (visitOperation branch)
     ↔ ∃ slot, ((slot, lhs), rhs) ∈ entrySuccessorPairs ir branch).
Proof.
  intros Hlive Hregionbranch.
  rewrite backward_visitOperation_live by done.
  rewrite Hregionbranch, visitRegionSuccessors_eq, emit_andThen.
  split; [done|]. by apply paired_operands.
Qed.

(** X15: the backward visit of a region-branch terminator directly inside
    a region-branch operation, in a live block, when no earlier case takes
    it.  The two assertions of [visitRegionSuccessorsFromTerminator] hold
    by the tests that lead there, so the visit finishes in either build.
    Each operand slot zipped with an input of a successor of the terminator
    is met with that input, and these are all the meets; each other operand
    slot is handed to [visitBranchOperand] exactly once. *)
Theorem terminator_operands_met_or_visited (terminator parent : Op) :
  isLive dc (blockPoint (getBlock ir terminator)) = true →
  isRegionBranchOp ir terminator = false →
  isBranchOp ir terminator = false →
  resolvesToCallable ir terminator = false →
  isRegionBranchTerminatorOp ir terminator = true →
  getParentOp ir terminator = Some parent →
  isRegionBranchOp ir parent = true →
  outcome (visitOperation terminator) = Finished ∧
  (∀ index,
     occurrences
       (VisitBranchOperand {| operandOwner := terminator; operandNumber := index |})
       (trace (visitOperation terminator))
     = if decide (index < length (getOperands ir terminator)
                  ∧ index ∉ pairedNumbers (terminatorSuccessorPairs ir terminator))
       then 1 else 0) ∧
  (∀ lhs rhs,
     Meet lhs rhs ∈ trace (visitOperation terminator)
     ↔ ∃ slot, ((slot, lhs), rhs) ∈ terminatorSuccessorPairs ir terminator).
Proof.
  intros Hlive Hregionbranch Hbranch Hcall Hterminator Hparent Hparentbranch.
  rewrite backward_visitOperation_live by done.
  rewrite Hregionbranch, Hbranch.
  rewrite (visitCallOrLater_unresolved ir dc NDEBUG) by done.
  unfold Backward.visitTerminatorOrLater.
  rewrite Hterminator, Hparent, Hparentbranch.
  rewrite (visitRegionSuccessorsFromTerminator_eq ir NDEBUG) by done.
  rewrite emit_andThen. split; [done|]. by apply paired_operands.
Qed.

(** *** The transfer function *)

(** A sequence of commands, none of which is the command a property
    singles out. *)
#[local] Ltac other_commands :=
  repeat first [apply Forall_nil_2 | apply Forall_cons_2; [by intros ? ? ? ?|]].

(** X16: the backward driver invokes the transfer function
    ([visitOperationImpl]) only for the operation visited, with all its
    operand and result lattices, and only when the block is live and none of
    the control-flow cases takes the operation.  Conversely, in that case
    (and unless the operation is a terminator or return-like operation
    without a parent operation, for which a cast fails) the visit finishes
    and the transfer function is its last command and the only one that
    writes.  In particular a call whose callee does not resolve to a
    callable operation is treated as any other operation. *)
Theorem backward_transfer_function_invoked (op : Op) :
  (∀ o operands results,
     BackwardVisitOperationImpl o operands results ∈ trace (visitOperation op) →
     o = op ∧ operands = getOperands ir op ∧ results = getResults ir op ∧
     isLive dc (blockPoint (getBlock ir op)) = true ∧
     controlFlowCase ir op = false) ∧
  (isLive dc (blockPoint (getBlock ir op)) = true →
   controlFlowCase ir op = false →
   is_Some (getParentOp ir op)
   ∨ (isRegionBranchTerminatorOp ir op = false ∧ hasReturnLikeTrait ir op = false) →
   visitOperation op
   = (prologue op
        ++ [BackwardVisitOperationImpl op (getOperands ir op) (getResults ir op)],
      Finished)).
Proof.
  split.
  - assert (Forall
              (λ a, ∀ o operands results,
                 a = BackwardVisitOperationImpl o operands results →
                 o = op ∧ operands = getOperands ir op ∧
                 results = getResults ir op ∧
                 isLive dc (blockPoint (getBlock ir op)) = true ∧
                 controlFlowCase ir op = false)
              (trace (visitOperation op))) as Hall.
    { apply pieces_backward_visitOperation.
      - constructor.
      - intros t1 t2. apply Forall_app_2.
      - intros a Ha. apply Forall_singleton. by intros ? ? ? ->.
      - intros operand value _. other_commands.
      - intros lattice value _. other_commands.
      - intros values. apply Forall_app_2.
        + apply Forall_forall. intros a (v & Ha & _)%list_elem_of_bind.
          by apply elem_of_cons in Ha as [->|[->|[]%elem_of_nil]%elem_of_cons].
        + apply Forall_fmap, Forall_forall. by intros [lhs rhs] _.
      - intros lattice _. other_commands.
      - intros index _. other_commands.
      - intros Hlive Hcase. apply Forall_singleton. by intros ? ? ? [= <- <- <-]. }
    intros o operands results Hin. rewrite Forall_forall in Hall.
    by apply (Hall _ Hin).
  - intros Hlive Hcase Hparent. rewrite backward_visitOperation_live by done.
    unfold controlFlowCase in Hcase.
    apply orb_false_iff in Hcase as [Hcase Hreturn].
    apply orb_false_iff in Hcase as [Hcase Hterminator].
    apply orb_false_iff in Hcase as [Hcase Hcall].
    apply orb_false_iff in Hcase as [Hregionbranch Hbranch].
    rewrite Hregionbranch, Hbranch.
    rewrite (visitCallOrLater_unresolved ir dc NDEBUG) by done.
    assert (Backward.visitReturnOrOrdinary ir dc op (getOperands ir op)
            = emit [BackwardVisitOperationImpl op (getOperands ir op)
                      (getResults ir op)]) as Hordinary.
    { unfold Backward.visitReturnOrOrdinary, parentIs in *.
      destruct (hasReturnLikeTrait ir op); [|done].
      destruct Hparent as [[parent Hparent]|[_ ?]]; [|done].
      rewrite Hparent in *. cbn in Hreturn. by rewrite Hreturn. }
    unfold Backward.visitTerminatorOrLater, parentIs in *.
    destruct (isRegionBranchTerminatorOp ir op).
    + destruct Hparent as [[parent Hparent]|[? _]]; [|done].
      rewrite Hparent in *. cbn in Hterminator. rewrite Hterminator.
      by rewrite Hordinary, emit_andThen.
    + by rewrite Hordinary, emit_andThen.
Qed.

(** X17: the backward visit of an operation that has a parent operation
    finishes, in either build: no assertion of the backward driver can fail
    there.  So does the forward visit of an operation that is no
    region-branch operation. *)
Theorem operation_visits_finish (op : Op) :
  (is_Some (getParentOp ir op) → outcome (visitOperation op) = Finished) ∧
  (isRegionBranchOp ir op = false →
   outcome (Forward.visitOperation ir dc NDEBUG op) = Finished).
Proof.
  split.
  - intros [parent Hparent]. unfold Backward.visitOperation.
    rewrite emit_andThen. unfold outcome. cbn [snd].
    destruct (isLive dc _); [|done]. cbn [negb]. rewrite !emit_andThen. cbn [snd].
    destruct (isRegionBranchOp ir op); [by rewrite visitRegionSuccessors_eq|].
    destruct (isBranchOp ir op); [done|].
    assert ((Backward.visitReturnOrOrdinary ir dc op (getOperands ir op)).2
            = Finished) as Hordinary.
    { unfold Backward.visitReturnOrOrdinary. rewrite Hparent.
      destruct (hasReturnLikeTrait ir op); [|done].
      destruct (isCallableOp ir parent); [|done].
      rewrite emit_andThen. cbn [snd]. by destruct (allPredecessorsKnown dc _). }
    assert ((Backward.visitTerminatorOrLater ir dc NDEBUG op (getOperands ir op)).2
            = Finished) as Hterminator.
    { unfold Backward.visitTerminatorOrLater. rewrite Hparent.
      destruct (isRegionBranchTerminatorOp ir op) eqn:Histerminator; [|done].
      destruct (isRegionBranchOp ir parent); [|done].
      by rewrite (visitRegionSuccessorsFromTerminator_eq ir NDEBUG). }
    unfold Backward.visitCallOrLater.
    destruct (isCallOp ir op); [|done].
    destruct (resolveCallable ir op) as [callableOp|]; [|done].
    destruct (isCallableOp ir callableOp); [|done].
    by destruct (_ ≫= _).
  - intros Hregionbranch. unfold Forward.visitOperation. rewrite Hregionbranch.
    case_decide; [done|]. rewrite emit_andThen. unfold outcome. cbn [snd].
    destruct (isLive dc _); [|done]. cbn [negb]. rewrite emit_andThen. cbn [snd].
    destruct (isCallOp ir op); [|done]. rewrite emit_andThen. cbn [snd].
    by destruct (allPredecessorsKnown dc _).
Qed.

(** X18: the forward driver invokes the transfer function
    ([visitOperationImpl]) only when it visits an operation that has
    results, lies in a live block and is neither a region-branch operation
    nor a call, and then on all the operand and result lattices of that
    operation.  A visit of a block never invokes it. *)
Theorem forward_transfer_function_only_for_ordinary_operations
    (point : ProgramPoint) (op : Op) (operands results : list Value) :
  VisitOperationImpl op operands results
    ∈ trace (Forward.visit ir dc NDEBUG point).2 →
  point = PPOperation op ∧
  operands = getOperands ir op ∧ results = getResults ir op ∧
  getNumResults ir op ≠ 0 ∧
  isLive dc (blockPoint (getBlock ir op)) = true ∧
  isRegionBranchOp ir op = false ∧
  isCallOp ir op = false.
Proof.
  assert (Forall
            (λ a, ∀ o ls rs,
               a = VisitOperationImpl o ls rs →
               point = PPOperation o ∧
               ls = getOperands ir o ∧ rs = getResults ir o ∧
               getNumResults ir o ≠ 0 ∧
               isLive dc (blockPoint (getBlock ir o)) = true ∧
               isRegionBranchOp ir o = false ∧
               isCallOp ir o = false)
            (trace (Forward.visit ir dc NDEBUG point).2)) as Hall.
  { apply pieces_forward_visit.
    - constructor.
    - intros t1 t2. apply Forall_app_2.
    - intros a Ha. apply Forall_singleton. by intros ? ? ? ->.
    - intros lhs rhs _. other_commands.
    - intros lattice _. other_commands.
    - intros o Hpoint Hresults Hlive Hregionbranch Hcall. apply Forall_singleton.
      by intros ? ? ? [= <- <- <-].
    - intros o successor firstIndex. other_commands. }
  intros Hin. rewrite Forall_forall in Hall. by apply (Hall _ Hin).
Qed.

End BackwardCases.

(** ** Initialization *)

Lemma andThen_assoc (r1 r2 r3 : Run) : (r1 >>> r2) >>> r3 = r1 >>> (r2 >>> r3).
Proof.
  destruct r1 as [t1 [|?]], r2 as [t2 [|?]], r3 as [t3 o3];
    unfold andThen; cbn; by rewrite ?app_assoc.
Qed.

Lemma andThen_finished_r (r : Run) : r >>> finished = r.
Proof. destruct r as [t [|?]]; unfold andThen; cbn; by rewrite ?app_nil_r. Qed.

Lemma andThen_finished_inv (r1 r2 : Run) :
  outcome (r1 >>> r2) = Finished →
  outcome r1 = Finished ∧ outcome r2 = Finished.
Proof. destruct r1 as [t1 [|?]], r2 as [t2 o2]; unfold andThen, outcome; cbn; done. Qed.

Lemma forEach_app {A} (body : A → Run) (l1 l2 : list A) :
  forEach body (l1 ++ l2) = forEach body l1 >>> forEach body l2.
Proof.
  induction l1 as [|x l1 IH]; [by rewrite andThen_finished_l|].
  change (forEach body ((x :: l1) ++ l2)) with (body x >>> forEach body (l1 ++ l2)).
  change (forEach body (x :: l1)) with (body x >>> forEach body l1).
  by rewrite IH, andThen_assoc.
Qed.

Lemma foldr_ext_elem {A B} (f g : A → B → B) (k : B) (l : list A) :
  (∀ x after, x ∈ l → f x after = g x after) → foldr f k l = foldr g k l.
Proof.
  induction l as [|x l IH]; intros Hext; [done|]. cbn [foldr].
  rewrite IH by (intros ? ? ?; apply Hext; by right). apply Hext. by left.
Qed.

(** A loop each of whose steps answers [success] runs the steps in order
    and then what follows it. *)
Lemma foldr_andLater {A} (body : A → Run) (later : LogicalResult * Run)
    (items : list A) :
  foldr (λ item after, andLater (body item) after) later items
  = (later.1, forEach body items >>> later.2).
Proof.
  induction items as [|item items IH].
  - rewrite andThen_finished_l. by destruct later.
  - cbn [foldr]. rewrite IH. unfold andLater. cbn [fst snd].
    change (forEach body (item :: items)) with (body item >>> forEach body items).
    by rewrite andThen_assoc.
Qed.

Lemma foldr_orReturnFailure {A} (body : A → LogicalResult * Run)
    (later : LogicalResult * Run) (items : list A) :
  (∀ item, item ∈ items → (body item).1 = success) →
  foldr (λ item after, orReturnFailure (body item) after) later items
  = (later.1, forEach (λ item, (body item).2) items >>> later.2).
Proof.
  intros Hall.
  rewrite (foldr_ext_elem _ (λ item after, andLater (body item).2 after)).
  - apply foldr_andLater.
  - intros item after Hin. unfold orReturnFailure, andLater.
    by rewrite (Hall item Hin).
Qed.

(** The same from the last item to the first. *)
Lemma foldl_orReturnFailure {A} (body : A → LogicalResult * Run)
    (later : LogicalResult * Run) (items : list A) :
  (∀ item, item ∈ items → (body item).1 = success) →
  foldl (λ after item, orReturnFailure (body item) after) later items
  = (later.1, forEach (λ item, (body item).2) (reverse items) >>> later.2).
Proof.
  revert later. induction items as [|item items IH]; intros later Hall.
  - rewrite andThen_finished_l. by destruct later.
  - cbn [foldl]. rewrite IH by (intros ? ?; apply Hall; by right).
    unfold orReturnFailure. rewrite (Hall item) by (by left). cbn [fst snd].
    rewrite reverse_cons, forEach_app, andThen_assoc.
    change (forEach (λ item, (body item).2) [item])
      with ((body item).2 >>> finished).
    by rewrite andThen_finished_r.
Qed.

Section NestingInduction.

Variable P : Nesting → Prop.

Lemma Nesting_Forall_induction :
  (∀ op regions,
     Forall (Forall (λ block : Block * list Nesting, Forall P block.2)) regions →
     P (Nested op regions)) →
  ∀ t, P t.
Proof.
  intros P_nested. fix IH 1. intros [op regions]. apply P_nested.
  induction regions as [|region regions IHregions];
    constructor; [|exact IHregions].
  clear IHregions.
  induction region as [|[b ops] region IHregion]; constructor; [|exact IHregion].
  clear IHregion. cbn [snd].
  induction ops as [|first ops IHops]; constructor; [apply IH|exact IHops].
Qed.

(** Induction on the nesting: a property that holds of an operation as
    soon as it holds of the operations of its blocks holds of every
    operation. *)
Lemma Nesting_induction :
  (∀ op regions,
     (∀ region block nested,
        region ∈ regions → block ∈ region → nested ∈ block.2 → P nested) →
     P (Nested op regions)) →
  ∀ t, P t.
Proof.
  intros P_nested. apply Nesting_Forall_induction. intros op regions Hall.
  apply P_nested. intros region block nested Hregion Hblock Hnested.
  rewrite Forall_forall in Hall. specialize (Hall region Hregion).
  rewrite Forall_forall in Hall. specialize (Hall block Hblock).
  rewrite Forall_forall in Hall. by apply Hall.
Qed.

End NestingInduction.

Section Initialization.

Context {L : Type} `{EqDecision L}.
Context (ir : IR) (dc : DeadCodeStates) (NDEBUG : bool).
Context (analysis : Analysis L) (self : AnalysisId).

#[local] Abbreviation valueOf := (valueOf analysis).
#[local] Abbreviation execAll := (execAll ir analysis self).

(** What [initializeRecursively] does once each nested call is known to
    answer [success]. *)
Lemma forward_initializeRecursively_nested (op : Op)
    (regions : list (list (Block * list Nesting))) :
  (∀ region block nested,
     region ∈ regions → block ∈ region → nested ∈ block.2 →
     (ForwardInit.initializeRecursively ir dc NDEBUG nested).1 = success) →
  ForwardInit.initializeRecursively ir dc NDEBUG (Nested op regions)
  = (success,
     Forward.visitOperation ir dc NDEBUG op >>>
     forEach
       (λ region,
          forEach
            (λ block : Block * list Nesting,
               (subscribeToBlock block.1 >>>
                Forward.visitBlock ir dc NDEBUG block.1) >>>
               forEach
                 (λ nested, (ForwardInit.initializeRecursively ir dc NDEBUG nested).2)
                 block.2)
            region)
       regions).
Proof.
  intros Hall. cbn [ForwardInit.initializeRecursively]. unfold andLater at 1.
  cbn [fst snd].
  rewrite (foldr_ext_elem _
    (λ region after,
       andLater
         (forEach
            (λ block : Block * list Nesting,
               (subscribeToBlock block.1 >>>
                Forward.visitBlock ir dc NDEBUG block.1) >>>
               forEach
                 (λ nested, (ForwardInit.initializeRecursively ir dc NDEBUG nested).2)
                 block.2)
            region)
         after)).
  - rewrite foldr_andLater. cbn [fst snd]. by rewrite andThen_finished_r.
  - intros region after Hregion.
    rewrite (foldr_ext_elem _
      (λ (block : Block * list Nesting) after,
         andLater
           ((subscribeToBlock block.1 >>>
             Forward.visitBlock ir dc NDEBUG block.1) >>>
            forEach
              (λ nested, (ForwardInit.initializeRecursively ir dc NDEBUG nested).2)
              block.2)
           after)).
    + by rewrite foldr_andLater.
    + intros block afterBlock Hblock.
      rewrite foldr_orReturnFailure.
      2:{ intros nested Hnested. by apply (Hall region block). }
      unfold andLater. cbn [fst snd]. by rewrite !andThen_assoc.
Qed.

Lemma backward_initializeRecursively_nested (op : Op)
    (regions : list (list (Block * list Nesting))) :
  (∀ region block nested,
     region ∈ regions → block ∈ region → nested ∈ block.2 →
     (BackwardInit.initializeRecursively ir dc NDEBUG nested).1 = success) →
  BackwardInit.initializeRecursively ir dc NDEBUG (Nested op regions)
  = (success,
     Backward.visitOperation ir dc NDEBUG op >>>
     forEach
       (λ region,
          forEach
            (λ block : Block * list Nesting,
               subscribeToBlock block.1 >>>
               forEach
                 (λ nested, (BackwardInit.initializeRecursively ir dc NDEBUG nested).2)
                 (reverse block.2))
            region)
       regions).
Proof.
  intros Hall. cbn [BackwardInit.initializeRecursively]. unfold andLater at 1.
  cbn [fst snd].
  rewrite (foldr_ext_elem _
    (λ region after,
       andLater
         (forEach
            (λ block : Block * list Nesting,
               subscribeToBlock block.1 >>>
               forEach
                 (λ nested, (BackwardInit.initializeRecursively ir dc NDEBUG nested).2)
                 (reverse block.2))
            region)
         after)).
  - rewrite foldr_andLater. cbn [fst snd]. by rewrite andThen_finished_r.
  - intros region after Hregion.
    rewrite (foldr_ext_elem _
      (λ (block : Block * list Nesting) after,
         andLater
           (subscribeToBlock block.1 >>>
            forEach
              (λ nested, (BackwardInit.initializeRecursively ir dc NDEBUG nested).2)
              (reverse block.2))
           after)).
    + by rewrite foldr_andLater.
    + intros block afterBlock Hblock.
      rewrite foldl_orReturnFailure.
      2:{ intros nested Hnested. by apply (Hall region block). }
      unfold andLater. cbn [fst snd]. by rewrite !andThen_assoc.
Qed.

Lemma forward_initializeRecursively_success (t : Nesting) :
  (ForwardInit.initializeRecursively ir dc NDEBUG t).1 = success.
Proof.
  induction t as [op regions IH] using Nesting_induction.
  by rewrite forward_initializeRecursively_nested.
Qed.

Lemma backward_initializeRecursively_success (t : Nesting) :
  (BackwardInit.initializeRecursively ir dc NDEBUG t).1 = success.
Proof.
  induction t as [op regions IH] using Nesting_induction.
  by rewrite backward_initializeRecursively_nested.
Qed.

(** The forward walk: an operation, then block by block the subscription,
    the block and its operations from first to last. *)
Lemma forward_initializeRecursively_eq (op : Op)
    (regions : list (list (Block * list Nesting))) :
  (ForwardInit.initializeRecursively ir dc NDEBUG (Nested op regions)).2
  = Forward.visitOperation ir dc NDEBUG op >>>
    forEach
      (λ region,
         forEach
           (λ block : Block * list Nesting,
              (subscribeToBlock block.1 >>>
               Forward.visitBlock ir dc NDEBUG block.1) >>>
              forEach
                (λ nested, (ForwardInit.initializeRecursively ir dc NDEBUG nested).2)
                block.2)
           region)
      regions.
Proof.
  rewrite forward_initializeRecursively_nested; [done|].
  intros. apply forward_initializeRecursively_success.
Qed.

(** The backward walk: an operation, then block by block the subscription
    and the operations of the block from last to first. *)
Lemma backward_initializeRecursively_eq (op : Op)
    (regions : list (list (Block * list Nesting))) :
  (BackwardInit.initializeRecursively ir dc NDEBUG (Nested op regions)).2
  = Backward.visitOperation ir dc NDEBUG op >>>
    forEach
      (λ region,
         forEach
           (λ block : Block * list Nesting,
              subscribeToBlock block.1 >>>
              forEach
                (λ nested, (BackwardInit.initializeRecursively ir dc NDEBUG nested).2)
                (reverse block.2))
           region)
      regions.
Proof.
  rewrite backward_initializeRecursively_nested; [done|].
  intros. apply backward_initializeRecursively_success.
Qed.

(** X19: [initialize] never answers [failure], in either driver: when the
    walk over the operations runs to its end the caller receives [success],
    and when a visit on the way stops at an assertion the caller receives
    nothing.  No path of [initializeRecursively] produces the failure its
    loops test for. *)
Theorem initialize_succeeds (top : Nesting) :
  answer (ForwardInit.initialize ir dc NDEBUG top)
  = match outcome (ForwardInit.initialize ir dc NDEBUG top).2 with
    | Finished => Some success
    | AssertionFailed _ => None
    end ∧
  answer (BackwardInit.initialize ir dc NDEBUG top)
  = match outcome (BackwardInit.initialize ir dc NDEBUG top).2 with
    | Finished => Some success
    | AssertionFailed _ => None
    end ∧
  answer (ForwardInit.initialize ir dc NDEBUG top) ≠ Some failure ∧
  answer (BackwardInit.initialize ir dc NDEBUG top) ≠ Some failure.
Proof.
  assert ((ForwardInit.initialize ir dc NDEBUG top).1 = success) as Hforward.
  { destruct top as [op regions]. unfold ForwardInit.initialize, andLater.
    cbn [fst]. apply forward_initializeRecursively_success. }
  assert ((BackwardInit.initialize ir dc NDEBUG top).1 = success) as Hbackward.
  { apply backward_initializeRecursively_success. }
  unfold answer. rewrite Hforward, Hbackward.
  repeat split; by destruct (outcome _).
Qed.

(** *** Subscriptions to the blocks *)

Lemma elem_of_trace_andThen (r1 r2 : Run) (a : Action) :
  outcome (r1 >>> r2) = Finished →
  a ∈ trace r1 ∨ a ∈ trace r2 → a ∈ trace (r1 >>> r2).
Proof.
  intros [Hfirst _]%andThen_finished_inv Hin.
  rewrite trace_andThen_finished by done. by apply elem_of_app.
Qed.

Lemma elem_of_trace_forEach_finished {A} (body : A → Run) (items : list A)
    (item : A) (a : Action) :
  outcome (forEach body items) = Finished →
  item ∈ items → a ∈ trace (body item) → a ∈ trace (forEach body items).
Proof.
  intros Hfinished Hitem Hin.
  rewrite forEach_all_finished by (by apply forEach_finished_inv).
  unfold trace at 1. cbn [fst]. apply list_elem_of_bind. by exists item.
Qed.

Lemma elem_of_nestedBlocks (op : Op) (regions : list (list (Block * list Nesting)))
    (b : Block) :
  b ∈ nestedBlocks (Nested op regions)
  ↔ ∃ region block, region ∈ regions ∧ block ∈ region ∧
      (b = block.1 ∨ ∃ nested, nested ∈ block.2 ∧ b ∈ nestedBlocks nested).
Proof.
  cbn [nestedBlocks]. rewrite list_elem_of_bind. split.
  - intros (region & Hin & Hregion).
    apply list_elem_of_bind in Hin as (block & Hin & Hblock).
    exists region, block. split; [done|]. split; [done|].
    apply elem_of_cons in Hin as [->|Hin]; [by left|right].
    apply list_elem_of_bind in Hin as (nested & ? & ?). by exists nested.
  - intros (region & block & Hregion & Hblock & Hb). exists region.
    split; [|done]. apply list_elem_of_bind. exists block. split; [|done].
    destruct Hb as [->|(nested & Hnested & Hb)]; [by left|right].
    apply list_elem_of_bind. by exists nested.
Qed.

Lemma forward_initializeRecursively_subscribes (t : Nesting) (b : Block) :
  outcome (ForwardInit.initializeRecursively ir dc NDEBUG t).2 = Finished →
  b ∈ nestedBlocks t →
  BlockContentSubscribe (PPBlock b)
    ∈ trace (ForwardInit.initializeRecursively ir dc NDEBUG t).2.
Proof.
  revert b. induction t as [op regions IH] using Nesting_induction.
  intros b Hfinished (region & block & Hregion & Hblock & Hb)%elem_of_nestedBlocks.
  rewrite forward_initializeRecursively_eq in *.
  apply elem_of_trace_andThen; [done|]. right.
  apply andThen_finished_inv in Hfinished as [_ Hfinished].
  apply (elem_of_trace_forEach_finished _ _ region); [done..|].
  pose proof (forEach_finished_inv _ _ Hfinished region Hregion) as Hblocks.
  apply (elem_of_trace_forEach_finished _ _ block); [done..|].
  pose proof (forEach_finished_inv _ _ Hblocks block Hblock) as Hops.
  apply elem_of_trace_andThen; [done|].
  apply andThen_finished_inv in Hops as [Hvisit Hops].
  destruct Hb as [->|(nested & Hnested & Hb)].
  - left. apply elem_of_trace_andThen; [done|]. left. by right; left.
  - right. apply (elem_of_trace_forEach_finished _ _ nested); [done..|].
    apply (IH region block nested); [done..| |done].
    by apply (forEach_finished_inv _ _ Hops).
Qed.

Lemma backward_initializeRecursively_subscribes (t : Nesting) (b : Block) :
  outcome (BackwardInit.initializeRecursively ir dc NDEBUG t).2 = Finished →
  b ∈ nestedBlocks t →
  BlockContentSubscribe (PPBlock b)
    ∈ trace (BackwardInit.initializeRecursively ir dc NDEBUG t).2.
Proof.
  revert b. induction t as [op regions IH] using Nesting_induction.
  intros b Hfinished (region & block & Hregion & Hblock & Hb)%elem_of_nestedBlocks.
  rewrite backward_initializeRecursively_eq in *.
  apply elem_of_trace_andThen; [done|]. right.
  apply andThen_finished_inv in Hfinished as [_ Hfinished].
  apply (elem_of_trace_forEach_finished _ _ region); [done..|].
  pose proof (forEach_finished_inv _ _ Hfinished region Hregion) as Hblocks.
  apply (elem_of_trace_forEach_finished _ _ block); [done..|].
  pose proof (forEach_finished_inv _ _ Hblocks block Hblock) as Hops.
  apply elem_of_trace_andThen; [done|].
  apply andThen_finished_inv in Hops as [Hvisit Hops].
  destruct Hb as [->|(nested & Hnested & Hb)].
  - left. by right; left.
  - right. apply (elem_of_trace_forEach_finished _ _ nested);
      [done|by apply elem_of_reverse|].
    apply (IH region block nested); [done..| |done].
    apply (forEach_finished_inv _ _ Hops). by apply elem_of_reverse.
Qed.

(** X20: when [initialize] runs to its end, the analysis has subscribed to
    the [Executable] state of every block nested under the operation, at any
    depth, in both drivers: a block found dead during initialization is
    visited again once it becomes live. *)
Theorem initialize_subscribes_to_every_block (top : Nesting) (b : Block) :
  b ∈ nestedBlocks top →
  (outcome (ForwardInit.initialize ir dc NDEBUG top).2 = Finished →
   BlockContentSubscribe (PPBlock b)
     ∈ trace (ForwardInit.initialize ir dc NDEBUG top).2) ∧
  (outcome (BackwardInit.initialize ir dc NDEBUG top).2 = Finished →
   BlockContentSubscribe (PPBlock b)
     ∈ trace (BackwardInit.initialize ir dc NDEBUG top).2).
Proof.
  intros Hb. split.
  - destruct top as [op regions]. unfold ForwardInit.initialize, andLater.
    cbn [snd]. intros Hfinished. apply elem_of_trace_andThen; [done|]. right.
    apply andThen_finished_inv in Hfinished as [_ Hfinished].
    by apply forward_initializeRecursively_subscribes.
  - intros Hfinished. by apply backward_initializeRecursively_subscribes.
Qed.

(** *** Initialization while nothing is live *)

Lemma forward_initializeRecursively_dead (t : Nesting) :
  (∀ point, isLive dc point = false) →
  outcome (ForwardInit.initializeRecursively ir dc NDEBUG t).2 = Finished ∧
  Forall (λ a, bookkeeping a = true)
    (trace (ForwardInit.initializeRecursively ir dc NDEBUG t).2).
Proof.
  intros Hdead. induction t as [op regions IH] using Nesting_induction.
  rewrite forward_initializeRecursively_eq.
  assert (Forward.visitOperation ir dc NDEBUG op = finished
          ∨ Forward.visitOperation ir dc NDEBUG op
            = emit [GetExecutable (blockPoint (getBlock ir op))]) as Hop.
  { unfold Forward.visitOperation. rewrite Hdead. case_decide; auto. }
  assert (∀ block, Forward.visitBlock ir dc NDEBUG block = finished
          ∨ Forward.visitBlock ir dc NDEBUG block
            = emit [GetExecutable (PPBlock block)]) as Hblock.
  { intros block. unfold Forward.visitBlock. rewrite Hdead. case_decide; auto. }
  split.
  - rewrite outcome_andThen_finished by (by destruct Hop as [-> | ->]).
    apply forEach_finished. intros region Hregion.
    apply forEach_finished. intros block Hin.
    rewrite outcome_andThen_finished.
    + apply forEach_finished. intros nested Hnested.
      by apply (IH region block nested).
    + by destruct (Hblock block.1) as [-> | ->].
  - apply (pieces_andThen (Forall (λ a, bookkeeping a = true))).
    { intros t1 t2. apply Forall_app_2. }
    { destruct Hop as [-> | ->]; by repeat constructor. }
    apply (pieces_forEach (Forall (λ a, bookkeeping a = true)));
      [constructor|intros t1 t2; apply Forall_app_2|].
    intros region Hregion.
    apply (pieces_forEach (Forall (λ a, bookkeeping a = true)));
      [constructor|intros t1 t2; apply Forall_app_2|].
    intros block Hin.
    apply (pieces_andThen (Forall (λ a, bookkeeping a = true))).
    { intros t1 t2. apply Forall_app_2. }
    { destruct (Hblock block.1) as [-> | ->]; by repeat constructor. }
    apply (pieces_forEach (Forall (λ a, bookkeeping a = true)));
      [constructor|intros t1 t2; apply Forall_app_2|].
    intros nested Hnested. by apply (IH region block nested).
Qed.

Lemma backward_initializeRecursively_dead (t : Nesting) :
  (∀ point, isLive dc point = false) →
  outcome (BackwardInit.initializeRecursively ir dc NDEBUG t).2 = Finished ∧
  Forall (λ a, bookkeeping a = true)
    (trace (BackwardInit.initializeRecursively ir dc NDEBUG t).2).
Proof.
  intros Hdead. induction t as [op regions IH] using Nesting_induction.
  rewrite backward_initializeRecursively_eq.
  assert (Backward.visitOperation ir dc NDEBUG op
          = emit [GetExecutable (blockPoint (getBlock ir op))]) as ->.
  { unfold Backward.visitOperation. by rewrite Hdead. }
  split.
  - rewrite outcome_andThen_finished by done.
    apply forEach_finished. intros region Hregion.
    apply forEach_finished. intros block Hin.
    rewrite outcome_andThen_finished by done.
    apply forEach_finished. intros nested Hnested.
    rewrite elem_of_reverse in Hnested. by apply (IH region block nested).
  - apply (pieces_andThen (Forall (λ a, bookkeeping a = true))).
    { intros t1 t2. apply Forall_app_2. }
    { by repeat constructor. }
    apply (pieces_forEach (Forall (λ a, bookkeeping a = true)));
      [constructor|intros t1 t2; apply Forall_app_2|].
    intros region Hregion.
    apply (pieces_forEach (Forall (λ a, bookkeeping a = true)));
      [constructor|intros t1 t2; apply Forall_app_2|].
    intros block Hin.
    apply (pieces_andThen (Forall (λ a, bookkeeping a = true))).
    { intros t1 t2. apply Forall_app_2. }
    { by repeat constructor. }
    apply (pieces_forEach (Forall (λ a, bookkeeping a = true)));
      [constructor|intros t1 t2; apply Forall_app_2|].
    intros nested Hnested. rewrite elem_of_reverse in Hnested.
    by apply (IH region block nested).
Qed.

Lemma Forall_bookkeeping (t : list Action) :
  Forall (λ a, bookkeeping a = true) t → forallb bookkeeping t = true.
Proof.
  intros Hall. apply forallb_forall. intros a Ha%list_elem_of_In.
  rewrite Forall_forall in Hall. by apply Hall.
Qed.

(** The commands [initialize] starts with, lines 43-49. *)
Lemma forward_initialize_eq (top : Nesting) :
  (ForwardInit.initialize ir dc NDEBUG top).2
  = emit (argument ← topEntryArguments ir top;
          [GetLatticeElement argument; SetToEntryState argument]) >>>
    (ForwardInit.initializeRecursively ir dc NDEBUG top).2.
Proof.
  destruct top as [op regions]. unfold ForwardInit.initialize, andLater. cbn [snd].
  f_equal. rewrite forEach_all_finished by (by intros [|? ?] _).
  unfold emit. f_equal. unfold topEntryArguments.
  induction regions as [|[|front region] regions IH]; [done| |].
  - by rewrite !bind_cons, IH.
  - by rewrite !bind_cons, bind_app, IH.
Qed.

Lemma valueOf_entry_marks (arguments : list Value) (s : Solver L) (v : Value) :
  valueOf
    (execAll (argument ← arguments;
              [GetLatticeElement argument; SetToEntryState argument]) s) v
  = if decide (v ∈ arguments) then entryState analysis v else valueOf s v.
Proof.
  revert s. induction arguments as [|l arguments IH]; intros s.
  - rewrite decide_False by apply not_elem_of_nil. done.
  - rewrite bind_cons. cbn [app]. rewrite !execAll_cons, IH.
    unfold exec at 1, step. rewrite valueOf_update. cbn [fst].
    rewrite valueOf_exec_bookkeeping by done.
    destruct (decide (l = v)) as [->|Hne].
    + rewrite (decide_True (P := v ∈ v :: arguments)) by (by left).
      by case_decide.
    + destruct (decide (v ∈ arguments)) as [Hin|Hout].
      * by rewrite decide_True by (by right).
      * rewrite decide_False; [done|].
        intros [->|?]%elem_of_cons; done.
Qed.

(** X21: initialization while no block is live.  Both walks run to their
    end.  The forward one sets the lattices of the arguments of the entry
    blocks of the regions of the top operation to the entry state and leaves
    every other lattice value as it is; the backward one leaves every
    lattice value and the queue as they are. *)
Theorem initialization_while_nothing_is_live (top : Nesting) (s : Solver L) :
  (∀ point, isLive dc point = false) →
  outcome (ForwardInit.initialize ir dc NDEBUG top).2 = Finished ∧
  (∀ v,
     valueOf (execAll (trace (ForwardInit.initialize ir dc NDEBUG top).2) s) v
     = if decide (v ∈ topEntryArguments ir top) then entryState analysis v
       else valueOf s v) ∧
  outcome (BackwardInit.initialize ir dc NDEBUG top).2 = Finished ∧
  (∀ v,
     valueOf (execAll (trace (BackwardInit.initialize ir dc NDEBUG top).2) s) v
     = valueOf s v) ∧
  worklist (execAll (trace (BackwardInit.initialize ir dc NDEBUG top).2) s)
  = worklist s.
Proof.
  intros Hdead.
  destruct (forward_initializeRecursively_dead top Hdead) as [Hforward Hfetches].
  destruct (backward_initializeRecursively_dead top Hdead) as [Hbackward Hquiet].
  apply Forall_bookkeeping in Hfetches, Hquiet.
  rewrite forward_initialize_eq, emit_andThen. unfold outcome, trace in *.
  cbn [fst snd]. split; [done|]. split; [|split; [done|split]].
  - intros v. rewrite execAll_app.
    rewrite valueOf_execAll_bookkeeping by done. apply valueOf_entry_marks.
  - intros v. by apply valueOf_execAll_bookkeeping.
  - by apply worklist_execAll_bookkeeping.
Qed.

End Initialization.

(** *** The entry arguments after initialization *)

Section InitializationSoundness.

Context {L : Type} `{EqDecision L}.
Context (ir : IR) (dc : DeadCodeStates) (NDEBUG : bool).
Context (analysis : Analysis L) (self : AnalysisId).
Context (monotone : MonotoneAnalysis analysis).

#[local] Abbreviation valueOf := (valueOf analysis).
#[local] Abbreviation execAll := (execAll ir analysis self).

Lemma forwardAction_initializeRecursively (t : Nesting) :
  Forall forwardAction (trace (ForwardInit.initializeRecursively ir dc NDEBUG t).2).
Proof.
  induction t as [op regions IH] using Nesting_induction.
  rewrite forward_initializeRecursively_eq.
  apply Forall_trace_andThen; [apply forwardAction_visitOperation|].
  apply (pieces_forEach (Forall forwardAction));
    [constructor|intros t1 t2; apply Forall_app_2|].
  intros region Hregion.
  apply (pieces_forEach (Forall forwardAction));
    [constructor|intros t1 t2; apply Forall_app_2|].
  intros block Hblock.
  apply Forall_trace_andThen.
  { apply Forall_trace_andThen; [by repeat constructor|].
    apply forwardAction_visitBlock. }
  apply (pieces_forEach (Forall forwardAction));
    [constructor|intros t1 t2; apply Forall_app_2|].
  intros nested Hnested. by apply (IH region block nested).
Qed.

(** X22: with a semilattice whose top is the entry state and transfer
    functions that only move lattices upwards, the lattice of every argument
    of an entry block of a region of the top operation holds the entry state
    after the forward [initialize], whatever the visits of the walk did
    since it was set. *)
Theorem initialize_marks_entry_arguments (top : Nesting) (s : Solver L)
    (argument : Value) :
  argument ∈ topEntryArguments ir top →
  valueOf (execAll (trace (ForwardInit.initialize ir dc NDEBUG top).2) s) argument
  = entryState analysis argument.
Proof.
  intros Hargument. apply (widened_stays ir analysis self monotone).
  - rewrite forward_initialize_eq. apply Forall_trace_andThen.
    + apply Forall_bind_intro. intros ?. by repeat constructor.
    + apply forwardAction_initializeRecursively.
  - rewrite forward_initialize_eq, emit_andThen. unfold trace. cbn [fst].
    apply elem_of_app. left. apply list_elem_of_bind. exists argument.
    split; [|done]. by right; left.
Qed.

End InitializationSoundness.

(** ** Calls with known predecessors and blocks reached through branches *)

Section ForwardKnown.

Context (ir : IR) (dc : DeadCodeStates) (NDEBUG : bool).

#[local] Abbreviation visitOperation := (Forward.visitOperation ir dc NDEBUG).
#[local] Abbreviation visitBlock := (Forward.visitBlock ir dc NDEBUG).

Lemma lookup_getResults (op : Op) (index : nat) :
  index < getNumResults ir op →
  getResults ir op !! index = Some (OpResult op index).
Proof.
  intros Hindex. unfold getResults.
  by rewrite list_lookup_fmap, lookup_seq_lt.
Qed.

Lemma lookup_getArguments (block : Block) (index : nat) :
  index < getNumArguments ir block →
  getArguments ir block !! index = Some (BlockArgument block index).
Proof.
  intros Hindex. unfold getArguments.
  by rewrite list_lookup_fmap, lookup_seq_lt.
Qed.


(** *** Branch predecessors *)

Lemma visitBranchPredecessor_actions (block : Block) (terminator : Op)
    (operands : SuccessorOperands) (index : nat) :
  outcome (Forward.visitBranchPredecessor ir block (getArguments ir block)
             terminator operands) = Finished →
  index < getNumArguments ir block →
  (∀ operand,
     successorOperandAt ir terminator operands index = Some (Some operand) →
     Join (BlockArgument block index) operand
       ∈ trace (Forward.visitBranchPredecessor ir block (getArguments ir block)
                  terminator operands)) ∧
  (successorOperandAt ir terminator operands index = Some None →
   SetToEntryState (BlockArgument block index)
     ∈ trace (Forward.visitBranchPredecessor ir block (getArguments ir block)
                terminator operands)).
Proof.
  intros Hfinished Hindex.
  assert ((index, BlockArgument block index) ∈ imap pair (getArguments ir block))
    as Hitem.
  { apply list_elem_of_lookup. exists index. apply list_lookup_imap_Some.
    exists (BlockArgument block index). split; [|done].
    by apply lookup_getArguments. }
  unfold Forward.visitBranchPredecessor in *. split.
  - intros operand Hoperand.
    apply (elem_of_trace_forEach_finished _ _ (index, BlockArgument block index));
      [done..|].
    cbn [fst snd]. rewrite Hoperand. apply elem_of_joinFrom. auto.
  - intros Hproduced.
    apply (elem_of_trace_forEach_finished _ _ (index, BlockArgument block index));
      [done..|].
    cbn [fst snd]. rewrite Hproduced. by left.
Qed.

Lemma visitPredecessors_branches (block : Block) (argLattices : list Value)
    (predecessors : list (Block * nat)) :
  (∀ p, p ∈ predecessors → isLive dc (PPCFGEdge p.1 block) = true →
     isBranchOp ir (getTerminator ir p.1) = true ∧
     outcome (Forward.visitBranchPredecessor ir block argLattices
                (getTerminator ir p.1)
                (getSuccessorOperands ir (getTerminator ir p.1) p.2)) = Finished) →
  outcome (Forward.visitPredecessors ir dc block argLattices predecessors)
  = Finished ∧
  ∀ p a, p ∈ predecessors → isLive dc (PPCFGEdge p.1 block) = true →
    a ∈ trace (Forward.visitBranchPredecessor ir block argLattices
                 (getTerminator ir p.1)
                 (getSuccessorOperands ir (getTerminator ir p.1) p.2)) →
    a ∈ trace (Forward.visitPredecessors ir dc block argLattices predecessors).
Proof.
  induction predecessors as [|[q successorIndex] rest IH]; intros Hall.
  { split; [done|]. by intros ? ? []%elem_of_nil. }
  destruct IH as [Hfinished Hrest].
  { intros p Hp. apply Hall. by right. }
  cbn [Forward.visitPredecessors]. rewrite emit_andThen.
  unfold outcome, trace in *. cbn [fst snd].
  destruct (isLive dc (PPCFGEdge q block)) eqn:Hedge; cbn [negb].
  - destruct (Hall (q, successorIndex)) as [Hbranch Hvisit]; [by left|done|].
    cbn [fst snd] in Hbranch, Hvisit. rewrite Hbranch.
    rewrite (outcome_andThen_finished _ _ Hvisit).
    rewrite (trace_andThen_finished _ _ Hvisit). unfold trace, outcome.
    split; [done|]. intros p a Hp Hlive Ha. right; right.
    apply elem_of_app. apply elem_of_cons in Hp as [->|Hp]; [by left|].
    right. by apply (Hrest p).
  - split; [done|]. intros p a Hp Hlive Ha. right; right.
    apply elem_of_cons in Hp as [->|Hp]; [cbn in Hlive; congruence|].
    by apply (Hrest p).
Qed.

(** X24: a live block with arguments that is not an entry block and each
    of whose live incoming edges comes from a branch that forwards or
    produces every argument.  The visit finishes, and for every live
    incoming edge and every argument: if the branch forwards an operand to
    the argument, the lattice of the operand is joined into the lattice of
    the argument; if the branch produces the argument itself, the lattice of
    the argument is set to the entry state. *)
Theorem branch_predecessors_join_or_widen (block : Block) :
  getNumArguments ir block ≠ 0 →
  isLive dc (PPBlock block) = true →
  isEntryBlock ir block = false →
  (∀ p, p ∈ getPredecessors ir block →
     isLive dc (PPCFGEdge p.1 block) = true →
     isBranchOp ir (getTerminator ir p.1) = true ∧
     Forward.coversArguments ir dc block (getArguments ir block) p) →
  outcome (visitBlock block) = Finished ∧
  ∀ p index,
    p ∈ getPredecessors ir block →
    isLive dc (PPCFGEdge p.1 block) = true →
    index < getNumArguments ir block →
    (∀ operand,
       successorOperandAt ir (getTerminator ir p.1)
         (getSuccessorOperands ir (getTerminator ir p.1) p.2) index
       = Some (Some operand) →
       Join (BlockArgument block index) operand ∈ trace (visitBlock block)) ∧
    (successorOperandAt ir (getTerminator ir p.1)
       (getSuccessorOperands ir (getTerminator ir p.1) p.2) index
     = Some None →
     SetToEntryState (BlockArgument block index) ∈ trace (visitBlock block)).
Proof.
  intros Harguments Hlive Hentry Hall.
  destruct (visitPredecessors_branches block (getArguments ir block)
              (getPredecessors ir block)) as [Hfinished Hactions].
  { intros p Hp Hedge. destruct (Hall p Hp Hedge) as [Hbranch Hcovers].
    split; [done|]. by apply (visitBranchPredecessor_finished ir dc). }
  unfold Forward.visitBlock. rewrite decide_False by done.
  rewrite Hlive, Hentry. cbn [negb]. rewrite !emit_andThen.
  unfold outcome, trace in *. cbn [fst snd].
  split; [done|]. intros p index Hp Hedge Hindex.
  destruct (Hall p Hp Hedge) as [Hbranch Hcovers].
  pose proof (visitBranchPredecessor_finished ir dc block (getArguments ir block) p
                Hedge Hbranch Hcovers) as Hvisit.
  destruct (visitBranchPredecessor_actions block (getTerminator ir p.1)
              (getSuccessorOperands ir (getTerminator ir p.1) p.2) index
              Hvisit Hindex) as [Hjoin Hwiden].
  split.
  - intros operand Hoperand. right. apply elem_of_app. right.
    apply (Hactions p); [done..|]. by apply Hjoin.
  - intros Hproduced. right. apply elem_of_app. right.
    apply (Hactions p); [done..|]. by apply Hwiden.
Qed.

End ForwardKnown.

(** ** The properties above on the examples *)

(** Membership in a concrete list, by evaluation. *)
#[local] Ltac by_evaluation := apply (bool_decide_unpack _); vm_compute; exact I.

Lemma forward_visit_writes_only_its_own_lattices_witness :
  valueOf ConstantPropagation.analysis
    (run Examples.module Examples.callGraph false ConstantPropagation.analysis 0
       (PPOperation 1) Examples.argumentIsThree)
    (BlockArgument 0 0)
  = ConstantPropagation.Constant 3.
Proof.
  pose proof (forward_visit_writes_only_its_own_lattices Examples.module
                Examples.callGraph false ConstantPropagation.analysis 0
                (PPOperation 1) Examples.argumentIsThree) as [_ Hframe].
  rewrite Hframe; [reflexivity|by_evaluation].
Defined.

Lemma backward_visit_writes_only_operand_lattices_witness :
  valueOf ConstantPropagation.analysis
    (execAll Examples.module ConstantPropagation.analysis 0
       (trace (Backward.visitOperation Examples.module Examples.liveUnknown false 7))
       Examples.successorArgumentIsFive)
    (BlockArgument 6 0)
  = ConstantPropagation.Constant 5.
Proof.
  pose proof (backward_visit_writes_only_operand_lattices Examples.module
                Examples.liveUnknown false ConstantPropagation.analysis 0 7
                Examples.successorArgumentIsFive) as [_ Hframe].
  rewrite Hframe; [reflexivity|by_evaluation].
Defined.

Lemma forward_join_registers_dependency_witness :
  (PPOperation 1, 0)
    ∈ worklist
        (update Examples.module ConstantPropagation.analysis (BlockArgument 1 0)
           (ConstantPropagation.Constant 5)
           (run Examples.module Examples.callGraph false
              ConstantPropagation.analysis 0 (PPOperation 1)
              ConstantPropagation.emptySolver, [])).1.
Proof.
  pose proof (forward_join_registers_dependency Examples.module Examples.callGraph
                false ConstantPropagation.analysis 0 (PPOperation 1)
                ConstantPropagation.emptySolver) as [_ Hjoins].
  destruct (Hjoins (OpResult 1 0) (BlockArgument 1 0)) as [_ Henqueued];
    [by_evaluation|].
  apply Henqueued. by vm_compute.
Defined.

Lemma backward_meet_registers_dependency_witness :
  (PPOperation 1, 0)
    ∈ worklist
        (update Examples.module ConstantPropagation.analysis (BlockArgument 1 0)
           (ConstantPropagation.Constant 5)
           (execAll Examples.module ConstantPropagation.analysis 0
              (trace (Backward.visitOperation Examples.module Examples.liveUnknown
                        false 1))
              ConstantPropagation.emptySolver, [])).1.
Proof.
  pose proof (backward_meet_registers_dependency Examples.module
                Examples.liveUnknown false ConstantPropagation.analysis 0 1
                ConstantPropagation.emptySolver) as [_ Hmeets].
  destruct (Hmeets (BlockArgument 0 0) (BlockArgument 1 0)) as [_ Henqueued];
    [by_evaluation|].
  apply Henqueued. by vm_compute.
Defined.

Lemma transfer_function_subscribes_to_operands_witness :
  (PPOperation 12, 0)
    ∈ worklist
        (update Examples.module ConstantPropagation.analysis (BlockArgument 0 0)
           (ConstantPropagation.Constant 5)
           (run Examples.module Examples.liveUnknown false
              ConstantPropagation.analysis 0 (PPOperation 12)
              Examples.argumentIsThree, [])).1.
Proof.
  assert (getNumResults Examples.module 12 ≠ 0) as Hresults by (by vm_compute).
  pose proof (transfer_function_subscribes_to_operands Examples.module
                Examples.liveUnknown false ConstantPropagation.analysis 0 12
                Examples.argumentIsThree Hresults eq_refl eq_refl eq_refl)
    as [_ Hoperands].
  destruct (Hoperands (BlockArgument 0 0)) as [_ Henqueued]; [by_evaluation|].
  apply Henqueued; [by_evaluation|by vm_compute].
Defined.

Lemma backward_visit_depends_on_results_witness :
  (PPOperation 12, 0)
    ∈ worklist
        (update Examples.module ConstantPropagation.analysis (OpResult 12 0)
           (ConstantPropagation.Constant 5)
           (execAll Examples.module ConstantPropagation.analysis 0
              (trace (Backward.visitOperation Examples.module Examples.liveUnknown
                        false 12))
              ConstantPropagation.emptySolver, [])).1.
Proof.
  assert (OpResult 12 0 ∈ getResults Examples.module 12) as Hresult
    by by_evaluation.
  pose proof (backward_visit_depends_on_results Examples.module
                Examples.liveUnknown false ConstantPropagation.analysis 0 12
                ConstantPropagation.emptySolver (OpResult 12 0) eq_refl Hresult)
    as (_ & _ & Henqueued).
  apply Henqueued. by vm_compute.
Defined.

Lemma forward_visit_is_inflationary_witness :
  ConstantPropagation.join
    (valueOf ConstantPropagation.analysis Examples.resultIsSeven (OpResult 1 0))
    (valueOf ConstantPropagation.analysis
       (run Examples.module Examples.liveUnknown false ConstantPropagation.analysis
          0 (PPOperation 1) Examples.resultIsSeven)
       (OpResult 1 0))
  = valueOf ConstantPropagation.analysis
      (run Examples.module Examples.liveUnknown false ConstantPropagation.analysis
         0 (PPOperation 1) Examples.resultIsSeven)
      (OpResult 1 0).
Proof.
  exact (forward_visit_is_inflationary Examples.module Examples.liveUnknown false
           ConstantPropagation.analysis 0 ConstantPropagation_monotone
           (PPOperation 1) Examples.resultIsSeven (OpResult 1 0)).
Defined.

Lemma forward_widening_is_final_witness :
  valueOf ConstantPropagation.analysis
    (run Examples.module Examples.liveUnknown false ConstantPropagation.analysis 0
       (PPBlock 5) Examples.successorArgumentIsFive)
    (BlockArgument 5 0)
  = ConstantPropagation.Unknown.
Proof.
  apply (forward_widening_is_final Examples.module Examples.liveUnknown false
           ConstantPropagation.analysis 0 ConstantPropagation_monotone
           (PPBlock 5) Examples.successorArgumentIsFive (BlockArgument 5 0)).
  by_evaluation.
Defined.

Lemma forward_join_is_sound_witness :
  ConstantPropagation.join
    (valueOf ConstantPropagation.analysis Examples.argumentIsThree
       (BlockArgument 0 0))
    (valueOf ConstantPropagation.analysis
       (run Examples.module Examples.callGraph false ConstantPropagation.analysis 0
          (PPBlock 1) Examples.argumentIsThree)
       (BlockArgument 1 0))
  = valueOf ConstantPropagation.analysis
      (run Examples.module Examples.callGraph false ConstantPropagation.analysis 0
         (PPBlock 1) Examples.argumentIsThree)
      (BlockArgument 1 0).
Proof.
  assert (Join (BlockArgument 1 0) (BlockArgument 0 0)
            ∈ trace (Forward.visit Examples.module Examples.callGraph false
                       (PPBlock 1)).2) as Hjoin by by_evaluation.
  assert (BlockArgument 0 0 ∉ targets Examples.module (PPBlock 1)) as Hother
    by by_evaluation.
  exact (proj2 (forward_join_is_sound Examples.module Examples.callGraph false
                  ConstantPropagation.analysis 0 ConstantPropagation_monotone
                  (PPBlock 1) Examples.argumentIsThree
                  (BlockArgument 1 0) (BlockArgument 0 0) Hjoin Hother)).
Defined.

Lemma resolved_region_predecessors_are_joined_witness :
  Join (BlockArgument 1 1) (BlockArgument 0 1)
    ∈ trace (Forward.visitRegionSuccessors LoopExample.loop LoopExample.states false
               (PPBlock 1) 1 (Some 0) (getArguments LoopExample.loop 1)).
Proof.
  assert (∀ p, p ∈ getKnownPredecessors LoopExample.states (PPBlock 1) →
            is_Some (Forward.incomingSuccessorOperands LoopExample.loop 1 (Some 0) p) ∧
            Forward.passes LoopExample.loop LoopExample.states false (PPBlock 1) 1
              (Some 0) (getArguments LoopExample.loop 1) p) as Hresolved.
  { intros p Hp. apply list_elem_of_In in Hp. cbn in Hp.
    destruct Hp as [<-|[<-|[]]]; (split; [by eexists|]);
      intros operands [= <-]; (split; [by right|]); right;
      (split; [done|]); split; vm_compute; lia. }
  pose proof (resolved_region_predecessors_are_joined LoopExample.loop
                LoopExample.states false (PPBlock 1) 1 (Some 0)
                (getArguments LoopExample.loop 1) (or_intror eq_refl) Hresolved)
    as (_ & _ & Hjoins).
  apply (Hjoins 1 [BlockArgument 0 1] 0); [by_evaluation|reflexivity..].
Defined.

(** A successor input numbered past the arguments of the region: the slice
    of line 259 is out of range and the visit of the loop body stops there,
    in either build, before any join. *)
Example successor_input_past_the_arguments (NDEBUG : bool) :
  Forward.visitBlock LoopExample.loop LoopExample.pastTheEnd NDEBUG 1
  = ([GetExecutable (PPBlock 1); GetLatticeElement (BlockArgument 1 0);
      GetLatticeElement (BlockArgument 1 1);
      GetPredecessorStateFor (PPBlock 1) (PPBlock 1)],
     AssertionFailed "Invalid specifier").
Proof. by destruct NDEBUG. Qed.


Lemma block_with_dead_incoming_edges_witness :
  valueOf ConstantPropagation.analysis
    (execAll Examples.module ConstantPropagation.analysis 0
       (trace (Forward.visitBlock Examples.module LoopExample.deadEdges false 5))
       Examples.successorArgumentIsFive)
    (BlockArgument 5 0)
  = ConstantPropagation.Uninitialized ∧
  BlockContentSubscribe (PPCFGEdge 6 5)
    ∈ trace (Forward.visitBlock Examples.module LoopExample.deadEdges false 5).
Proof.
  assert (getNumArguments Examples.module 5 ≠ 0) as Harguments by (by vm_compute).
  pose proof (block_with_dead_incoming_edges Examples.module LoopExample.deadEdges
                false ConstantPropagation.analysis 0 5
                Examples.successorArgumentIsFive eq_refl (λ _ _, eq_refl))
    as (_ & _ & Hvalues & _ & Hsubscribed).
  split; [exact (Hvalues (BlockArgument 5 0))|].
  apply (Hsubscribed Harguments eq_refl (6, 0)). by_evaluation.
Defined.

Lemma call_with_body_meets_entry_arguments_witness :
  Meet (BlockArgument 0 0) (BlockArgument 1 0)
    ∈ trace (Backward.visitOperation Examples.module Examples.liveUnknown false 1).
Proof.
  pose proof (call_with_body_meets_entry_arguments Examples.module
                Examples.liveUnknown false 1 10 1 eq_refl eq_refl eq_refl eq_refl
                eq_refl eq_refl eq_refl) as (_ & Hmeets & _).
  apply (Hmeets 0); [reflexivity|cbn; lia].
Defined.

Lemma region_branch_operands_met_or_visited_witness :
  occurrences (VisitBranchOperand {| operandOwner := 1; operandNumber := 0 |})
    (trace (Backward.visitOperation LoopExample.loop LoopExample.states false 1))
  = 1 ∧
  Meet (BlockArgument 0 1) (BlockArgument 1 1)
    ∈ trace (Backward.visitOperation LoopExample.loop LoopExample.states false 1).
Proof.
  pose proof (region_branch_operands_met_or_visited LoopExample.loop
                LoopExample.states false 1 eq_refl eq_refl) as (_ & Honce & Hmeets).
  split; [exact (Honce 0)|].
  apply Hmeets. exists {| operandOwner := 1; operandNumber := 1 |}. by_evaluation.
Defined.

Lemma terminator_operands_met_or_visited_witness :
  occurrences (VisitBranchOperand {| operandOwner := 2; operandNumber := 0 |})
    (trace (Backward.visitOperation LoopExample.loop LoopExample.states false 2))
  = 0 ∧
  Meet (BlockArgument 1 1) (OpResult 1 0)
    ∈ trace (Backward.visitOperation LoopExample.loop LoopExample.states false 2).
Proof.
  pose proof (terminator_operands_met_or_visited LoopExample.loop
                LoopExample.states false 2 1 eq_refl eq_refl eq_refl eq_refl
                eq_refl eq_refl eq_refl) as (_ & Hnever & Hmeets).
  split; [exact (Hnever 0)|].
  apply Hmeets. exists {| operandOwner := 2; operandNumber := 0 |}. by_evaluation.
Defined.

Lemma backward_transfer_function_invoked_witness :
  Backward.visitOperation Examples.module Examples.liveUnknown false 12
  = (Backward.prologue Examples.module 12
       ++ [BackwardVisitOperationImpl 12 (getOperands Examples.module 12)
             (getResults Examples.module 12)],
     Finished).
Proof.
  pose proof (backward_transfer_function_invoked Examples.module
                Examples.liveUnknown false 12) as [_ Hordinary].
  apply Hordinary; [reflexivity..|]. left. by eexists.
Defined.

Lemma operation_visits_finish_witness :
  outcome (Backward.visitOperation LoopExample.loop LoopExample.states false 2)
  = Finished ∧
  outcome (Forward.visitOperation Examples.module Examples.callGraph false 1)
  = Finished.
Proof.
  split.
  - apply (operation_visits_finish LoopExample.loop LoopExample.states false 2).
    by eexists.
  - by apply (operation_visits_finish Examples.module Examples.callGraph false 1).
Defined.

Lemma forward_transfer_function_only_for_ordinary_operations_witness :
  isCallOp Examples.module 12 = false ∧
  isRegionBranchOp Examples.module 12 = false.
Proof.
  assert (VisitOperationImpl 12 (getOperands Examples.module 12)
            (getResults Examples.module 12)
            ∈ trace (Forward.visit Examples.module Examples.liveUnknown false
                       (PPOperation 12)).2) as Hinvoked by by_evaluation.
  pose proof (forward_transfer_function_only_for_ordinary_operations
                Examples.module Examples.liveUnknown false (PPOperation 12) 12
                _ _ Hinvoked) as (_ & _ & _ & _ & _ & Hregionbranch & Hcall).
  exact (conj Hcall Hregionbranch).
Defined.

Lemma initialize_subscribes_to_every_block_witness :
  BlockContentSubscribe (PPBlock 1)
    ∈ trace (ForwardInit.initialize LoopExample.loop LoopExample.states false
               LoopExample.nesting).2 ∧
  BlockContentSubscribe (PPBlock 1)
    ∈ trace (BackwardInit.initialize LoopExample.loop LoopExample.states false
               LoopExample.nesting).2.
Proof.
  assert (1 ∈ nestedBlocks LoopExample.nesting) as Hnested by by_evaluation.
  pose proof (initialize_subscribes_to_every_block LoopExample.loop
                LoopExample.states false LoopExample.nesting 1 Hnested)
    as [Hforward Hbackward].
  split; [apply Hforward|apply Hbackward]; by vm_compute.
Defined.

Lemma initialization_while_nothing_is_live_witness :
  valueOf ConstantPropagation.analysis
    (execAll LoopExample.loop ConstantPropagation.analysis 0
       (trace (ForwardInit.initialize LoopExample.loop Examples.allDead false
                 LoopExample.nesting).2)
       LoopExample.xIsFour)
    (BlockArgument 0 1)
  = ConstantPropagation.Unknown ∧
  valueOf ConstantPropagation.analysis
    (execAll LoopExample.loop ConstantPropagation.analysis 0
       (trace (BackwardInit.initialize LoopExample.loop Examples.allDead false
                 LoopExample.nesting).2)
       LoopExample.xIsFour)
    (BlockArgument 0 1)
  = ConstantPropagation.Constant 4.
Proof.
  pose proof (initialization_while_nothing_is_live LoopExample.loop
                Examples.allDead false ConstantPropagation.analysis 0
                LoopExample.nesting LoopExample.xIsFour (λ _, eq_refl))
    as (_ & Hforward & _ & Hbackward & _).
  split; [exact (Hforward (BlockArgument 0 1))|exact (Hbackward (BlockArgument 0 1))].
Defined.

Lemma initialize_marks_entry_arguments_witness :
  valueOf ConstantPropagation.analysis
    (execAll LoopExample.loop ConstantPropagation.analysis 0
       (trace (ForwardInit.initialize LoopExample.loop LoopExample.states false
                 LoopExample.nesting).2)
       LoopExample.xIsFour)
    (BlockArgument 0 1)
  = ConstantPropagation.Unknown.
Proof.
  apply (initialize_marks_entry_arguments LoopExample.loop LoopExample.states
           false ConstantPropagation.analysis 0 ConstantPropagation_monotone
           LoopExample.nesting LoopExample.xIsFour (BlockArgument 0 1)).
  by_evaluation.
Defined.


Lemma branch_predecessors_join_or_widen_witness :
  Join (BlockArgument 2 0) (BlockArgument 0 0)
    ∈ trace (Forward.visitBlock Examples.module Examples.liveUnknown false 2).
Proof.
  assert (getNumArguments Examples.module 2 ≠ 0) as Harguments by (by vm_compute).
  assert (∀ p, p ∈ getPredecessors Examples.module 2 →
            isLive Examples.liveUnknown (PPCFGEdge p.1 2) = true →
            isBranchOp Examples.module (getTerminator Examples.module p.1) = true ∧
            Forward.coversArguments Examples.module Examples.liveUnknown 2
              (getArguments Examples.module 2) p) as Hbranches.
  { intros p Hp _. apply list_elem_of_In in Hp. cbn in Hp.
    destruct Hp as [<-|[]]. split; [reflexivity|].
    intros _ _ index Hindex. cbn in Hindex.
    assert (index = 0) as -> by lia. by eexists. }
  pose proof (branch_predecessors_join_or_widen Examples.module
                Examples.liveUnknown false 2 Harguments eq_refl eq_refl Hbranches)
    as [_ Hactions].
  destruct (Hactions (0, 0) 0) as [Hjoin _];
    [by_evaluation|reflexivity|cbn; lia|].
  by apply Hjoin.
Defined.
